(** * Durable coroutines: runtime contract and compiler passes

    A shallow embedding of the Go sources of the durable coroutine
    library: the global type register of the serde runtime, the coroutine
    [Context] with its yield protocol, the statement desugarer and the
    function-body compiler with its import synthesizer.

    Go values that can be [nil] are options, Go maps are [gmap]s, slices
    are lists, [int] values are in [Z], and a call that can panic returns a
    [result]. *)

From Stdlib Require Import ZArith Lia.
From Stdlib.Strings Require Import Byte.
From stdpp Require Import gmap strings list fin_maps pretty.

Local Open Scope Z_scope.
Set Warnings "-register-all".

(** ** Panics *)

(** The value carried by a Go panic. *)
Inductive PanicValue : Type :=
| PanicString (msg : string)     (* panic("...") *)
| PanicUnwind                    (* panic(unwind{}) *)
| PanicRuntime (msg : string).   (* raised by the Go runtime itself *)

#[global] Instance PanicValue_eq_dec : EqDecision PanicValue.
Proof. solve_decision. Defined.

(** Outcome of a call: a normal return or a panic that unwinds the caller. *)
Inductive result (A : Type) : Type :=
| Ok (a : A)
| Panic (p : PanicValue).
Arguments Ok {A} a.
Arguments Panic {A} p.

#[global] Instance result_eq_dec {A} `{EqDecision A} : EqDecision (result A).
Proof. solve_decision. Defined.

Definition rbind {A B} (r : result A) (k : A -> result B) : result B :=
  match r with
  | Ok a => k a
  | Panic p => Panic p
  end.

(** ** The global type register (package types) *)

Module Registry.
Section typemap.

(** [reflect.Type] handles, comparable and usable as map keys. *)
Context {RType : Type} `{Countable RType}.
(** User callbacks [SerializerFunc[T]] and [DeserializerFunc[T]]
    (non-nil function values), and the type-erased [serializerFunc] and
    [deserializerFunc] stored in the register. *)
Context {SerializerFunc DeserializerFunc : Type}.
Context {serializerFunc deserializerFunc : Type}.
(** The two function literals built by [registerSerde]: each captures the
    type and the user callback, which may be nil.  A function literal is
    itself never nil. *)
Context (closure_s : RType -> option SerializerFunc -> serializerFunc).
Context (closure_d : RType -> option DeserializerFunc -> deserializerFunc).
(** The [cache] field, which registration never touches. *)
Context {Cache : Type}.

Record serde : Type := mkserde {
  id : Z;
  ser : option serializerFunc;
  des : option deserializerFunc;
}.

(** The zero value of [serde], returned by a failed map lookup. *)
Definition serde_zero : serde := mkserde 0 None None.

Record typemap : Type := mktypemap {
  custom : list RType;
  cache : Cache;
  serdes : gmap RType serde;
}.

Definition newTypemap (c0 : Cache) : typemap := mktypemap [] c0 ∅.

Definition set_id (s : serde) (i : Z) : serde := mkserde i (ser s) (des s).
Definition set_ser (s : serde) (f : option serializerFunc) : serde :=
  mkserde (id s) f (des s).
Definition set_des (s : serde) (f : option deserializerFunc) : serde :=
  mkserde (id s) (ser s) f.

Definition attach (m : typemap) (t : RType)
    (ser : option serializerFunc) (des : option deserializerFunc)
    : result typemap :=
  if bool_decide (ser = None) || bool_decide (des = None)
  then Panic (PanicString "both serializer and deserializer need to be provided")
  else
    let s := default serde_zero (serdes m !! t) in
    let '(s, custom') :=
      match serdes m !! t with
      | Some _ => (s, custom m)
      | None => (set_id s (Z.of_nat (length (custom m))), custom m ++ [t])
      end in
    let s := set_ser s ser in
    let s := set_des s des in
    Ok (mktypemap custom' (cache m) (<[t := s]> (serdes m))).

Definition serdeOf (m : typemap) (x : RType) : serde * bool :=
  match serdes m !! x with
  | Some s => (s, true)
  | None => (serde_zero, false)
  end.

(** [registerSerde[T]]: [t] is the reflected type of [T]. *)
Definition registerSerde (tm : typemap) (t : RType)
    (serializer : option SerializerFunc)
    (deserializer : option DeserializerFunc) : result typemap :=
  let s := closure_s t serializer in
  let d := closure_d t deserializer in
  attach tm t (Some s) (Some d).

(** [Register[T]] works on the global register, passed here as state. *)
Definition Register (types : typemap) (t : RType)
    (serializer : option SerializerFunc)
    (deserializer : option DeserializerFunc) : result typemap :=
  registerSerde types t serializer deserializer.

(** A sequence of [attach] calls.  A call that panics does so before it
    writes anything, so the register is the same after it (whether the
    panic is recovered or not). *)
Definition attach_op : Type :=
  RType * option serializerFunc * option deserializerFunc.

Fixpoint attach_all (m : typemap) (ops : list attach_op) : typemap :=
  match ops with
  | [] => m
  | (t, s, d) :: ops =>
      match attach m t s d with
      | Ok m' => attach_all m' ops
      | Panic _ => attach_all m ops
      end
  end.

(** The types named by the calls of [ops] that carry both callbacks. *)
Definition accepted (o : attach_op) : bool :=
  match o with
  | (_, Some _, Some _) => true
  | _ => false
  end.

Definition registered_types (ops : list attach_op) : list RType :=
  (fun o : attach_op => o.1.1) <$> filter (fun o => accepted o = true) ops.

(** Distinct types in the order of their first registration, continuing
    an order [seen] that is already fixed. *)
Fixpoint registration_order (seen : list RType) (ts : list RType) : list RType :=
  match ts with
  | [] => seen
  | t :: ts =>
      if decide (t ∈ seen) then registration_order seen ts
      else registration_order (seen ++ [t]) ts
  end.

(** The register invariant: ids index [custom], and [custom] lists the
    keys of [serdes] without repetition. *)
Record typemap_inv (m : typemap) : Prop := mk_typemap_inv {
  inv_id : ∀ t s, serdes m !! t = Some s →
             0 <= id s < Z.of_nat (length (custom m)) ∧
             custom m !! Z.to_nat (id s) = Some t;
  inv_dom : ∀ t, t ∈ custom m ↔ is_Some (serdes m !! t);
  inv_nodup : NoDup (custom m);
}.

(** Every entry of the register holds both callbacks. *)
Definition callbacks_set (m : typemap) : Prop :=
  ∀ t s, serdes m !! t = Some s → is_Some (ser s) ∧ is_Some (des s).

End typemap.

(** A register keyed by type names, with callbacks named by numbers. *)
Definition example_register : @typemap string _ _ nat nat unit :=
  attach_all (newTypemap tt)
    [("Stack", Some 1%nat, Some 2%nat); ("Frame", Some 3%nat, Some 4%nat);
     ("Heap", None, Some 5%nat); ("Stack", Some 6%nat, Some 7%nat)].

End Registry.

(** ** The coroutine context (package coroutine, durable build) *)

Module Coroutine.

(** Modelled from the spec: the primitive byte codecs are outside these
    sources; the wire format fixes unsigned 64-bit integers as eight bytes,
    little-endian. *)
Definition byte_of_Z (z : Z) : byte :=
  default x00 (Byte.of_N (Z.to_N (z mod 256))).

Definition Z_of_byte (b : byte) : Z := Z.of_N (Byte.to_N b).

Fixpoint put_le (n : nat) (z : Z) : list byte :=
  match n with
  | O => []
  | S n => byte_of_Z z :: put_le n (z / 256)
  end.

Fixpoint get_le (bs : list byte) : Z :=
  match bs with
  | [] => 0
  | b :: bs => Z_of_byte b + 256 * get_le bs
  end.

Definition put_u64 (z : Z) : list byte := put_le 8 z.

Definition get_u64 (b : list byte) : option (Z * list byte) :=
  if decide (length b < 8)%nat then None
  else Some (get_le (take 8 b), drop 8 b).

Section context.

(** [R] is what the coroutine yields to its caller, [S] what the caller
    sends back; [zeroS] is the zero value of [S]. *)
Context {R S : Type} (zeroS : S).
Context {Closure Heap Locals Deferred : Type}.

(** Modelled from the spec: [Frame] and [Stack] are declared outside these
    sources.  A frame holds the instruction pointer, the resume flag, the
    deferred calls and the locals; the stack is the sequence of frames and
    [Top] is its last element, borrowed for reading and writing. *)
Record Frame : Type := mkFrame {
  IP : Z;
  Resume : bool;
  Defers : list Deferred;
  locals : Locals;
}.

Record Stack : Type := mkStack { Frames : list Frame }.

Definition Top (s : Stack) : option Frame := last (Frames s).

(** A write through the pointer returned by [Top]. *)
Definition store_Top (s : Stack) (f : Frame) : Stack :=
  mkStack (<[pred (length (Frames s)) := f]> (Frames s)).

Definition set_Resume (f : Frame) (b : bool) : Frame :=
  mkFrame (IP f) b (Defers f) (locals f).

Record Context : Type := mkContext {
  recv : R;
  send : S;
  done : bool;
  stop : bool;
  Entrypoint : Closure;
  stack : Stack;
  heap : Heap;
}.

Definition set_recv (c : Context) (v : R) : Context :=
  mkContext v (send c) (done c) (stop c) (Entrypoint c) (stack c) (heap c).
Definition set_send (c : Context) (v : S) : Context :=
  mkContext (recv c) v (done c) (stop c) (Entrypoint c) (stack c) (heap c).
Definition set_stop (c : Context) (b : bool) : Context :=
  mkContext (recv c) (send c) (done c) b (Entrypoint c) (stack c) (heap c).
Definition set_stack (c : Context) (s : Stack) : Context :=
  mkContext (recv c) (send c) (done c) (stop c) (Entrypoint c) s (heap c).

(** The frame codec: how one frame is written, and how one is read back
    from the front of a buffer ([None] when the bytes are not a frame). *)
Context (ser_frame : Frame -> list byte).
Context (des_frame : list byte -> option (Frame * list byte)).

(** Modelled from the spec: [serde.Serialize] and [serde.Deserialize] are
    outside these sources.  A frame stack is written as its length (u64)
    followed by its frames, appended to the buffer; reading consumes that
    prefix and returns the rest of the buffer. *)
Definition Serialize (s : Stack) (b : list byte) : list byte :=
  b ++ put_u64 (Z.of_nat (length (Frames s))) ++ concat (ser_frame <$> Frames s).

Fixpoint des_frames (n : nat) (b : list byte) : option (list Frame * list byte) :=
  match n with
  | O => Some ([], b)
  | Datatypes.S n =>
      match des_frame b with
      | None => None
      | Some (f, b) =>
          match des_frames n b with
          | None => None
          | Some (fs, b) => Some (f :: fs, b)
          end
      end
  end.

Definition Deserialize (b : list byte) : result (Stack * list byte) :=
  match get_u64 b with
  | None => Panic (PanicRuntime "unexpected end of buffer")
  | Some (n, b) =>
      match des_frames (Z.to_nat n) b with
      | None => Panic (PanicRuntime "malformed frame")
      | Some (fs, b) => Ok (mkStack fs, b)
      end
  end.

(** Go's [error] result: [None] is nil. *)
Definition error : Type := option string.

Definition MarshalAppend (c : Context) (b : list byte) : list byte * error :=
  let b := Serialize (stack c) b in
  (b, None).

Definition Unmarshal (c : Context) (b : list byte) : result (Context * (Z * error)) :=
  let start := Z.of_nat (length b) in
  rbind (Deserialize b) (fun '(s, b) =>
    let c := set_stack c s in
    let sn := start - Z.of_nat (length b) in
    Ok (c, (sn, None))).

(** [Yield] returns the context as it leaves it, and either the value the
    caller sent or the panic that ends the call. *)
Definition Yield (c : Context) (value : R) : Context * result S :=
  if stop c then
    (c, Panic (PanicString "cannot yield from a coroutine that has been stopped"))
  else
    match Top (stack c) with
    | None => (c, Panic (PanicRuntime "Top of an empty stack"))
    | Some frame =>
        if Resume frame then
          let c := set_stack c (store_Top (stack c) (set_Resume frame false)) in
          if stop c then (c, Panic PanicUnwind)
          else (c, Ok (send c))
        else
          let zero := zeroS in
          let c := set_stack c (store_Top (stack c) (set_Resume frame true)) in
          let c := set_send c zero in
          let c := set_recv c value in
          (c, Panic PanicUnwind)
    end.

(** The dispatch as the specification tabulates it, row by row, for a
    stopped coroutine that aborts with the message [msg].  The table has
    no row for an empty frame stack, where this definition follows
    [Yield]. *)
Definition Yield_table (msg : string) (c : Context) (value : R) : Context * result S :=
  if stop c then (c, Panic (PanicString msg))
  else
    match Top (stack c) with
    | None => (c, Panic (PanicRuntime "Top of an empty stack"))
    | Some frame =>
        if Resume frame then
          let c := set_stack c (store_Top (stack c) (set_Resume frame false)) in
          if stop c then (c, Panic PanicUnwind) else (c, Ok (send c))
        else
          let c := set_stack c (store_Top (stack c) (set_Resume frame true)) in
          (set_recv (set_send c zeroS) value, Panic PanicUnwind)
    end.

Definition Unwinding (c : Context) : bool :=
  bool_decide (0 < length (Frames (stack c)))%nat &&
  match Top (stack c) with
  | Some frame => Resume frame
  | None => false
  end.

End context.

(** *** A coroutine of integers *)

(** Frames without locals, written as the instruction pointer and the
    resume flag. *)
Definition example_ser_frame (f : @Frame unit unit) : list byte :=
  put_u64 (IP f) ++ [if Resume f then x01 else x00].

Definition example_des_frame (b : list byte) : option (@Frame unit unit * list byte) :=
  if decide (length b < 9)%nat then None
  else Some (mkFrame (get_le (take 8 b))
                     (match b !! 8%nat with
                      | Some x => negb (Byte.eqb x x00)
                      | None => false
                      end) [] tt,
             drop 9 b).

Definition example_Context : Type := @Context nat nat unit unit unit unit.

Definition example_stack (resume : bool) : @Stack unit unit :=
  mkStack [mkFrame 1 true [] tt; mkFrame 2 resume [] tt].

Definition example_context (stop resume : bool) : example_Context :=
  mkContext 0%nat 5%nat false stop tt (example_stack resume) tt.

End Coroutine.

(** ** Steps that read and write a state and may panic *)

(** A step over a state of type [σ] returns a value and the new state, or
    panics.  The compiler passes call themselves on syntax that they have
    just built, so they are written with a bound on the depth of their
    calls; [None] says that the bound was reached. *)
Section state_monad.
Context {σ : Type}.

Definition ST (A : Type) : Type := σ -> option (result (A * σ)).

Definition ret {A} (a : A) : ST A := λ d, Some (Ok (a, d)).

Definition bind {A B} (m : ST A) (k : A -> ST B) : ST B :=
  λ d, match m d with
       | None => None
       | Some (Panic p) => Some (Panic p)
       | Some (Ok (a, d)) => k a d
       end.

Definition panic {A} (p : PanicValue) : ST A := λ _, Some (Panic p).

Definition out_of_fuel {A} : ST A := λ _, None.

Definition gets {A} (f : σ -> A) : ST A := λ d, Some (Ok (f d, d)).

Definition modify (f : σ -> σ) : ST unit := λ d, Some (Ok (tt, f d)).

Section mapM.
Context {A B : Type} (f : A -> ST B).

Fixpoint mapM (l : list A) : ST (list B) :=
  match l with
  | [] => ret []
  | a :: l => bind (f a) (λ b, bind (mapM l) (λ bs, ret (b :: bs)))
  end.

End mapM.
End state_monad.

Notation "x <- m ;; k" := (bind m (λ x, k))
  (at level 100, m at next level, right associativity).

(** ** Syntax trees and type information (go/token, go/types, go/ast) *)

(** The tokens that the compiler reads or writes. *)
Inductive Token : Type :=
| DEFINE | ASSIGN | INT | STRING | INC | DEC | LSS | EQL | NOT | AND
| BREAK | CONTINUE | GOTO | FALLTHROUGH | VAR | CONST | TYPE | IMPORT
| OtherToken (n : nat).

#[global] Instance Token_eq_dec : EqDecision Token.
Proof. solve_decision. Defined.

Module GoTypes.

Inductive BasicKind : Type := Invalid | Bool | Int | String | OtherBasic (n : nat).

(** [types.Type], by its dynamic type. *)
Inductive Type_ : Type :=
| Basic (kind : BasicKind)
| Array (len : Z) (elem : Type_)
| Slice (elem : Type_)
| Map (key elem : Type_)
| Named (name : string) (underlying : Type_)
| EmptySignature
| OtherType (n : nat).

#[global] Instance BasicKind_eq_dec : EqDecision BasicKind.
Proof. solve_decision. Defined.

#[global] Instance Type_eq_dec : EqDecision Type_.
Proof. solve_decision. Defined.

(** [types.Typ[kind]] and [types.NewSlice]; [EmptySignature] is the type
    of a function without parameters and results. *)
Definition Typ (kind : BasicKind) : Type_ := Basic kind.
Definition NewSlice (elem : Type_) : Type_ := Slice elem.

(** [*types.Signature], as far as the compiler looks into it. *)
Record Signature : Type := mkSignature {
  Params : list Type_;
  Results : list Type_;
}.

(** [types.Object].  A variable may have been made with a nil type. *)
Inductive Object : Type :=
| Var (pos : nat) (pkg : option string) (name : string) (typ : option Type_)
| Label (pos : nat) (name : string)
| PkgName (pos : nat) (name : string) (imported : string)
| OtherObject (pos : nat) (name : string) (typ : Type_).

#[global] Instance Object_eq_dec : EqDecision Object.
Proof. solve_decision. Defined.

Definition NewVar (pos : nat) (pkg : option string) (name : string)
    (typ : option Type_) : Object :=
  Var pos pkg name typ.

(** [obj.Type()]; nil is [None]. *)
Definition Object_Type (obj : Object) : option Type_ :=
  match obj with
  | Var _ _ _ typ => typ
  | Label _ _ => Some (Typ Invalid)
  | PkgName _ _ _ => Some (Typ Invalid)
  | OtherObject _ _ typ => Some typ
  end.

End GoTypes.

Module Ast.

(** [*ast.Ident].  Identifiers parsed from a file carry their position;
    [ast.NewIdent] makes one at [token.NoPos], which is 0.  Maps keyed by
    identifier nodes are keyed by position and name. *)
Record Ident : Type := mkIdent { NamePos : nat; Name : string }.

#[global] Instance Ident_eq_dec : EqDecision Ident.
Proof. solve_decision. Defined.

#[global] Instance Ident_countable : Countable Ident.
Proof.
  refine (inj_countable' (λ i, (NamePos i, Name i)) (λ p, mkIdent p.1 p.2) _).
  intros []. reflexivity.
Defined.

Definition NewIdent (name : string) : Ident := mkIdent 0 name.

(** The identity of a function node: the position of its [func] keyword
    for a node of the input, and a tag for the node that the compiler
    generates from it. *)
Inductive NodeId : Type :=
| Parsed (pos : nat)
| Compiled (pos : nat)
| Synthetic.

#[global] Instance NodeId_eq_dec : EqDecision NodeId.
Proof. solve_decision. Defined.

#[global] Instance NodeId_countable : Countable NodeId.
Proof.
  refine (inj_countable'
            (λ n, match n with
                  | Parsed p => inl p
                  | Compiled p => inr (inl p)
                  | Synthetic => inr (inr ())
                  end)
            (λ x, match x with
                  | inl p => Parsed p
                  | inr (inl p) => Compiled p
                  | inr (inr _) => Synthetic
                  end) _).
  intros []; reflexivity.
Defined.

Inductive Expr : Type :=
| Id (id : Ident)
| BasicLit (Kind : Token) (Value : string)
| CallExpr (Fun : Expr) (Args : list Expr)
| IndexExpr (X Index : Expr)
| IndexListExpr (X : Expr) (Indices : list Expr)
| BinaryExpr (X : Expr) (Op : Token) (Y : Expr)
| UnaryExpr (Op : Token) (X : Expr)
| SelectorExpr (X : Expr) (Sel : Ident)
| StarExpr (X : Expr)
| FuncLit (node : NodeId) (Type_ : FuncType) (Body : list Stmt)
| StructType (Fields : list Field)
| CompositeLit (Type_ : option Expr) (Elts : list Expr)
| KeyValueExpr (Key Value : Expr)
| OtherExpr (n : nat) (operands : list Expr)
with FuncType : Type :=
| mkFuncType (Params : list Field) (Results : option (list Field))
with Field : Type :=
| mkField (Names : list Ident) (Type_ : Expr)
with Stmt : Type :=
| BadStmt
| BlockStmt (List : list Stmt)
| IfStmt (Init : option Stmt) (Cond : Expr) (Body : list Stmt) (Else : option Stmt)
| ForStmt (Init : option Stmt) (Cond : option Expr) (Post : option Stmt)
    (Body : list Stmt)
| RangeStmt (Key Value : option Expr) (Tok : Token) (X : Expr) (Body : list Stmt)
| SwitchStmt (Init : option Stmt) (Tag : option Expr) (Body : list Stmt)
| TypeSwitchStmt (Init : option Stmt) (Assign : Stmt) (Body : list Stmt)
| CaseClause (List : list Expr) (Body : list Stmt)
| BranchStmt (Tok : Token) (Label : option Ident)
| LabeledStmt (Label : Ident) (Stmt_ : Stmt)
| SelectStmt (Body : list Stmt)
| CommClause (Comm : option Stmt) (Body : list Stmt)
| AssignStmt (Lhs : list Expr) (Tok : Token) (Rhs : list Expr)
| DeclStmt (Decl_ : Decl)
| DeferStmt (Fun : Expr) (Args : list Expr)
| EmptyStmt
| ExprStmt (X : Expr)
| GoStmt (Fun : Expr) (Args : list Expr)
| IncDecStmt (X : Expr) (Tok : Token)
| ReturnStmt (Results : list Expr)
| SendStmt (Chan Value : Expr)
with Decl : Type :=
| GenDecl (Tok : Token) (Specs : list Spec)
| FuncDecl (node : NodeId) (Doc : list string) (Recv : option (list Field))
    (Name : Ident) (Type_ : FuncType) (Body : option (list Stmt))
with Spec : Type :=
| ImportSpec (Name : option Ident) (Path : Expr)
| ValueSpec (Names : list Ident) (Type_ : option Expr) (Values : list Expr)
| TypeSpec (Name : Ident) (Type_ : Expr).

(** [*ast.File], without positions and comments. *)
Record File : Type := mkFile { FileName : Ident; Decls : list Decl }.

(** [types.Info]: the types recorded for expressions and the objects that
    identifiers define and use. *)
Record Info : Type := mkInfo {
  Types : Expr -> option GoTypes.Type_;
  Defs : gmap Ident GoTypes.Object;
  Uses : gmap Ident GoTypes.Object;
}.

Definition ObjectOf (info : Info) (id : Ident) : option GoTypes.Object :=
  match Defs info !! id with
  | Some obj => Some obj
  | None => Uses info !! id
  end.

(** [info.Types[e]].  The map is keyed by expression nodes: a node made
    by [ast.NewIdent] is one that the type checker never saw. *)
Definition recordedType (info : Info) (e : Expr) : option GoTypes.Type_ :=
  match e with
  | Id (mkIdent O _) => None
  | _ => Types info e
  end.

Definition TypeOf (info : Info) (e : Expr) : option GoTypes.Type_ :=
  match recordedType info e with
  | Some t => Some t
  | None =>
      match e with
      | Id id =>
          match ObjectOf info id with
          | Some obj => GoTypes.Object_Type obj
          | None => None
          end
      | _ => None
      end
  end.

Definition set_Defs (info : Info) (id : Ident) (obj : GoTypes.Object) : Info :=
  mkInfo (Types info) (<[id := obj]> (Defs info)) (Uses info).

Definition set_Uses (info : Info) (id : Ident) (obj : GoTypes.Object) : Info :=
  mkInfo (Types info) (Defs info) (<[id := obj]> (Uses info)).

End Ast.

(** ** The desugarer (package compiler) *)

Module Desugar.
Import Ast.

Record desugarer : Type := mkdesugarer {
  info : Info;
  vars : nat;
  labels : nat;
  unusedLabels : gset Ident;
  userLabels : list (option GoTypes.Object * Ident);
}.

Definition M (A : Type) : Type := @ST desugarer A.

(** [strconv.Itoa] on a counter. *)
Definition Itoa (n : nat) : string := pretty n.

Definition newVar (t : option GoTypes.Type_) : M Ident :=
  λ d,
    let v := NewIdent ("_v" +:+ Itoa (vars d)) in
    let d := mkdesugarer (info d) (Datatypes.S (vars d)) (labels d)
               (unusedLabels d) (userLabels d) in
    let d := mkdesugarer (set_Defs (info d) v (GoTypes.NewVar 0 None (Name v) t))
               (vars d) (labels d) (unusedLabels d) (userLabels d) in
    Some (Ok (v, d)).

Definition newLabel : M Ident :=
  λ d,
    let l := NewIdent ("_l" +:+ Itoa (labels d)) in
    let d := mkdesugarer (info d) (vars d) (Datatypes.S (labels d))
               (unusedLabels d) (userLabels d) in
    let d := mkdesugarer (info d) (vars d) (labels d)
               ({[l]} ∪ unusedLabels d) (userLabels d) in
    Some (Ok (l, d)).

Definition addUserLabel (userLabel replacement : Ident) : M unit :=
  modify (λ d,
    mkdesugarer (info d) (vars d) (labels d) (unusedLabels d)
      ((ObjectOf (info d) userLabel, replacement) :: userLabels d)).

Fixpoint lookupLabel (key : option GoTypes.Object)
    (m : list (option GoTypes.Object * Ident)) : option Ident :=
  match m with
  | [] => None
  | (k, l) :: m => if decide (k = key) then Some l else lookupLabel key m
  end.

Definition getUserLabel (userLabel : Ident) : M (option Ident) :=
  gets (λ d, lookupLabel (ObjectOf (info d) userLabel) (userLabels d)).

Definition useLabel (label : option Ident) : M unit :=
  modify (λ d,
    match label with
    | Some l =>
        mkdesugarer (info d) (vars d) (labels d) (unusedLabels d ∖ {[l]})
          (userLabels d)
    | None => d
    end).

Definition isUnusedLabel (d : desugarer) (label : Ident) : bool :=
  bool_decide (label ∈ unusedLabels d).

Definition isUnderscore (e : Expr) : bool :=
  match e with
  | Id i => bool_decide (Name i = "_")
  | _ => false
  end.

(** The type assertion of an expression to an identifier node. *)
Definition assertIdent (e : Expr) : M Ident :=
  match e with
  | Id i => ret i
  | _ => panic (PanicRuntime "interface conversion: ast.Expr is not *ast.Ident")
  end.

Section desugar.

(** [typeExpr], which writes a type as an expression, is outside these
    sources. *)
Context (typeExpr : GoTypes.Type_ -> Expr).

(** [for i := 0; i < len(x); i++ body], the loop that the range cases
    hand back to [desugar]. *)
Definition indexLoop (i x : Ident) (body : list Stmt) : Stmt :=
  ForStmt
    (Some (AssignStmt [Id i] DEFINE [BasicLit INT "0"]))
    (Some (BinaryExpr (Id i) LSS (CallExpr (Id (NewIdent "len")) [Id x])))
    (Some (IncDecStmt (Id i) INC))
    body.

(** The block that collects the keys of map [x] into [keys]; its range
    statement is returned as it is built. *)
Definition collectKeys (keySliceType : GoTypes.Type_) (keys k x : Ident) : Stmt :=
  BlockStmt [
    AssignStmt [Id keys] DEFINE
      [CallExpr (Id (NewIdent "make"))
         [typeExpr keySliceType; BasicLit INT "0";
          CallExpr (Id (NewIdent "len")) [Id x]]];
    RangeStmt (Some (Id k)) None DEFINE (Id x)
      [AssignStmt [Id keys] ASSIGN
         [CallExpr (Id (NewIdent "append")) [Id keys; Id k]]]
  ].

(** The helpers of [desugar], over the function [desugar] that they call
    back: a statement that may be nil, a list of statements, the block
    that puts a hoisted initializer in front, and the note that a label of
    the user now stands for a generated one. *)
Definition desugarNil
    (desugar : Stmt -> option Ident -> option Ident -> option Ident -> M Stmt)
    (o : option Stmt) (b c u : option Ident) : M (option Stmt) :=
  match o with
  | None => ret None
  | Some s => s <- desugar s b c u ;; ret (Some s)
  end.

Definition desugarList
    (desugar : Stmt -> option Ident -> option Ident -> option Ident -> M Stmt)
    (stmts : list Stmt) (b c : option Ident) : M (list Stmt) :=
  mapM (λ s, desugar s b c None) stmts.

Definition wrapInit (init : option Stmt) (stmt : Stmt) : Stmt :=
  match init with
  | Some init => BlockStmt [init; stmt]
  | None => stmt
  end.

Definition mapUserLabel (userLabel : option Ident) (l : Ident) : M unit :=
  match userLabel with
  | Some u => addUserLabel u l
  | None => ret tt
  end.

(** The body of the method [desugar]; its calls to itself go to the
    argument [desugar]. *)
Definition desugarer_desugar_body
    (desugar : Stmt -> option Ident -> option Ident -> option Ident -> M Stmt)
    (stmt : Stmt) (breakTo continueTo userLabel : option Ident) : M Stmt :=
  match stmt with
  | BlockStmt List =>
      List <- desugarList desugar List breakTo continueTo ;;
      ret (BlockStmt List)
  | IfStmt Init Cond Body Else =>
      init <- desugarNil desugar Init None None None ;;
      Body <- desugarList desugar Body breakTo continueTo ;;
      Else <- desugarNil desugar Else breakTo continueTo None ;;
      ret (wrapInit init (IfStmt None Cond Body Else))
  | ForStmt Init Cond Post Body =>
      init <- desugarNil desugar Init None None None ;;
      forLabel <- newLabel ;;
      _ <- mapUserLabel userLabel forLabel ;;
      Body <- desugarList desugar Body (Some forLabel) (Some forLabel) ;;
      Post <- desugarNil desugar Post None None None ;;
      ret (wrapInit init (LabeledStmt forLabel (ForStmt None Cond Post Body)))
  | RangeStmt Key Value Tok X Body =>
      t <- gets (λ d, TypeOf (info d) X) ;;
      x <- newVar t ;;
      let init := AssignStmt [Id x] DEFINE [X] in
      rangeElemType <- gets (λ d, TypeOf (info d) X) ;;
      match rangeElemType with
      | Some (GoTypes.Array _ _) | Some (GoTypes.Slice _) =>
          i <- match Key with
               | None => newVar (Some (GoTypes.Typ GoTypes.Int))
               | Some key =>
                   if isUnderscore key
                   then newVar (Some (GoTypes.Typ GoTypes.Int))
                   else assertIdent key
               end ;;
          let Body :=
            match Value with
            | Some v =>
                if isUnderscore v then Body
                else AssignStmt [v] DEFINE [IndexExpr (Id x) (Id i)] :: Body
            | None => Body
            end in
          loop <- desugar (indexLoop i x Body) breakTo continueTo userLabel ;;
          ret (BlockStmt [init; loop])
      | Some (GoTypes.Map keyType _) =>
          match Key, Value with
          | None, None =>
              i <- newVar (Some (GoTypes.Typ GoTypes.Int)) ;;
              loop <- desugar (indexLoop i x Body) breakTo continueTo userLabel ;;
              ret (BlockStmt [init; loop])
          | _, _ =>
              let keySliceType := GoTypes.NewSlice keyType in
              keys <- newVar (Some keySliceType) ;;
              k <- newVar (Some (GoTypes.Typ GoTypes.Int)) ;;
              let collectKeys := collectKeys keySliceType keys k x in
              mapKey <- match Key with
                        | None => newVar (Some keyType)
                        | Some key =>
                            if isUnderscore key then newVar (Some keyType)
                            else assertIdent key
                        end ;;
              mapValue <- match Value with
                          | Some v => assertIdent v
                          | None => ret (NewIdent "_")
                          end ;;
              ok <- newVar (Some (GoTypes.Typ GoTypes.Bool)) ;;
              iterKeys <- desugar
                (RangeStmt None (Some (Id mapKey)) DEFINE (Id keys)
                   [IfStmt
                      (Some (AssignStmt [Id mapValue; Id ok] DEFINE
                               [IndexExpr (Id x) (Id mapKey)]))
                      (Id ok) Body None])
                breakTo continueTo userLabel ;;
              ret (BlockStmt [init; collectKeys; iterKeys])
          end
      | _ => ret stmt
      end
  | SwitchStmt Init Tag Body =>
      init <- desugarNil desugar Init None None None ;;
      switchLabel <- newLabel ;;
      _ <- mapUserLabel userLabel switchLabel ;;
      Body <- desugarList desugar Body (Some switchLabel) continueTo ;;
      ret (wrapInit init (LabeledStmt switchLabel (SwitchStmt None Tag Body)))
  | TypeSwitchStmt Init Assign Body =>
      init <- desugarNil desugar Init None None None ;;
      switchLabel <- newLabel ;;
      _ <- mapUserLabel userLabel switchLabel ;;
      Assign <- desugar Assign None None None ;;
      Body <- desugarList desugar Body (Some switchLabel) continueTo ;;
      ret (wrapInit init
             (LabeledStmt switchLabel (TypeSwitchStmt None Assign Body)))
  | CaseClause List Body =>
      Body <- desugarList desugar Body breakTo continueTo ;;
      ret (CaseClause List Body)
  | BranchStmt Tok (Some Label) =>
      label <- getUserLabel Label ;;
      match label with
      | None => panic (PanicString ("label not found: " +:+ Name Label))
      | Some _ =>
          _ <- useLabel label ;;
          ret (BranchStmt Tok label)
      end
  | BranchStmt Tok None =>
      match Tok with
      | BREAK =>
          _ <- useLabel breakTo ;;
          ret (BranchStmt BREAK breakTo)
      | CONTINUE =>
          _ <- useLabel continueTo ;;
          ret (BranchStmt CONTINUE continueTo)
      | _ => panic (PanicString "not implemented")
      end
  | LabeledStmt Label Stmt_ =>
      desugar Stmt_ breakTo continueTo (Some Label)
  | SelectStmt _ | CommClause _ _ => panic (PanicString "not implemented")
  | AssignStmt _ _ _ | DeclStmt _ | DeferStmt _ _ | EmptyStmt | ExprStmt _
  | GoStmt _ _ | IncDecStmt _ _ | ReturnStmt _ | SendStmt _ _ => ret stmt
  | BadStmt => panic (PanicString "unsupported ast.Stmt: *ast.BadStmt")
  end.

(** The method [desugar], with a bound on the depth of its calls. *)
Fixpoint desugarer_desugar (fuel : nat) (stmt : Stmt)
    (breakTo continueTo userLabel : option Ident) {struct fuel} : M Stmt :=
  match fuel with
  | O => out_of_fuel
  | Datatypes.S fuel =>
      desugarer_desugar_body (desugarer_desugar fuel) stmt
        breakTo continueTo userLabel
  end.

Definition desugarer_desugarList (fuel : nat) (stmts : list Stmt)
    (breakTo continueTo : option Ident) : M (list Stmt) :=
  desugarList (desugarer_desugar fuel) stmts breakTo continueTo.

(** The two loops that the specification describes for a range over a map
    [X]: the first, a range statement, appends every key to [keys]; the
    second runs an index [i] over a copy [x2] of [keys], reads the key into
    [mapKey], looks it up again in the map [x] with the presence flag [ok],
    and runs [body] only when the key is still there. *)
Definition keyLoops (X : Expr) (keyType : GoTypes.Type_)
    (x keys k mapKey mapValue ok x2 i forLabel : Ident) (body : list Stmt) : Stmt :=
  BlockStmt [
    AssignStmt [Id x] DEFINE [X];
    BlockStmt [
      AssignStmt [Id keys] DEFINE
        [CallExpr (Id (NewIdent "make"))
           [typeExpr (GoTypes.Slice keyType); BasicLit INT "0";
            CallExpr (Id (NewIdent "len")) [Id x]]];
      RangeStmt (Some (Id k)) None DEFINE (Id x)
        [AssignStmt [Id keys] ASSIGN
           [CallExpr (Id (NewIdent "append")) [Id keys; Id k]]]
    ];
    BlockStmt [
      AssignStmt [Id x2] DEFINE [Id keys];
      BlockStmt [
        AssignStmt [Id i] DEFINE [BasicLit INT "0"];
        LabeledStmt forLabel
          (ForStmt None
             (Some (BinaryExpr (Id i) LSS (CallExpr (Id (NewIdent "len")) [Id x2])))
             (Some (IncDecStmt (Id i) INC))
             [AssignStmt [Id mapKey] DEFINE [IndexExpr (Id x2) (Id i)];
              BlockStmt [
                AssignStmt [Id mapValue; Id ok] DEFINE [IndexExpr (Id x) (Id mapKey)];
                IfStmt None (Id ok) body None
              ]])
      ]
    ]
  ].

(** The single counting loop of a range that binds nothing. *)
Definition countLoop (X : Expr) (x i forLabel : Ident) (body : list Stmt) : Stmt :=
  BlockStmt [
    AssignStmt [Id x] DEFINE [X];
    BlockStmt [
      AssignStmt [Id i] DEFINE [BasicLit INT "0"];
      LabeledStmt forLabel
        (ForStmt None
           (Some (BinaryExpr (Id i) LSS (CallExpr (Id (NewIdent "len")) [Id x])))
           (Some (IncDecStmt (Id i) INC))
           body)
    ]
  ].

(** The second pass of [desugar] takes the labels that are still unused
    out of the tree.  [deleteUnusedLabels] is the walk below a node that
    stays in the tree: a labeled child with an unused label is replaced by
    its statement, and the walk goes on below that statement.  The labels
    in question are nodes that the desugarer made, so none of them is
    inside a function literal, and the walk is over statements only. *)
Fixpoint deleteUnusedLabels (d : desugarer) (s : Stmt) {struct s} : Stmt :=
  let visit (s : Stmt) : Stmt :=
    match s with
    | LabeledStmt l body =>
        if isUnusedLabel d l then deleteUnusedLabels d body
        else deleteUnusedLabels d s
    | _ => deleteUnusedLabels d s
    end in
  let visitNil (o : option Stmt) : option Stmt :=
    match o with
    | Some s => Some (visit s)
    | None => None
    end in
  match s with
  | BlockStmt List => BlockStmt (visit <$> List)
  | IfStmt Init Cond Body Else =>
      IfStmt (visitNil Init) Cond (visit <$> Body) (visitNil Else)
  | ForStmt Init Cond Post Body =>
      ForStmt (visitNil Init) Cond (visitNil Post) (visit <$> Body)
  | RangeStmt Key Value Tok X Body => RangeStmt Key Value Tok X (visit <$> Body)
  | SwitchStmt Init Tag Body => SwitchStmt (visitNil Init) Tag (visit <$> Body)
  | TypeSwitchStmt Init Assign Body =>
      TypeSwitchStmt (visitNil Init) (visit Assign) (visit <$> Body)
  | CaseClause List Body => CaseClause List (visit <$> Body)
  | LabeledStmt Label Stmt_ => LabeledStmt Label (visit Stmt_)
  | SelectStmt Body => SelectStmt (visit <$> Body)
  | CommClause Comm Body => CommClause (visitNil Comm) (visit <$> Body)
  | _ => s
  end.

(** [desugar]: a new desugarer on [info], the first pass, then the second;
    the result of the second pass is not taken, so the root of the tree is
    the statement that the first pass returned.  The type information is
    shared with the caller and comes back updated. *)
Definition desugar (fuel : nat) (stmt : Stmt) (info : Info)
    : option (result (Stmt * Info)) :=
  let d := mkdesugarer info 0 0 ∅ [] in
  match desugarer_desugar fuel stmt None None None d with
  | None => None
  | Some (Panic p) => Some (Panic p)
  | Some (Ok (stmt, d)) => Some (Ok (deleteUnusedLabels d stmt, Desugar.info d))
  end.

End desugar.

(** The number of loops, [for] or [range], in a statement. *)
Fixpoint loops (s : Stmt) : nat :=
  let sum (l : list Stmt) : nat := foldr (λ s n, (loops s + n)%nat) 0%nat l in
  let nil (o : option Stmt) : nat :=
    match o with
    | Some s => loops s
    | None => 0%nat
    end in
  match s with
  | BlockStmt List => sum List
  | IfStmt Init _ Body Else => (nil Init + sum Body + nil Else)%nat
  | ForStmt Init _ Post Body => Datatypes.S (nil Init + nil Post + sum Body)
  | RangeStmt _ _ _ _ Body => Datatypes.S (sum Body)
  | SwitchStmt Init _ Body => (nil Init + sum Body)%nat
  | TypeSwitchStmt Init Assign Body => (nil Init + loops Assign + sum Body)%nat
  | CaseClause _ Body => sum Body
  | LabeledStmt _ Stmt_ => loops Stmt_
  | SelectStmt Body => sum Body
  | CommClause Comm Body => (nil Comm + sum Body)%nat
  | _ => 0%nat
  end.

(** A depth that is enough for [desugar] on a statement: one more than
    what its parts ask for, and four more for a range statement, which is
    rewritten into loops that are desugared in turn. *)
Fixpoint need (s : Stmt) : nat :=
  let most (l : list Stmt) : nat := foldr (λ s n, Nat.max (need s) n) 0%nat l in
  let nil (o : option Stmt) : nat :=
    match o with
    | Some s => need s
    | None => 0%nat
    end in
  match s with
  | BlockStmt List => Datatypes.S (most List)
  | IfStmt Init _ Body Else =>
      Datatypes.S (Nat.max (nil Init) (Nat.max (most Body) (nil Else)))
  | ForStmt Init _ Post Body =>
      Datatypes.S (Nat.max (nil Init) (Nat.max (most Body) (nil Post)))
  | RangeStmt _ _ _ _ Body => (4 + Nat.max 1 (most Body))%nat
  | SwitchStmt Init _ Body => Datatypes.S (Nat.max (nil Init) (most Body))
  | TypeSwitchStmt Init Assign Body =>
      Datatypes.S (Nat.max (nil Init) (Nat.max (need Assign) (most Body)))
  | CaseClause _ Body => Datatypes.S (most Body)
  | LabeledStmt _ Stmt_ => Datatypes.S (need Stmt_)
  | _ => 1%nat
  end.

Definition needList (l : list Stmt) : nat :=
  foldr (λ s n, Nat.max (need s) n) 0%nat l.

(** The name of the [n]-th variable and of the [n]-th label. *)
Definition genVar (n : nat) : Ident := NewIdent ("_v" +:+ Itoa n).
Definition genLabel (n : nat) : Ident := NewIdent ("_l" +:+ Itoa n).

(** A range clause whose key and value, when present, are identifiers. *)
Definition identOrNil (e : option Expr) : bool :=
  match e with
  | None => true
  | Some (Id _) => true
  | Some _ => false
  end.

(** The identifier that the second loop binds to the key, which is new
    when the range has no key or the blank one. *)
Definition namedKey (Key : option Expr) : option Ident :=
  match Key with
  | Some (Id key) => if bool_decide (Name key = "_") then None else Some key
  | _ => None
  end.

Definition namedValue (Value : option Expr) : Ident :=
  match Value with
  | Some (Id v) => v
  | _ => NewIdent "_"
  end.

(** The outcome of a run with [f] applied to the value it returns. *)
Definition mapOut {A B} (f : A -> B) (r : option (result (A * desugarer)))
    : option (result (B * desugarer)) :=
  match r with
  | Some (Ok (a, d)) => Some (Ok (f a, d))
  | Some (Panic p) => Some (Panic p)
  | None => None
  end.

(** The form of a statement that the method [desugar] returns: no [if],
    [for] or [switch] has an initializer, every [for] and every [switch]
    stands under a label, and a label stands over nothing else.  A range
    statement is a statement that was left as it was, and is not
    entered. *)
Fixpoint desugared (s : Stmt) : bool :=
  let all (l : list Stmt) : bool := forallb desugared l in
  let nil (o : option Stmt) : bool :=
    match o with
    | Some s => desugared s
    | None => true
    end in
  match s with
  | BlockStmt List => all List
  | IfStmt None _ Body Else => all Body && nil Else
  | LabeledStmt _ (ForStmt None _ Post Body) => nil Post && all Body
  | LabeledStmt _ (SwitchStmt None _ Body) => all Body
  | LabeledStmt _ (TypeSwitchStmt None Assign Body) => desugared Assign && all Body
  | CaseClause _ Body => all Body
  | IfStmt (Some _) _ _ _ | ForStmt _ _ _ _ | SwitchStmt _ _ _
  | TypeSwitchStmt _ _ _ | LabeledStmt _ _ => false
  | SelectStmt _ | CommClause _ _ | BadStmt => false
  | RangeStmt _ _ _ _ _ | BranchStmt _ _ | AssignStmt _ _ _ | DeclStmt _
  | DeferStmt _ _ | EmptyStmt | ExprStmt _ | GoStmt _ _ | IncDecStmt _ _
  | ReturnStmt _ | SendStmt _ _ => true
  end.

(** What the second pass leaves in the place of a child [s] of a node
    that stays in the tree: the local function of [deleteUnusedLabels]. *)
Definition visit (d : desugarer) (s : Stmt) : Stmt :=
  match s with
  | LabeledStmt l body =>
      if isUnusedLabel d l then deleteUnusedLabels d body
      else deleteUnusedLabels d s
  | _ => deleteUnusedLabels d s
  end.

(** No labeled statement of [s] has a label that the desugarer holds as
    unused.  As for [desugared], a range statement is not entered. *)
Fixpoint noUnusedLabel (d : desugarer) (s : Stmt) : bool :=
  let all (l : list Stmt) : bool := forallb (noUnusedLabel d) l in
  let nil (o : option Stmt) : bool :=
    match o with
    | Some s => noUnusedLabel d s
    | None => true
    end in
  match s with
  | BlockStmt List => all List
  | IfStmt Init _ Body Else => nil Init && all Body && nil Else
  | ForStmt Init _ Post Body => nil Init && nil Post && all Body
  | SwitchStmt Init _ Body => nil Init && all Body
  | TypeSwitchStmt Init Assign Body =>
      nil Init && noUnusedLabel d Assign && all Body
  | CaseClause _ Body => all Body
  | LabeledStmt l s => negb (isUnusedLabel d l) && noUnusedLabel d s
  | SelectStmt Body => all Body
  | CommClause Comm Body => nil Comm && all Body
  | RangeStmt _ _ _ _ _ | BranchStmt _ _ | AssignStmt _ _ _ | DeclStmt _
  | DeferStmt _ _ | EmptyStmt | ExprStmt _ | GoStmt _ _ | IncDecStmt _ _
  | ReturnStmt _ | SendStmt _ _ | BadStmt => true
  end.

(** What a run of the desugarer may do to its state: the two counters do
    not go down; of the type information, [Types] and [Uses] are kept and
    [Defs] changes only at the variables made in between; and a label
    that is unused afterwards was unused before or was made in between. *)
Record extends (d d' : desugarer) : Prop := mk_extends {
  ext_vars : (vars d ≤ vars d')%nat;
  ext_labels : (labels d ≤ labels d')%nat;
  ext_Types : Types (info d') = Types (info d);
  ext_Uses : Uses (info d') = Uses (info d);
  ext_Defs : ∀ id : Ident,
    (∀ i : nat, (vars d ≤ i < vars d')%nat → id ≠ genVar i) →
    Defs (info d') !! id = Defs (info d) !! id;
  ext_unused : ∀ l : Ident, l ∈ unusedLabels d' →
    l ∈ unusedLabels d ∨ ∃ i : nat, (labels d ≤ i < labels d')%nat ∧ l = genLabel i;
}.

(** The two ways in which [desugar] tells the type of the operand of a
    range statement apart: arrays and slices, and what is neither array,
    slice nor map.  The switch is on the type itself, so a named type is
    not seen as its underlying type. *)
Definition sliceOrArray (t : GoTypes.Type_) : bool :=
  match t with
  | GoTypes.Array _ _ | GoTypes.Slice _ => true
  | _ => false
  end.

Definition rangeLeft (t : option GoTypes.Type_) : bool :=
  match t with
  | Some (GoTypes.Array _ _) | Some (GoTypes.Slice _) | Some (GoTypes.Map _ _) => false
  | _ => true
  end.

(** The state after [useLabel]. *)
Definition afterUse (label : option Ident) (d : desugarer) : desugarer :=
  match label with
  | Some l =>
      mkdesugarer (info d) (vars d) (labels d) (unusedLabels d ∖ {[l]})
        (userLabels d)
  | None => d
  end.

(** The state after [addUserLabel]. *)
Definition afterUserLabel (userLabel replacement : Ident) (d : desugarer)
    : desugarer :=
  mkdesugarer (info d) (vars d) (labels d) (unusedLabels d)
    ((ObjectOf (info d) userLabel, replacement) :: userLabels d).

(** A loop over a map [m] from strings to integers, calling [f]. *)
Definition example_typeExpr (t : GoTypes.Type_) : Expr := OtherExpr 0 [].

Definition example_m : Ident := mkIdent 10 "m".

Definition example_info : Info :=
  mkInfo
    (λ e, match e with
          | Id i =>
              if decide (i = example_m)
              then Some (GoTypes.Map (GoTypes.Basic GoTypes.String)
                           (GoTypes.Basic GoTypes.Int))
              else None
          | _ => None
          end) ∅ ∅.

Definition example_desugarer : desugarer := mkdesugarer example_info 0 0 ∅ [].

Definition example_body : list Stmt :=
  [ExprStmt (CallExpr (Id (mkIdent 30 "f"))
               [Id (mkIdent 31 "k"); Id (mkIdent 32 "v")])].

(** [for k, v := range m { f(k, v) }] *)
Definition example_range : Stmt :=
  RangeStmt (Some (Id (mkIdent 20 "k"))) (Some (Id (mkIdent 21 "v"))) DEFINE
    (Id example_m) example_body.

(** [for range m { f(k, v) }] *)
Definition example_range_bare : Stmt :=
  RangeStmt None None DEFINE (Id example_m) example_body.

(** A slice [xs] of integers, a value [ys] of the named type
    [type Ints []int], and the ranges [for i, v := range xs { f(k, v) }]
    and [for i, v := range ys { f(k, v) }]. *)
Definition example_xs : Ident := mkIdent 11 "xs".
Definition example_ys : Ident := mkIdent 12 "ys".

Definition example_slices_info : Info :=
  mkInfo
    (λ e, match e with
          | Id i =>
              if decide (i = example_xs)
              then Some (GoTypes.Slice (GoTypes.Basic GoTypes.Int))
              else if decide (i = example_ys)
              then Some (GoTypes.Named "Ints" (GoTypes.Slice (GoTypes.Basic GoTypes.Int)))
              else None
          | _ => None
          end) ∅ ∅.

Definition example_slices_desugarer : desugarer :=
  mkdesugarer example_slices_info 0 0 ∅ [].

Definition example_range_over (x : Ident) : Stmt :=
  RangeStmt (Some (Id (mkIdent 20 "i"))) (Some (Id (mkIdent 21 "v"))) DEFINE
    (Id x) example_body.

(** The desugarer after [newVar t]. *)
Definition afterVar (t : option GoTypes.Type_) (d : desugarer) : desugarer :=
  mkdesugarer
    (set_Defs (info d) (genVar (vars d))
       (GoTypes.NewVar 0 None (Name (genVar (vars d))) t))
    (Datatypes.S (vars d)) (labels d) (unusedLabels d) (userLabels d).

End Desugar.

(** ** The function compiler (package compiler) *)

Module Compile.
Import Ast.

(** [*packages.Package]: its name and the path of its [Types]; its
    [TypesInfo] is written by the passes and is part of the state. *)
Record Package : Type := mkPackage { PackageName : string; PackageTypes : string }.

(** The [scope] of a function declaration, together with what else the
    compilation of a body writes: the type information of the package and
    the identifier [defers] of the body that is being walked. *)
Record scope : Type := mkscope {
  colors : gmap NodeId GoTypes.Signature;
  objectIndex : nat;
  frameIndex : nat;
  TypesInfo : Info;
  defers : option Ident;
}.

Definition C (A : Type) : Type := @ST scope A.

Definition set_colors (f : gmap NodeId GoTypes.Signature -> gmap NodeId GoTypes.Signature)
    (s : scope) : scope :=
  mkscope (f (colors s)) (objectIndex s) (frameIndex s) (TypesInfo s) (defers s).
Definition set_frameIndex (n : nat) (s : scope) : scope :=
  mkscope (colors s) (objectIndex s) n (TypesInfo s) (defers s).
Definition set_TypesInfo (i : Info) (s : scope) : scope :=
  mkscope (colors s) (objectIndex s) (frameIndex s) i (defers s).
Definition set_defers (d : option Ident) (s : scope) : scope :=
  mkscope (colors s) (objectIndex s) (frameIndex s) (TypesInfo s) d.

(** This function returns true if a function body is composed of at most
    one expression. *)
Definition isExpr (body : list Stmt) : bool :=
  match body with
  | [] => true
  | [ExprStmt _] => true
  | _ => false
  end.

Definition funcTypeWithNamedResults (t : FuncType) : FuncType :=
  match t with
  | mkFuncType _ None => t
  | mkFuncType params (Some results) =>
      let underscore := NewIdent "_" in
      mkFuncType params
        (Some ((λ f, match f with
                     | mkField [] typ => mkField [underscore] typ
                     | _ => f
                     end) <$> results))
  end.

(** The node that the compiler makes from a function node. *)
Definition compiledNode (n : NodeId) : NodeId :=
  match n with
  | Parsed pos => Compiled pos
  | _ => n
  end.

(** [tuple.At(0).Type()], which panics on an empty tuple. *)
Definition At0 (tuple : list GoTypes.Type_) : C GoTypes.Type_ :=
  match tuple with
  | t :: _ => ret t
  | [] => panic (PanicRuntime "index out of range")
  end.

(** The name of the last field of the frame struct. *)
Definition lastFieldName (fields : list Field) : C Ident :=
  match last fields with
  | Some (mkField (name :: _) _) => ret name
  | _ => panic (PanicRuntime "index out of range")
  end.

(** *** The walk that replaces function literals and defer statements *)

Section walk.

(** [scope.compileFuncLit(p, n, color)] for the package at hand. *)
Context (compileFuncLit : NodeId -> FuncType -> list Stmt -> GoTypes.Signature -> C Expr).
Context (p : Package).

(** The callback on a function literal: a colored one is compiled, and
    the walk does not enter a function literal. *)
Definition visitFuncLit (node : NodeId) (typ : FuncType) (body : list Stmt) : C Expr :=
  cs <- gets colors ;;
  match cs !! node with
  | Some color => compileFuncLit node typ body color
  | None => ret (FuncLit node typ body)
  end.

(** The callback on a defer statement makes [_defers] at the first one;
    the statement becomes an append of the deferred function to it. *)
Definition defersIdent : C Ident :=
  ds <- gets defers ;;
  match ds with
  | Some ds => ret ds
  | None =>
      let ds := NewIdent "_defers" in
      _ <- modify (λ s,
             set_defers (Some ds)
               (set_TypesInfo
                  (set_Defs (TypesInfo s) ds
                     (GoTypes.NewVar 0 (Some (PackageTypes p)) (Name ds)
                        (Some (GoTypes.NewSlice GoTypes.EmptySignature))))
                  s)) ;;
      ret ds
  end.

Fixpoint walkExpr (e : Expr) : C Expr :=
  match e with
  | Id _ | BasicLit _ _ => ret e
  | CallExpr Fun Args =>
      Fun <- walkExpr Fun ;; Args <- mapM walkExpr Args ;; ret (CallExpr Fun Args)
  | IndexExpr X Index =>
      X <- walkExpr X ;; Index <- walkExpr Index ;; ret (IndexExpr X Index)
  | IndexListExpr X Indices =>
      X <- walkExpr X ;; Indices <- mapM walkExpr Indices ;;
      ret (IndexListExpr X Indices)
  | BinaryExpr X Op Y =>
      X <- walkExpr X ;; Y <- walkExpr Y ;; ret (BinaryExpr X Op Y)
  | UnaryExpr Op X => X <- walkExpr X ;; ret (UnaryExpr Op X)
  | SelectorExpr X Sel => X <- walkExpr X ;; ret (SelectorExpr X Sel)
  | StarExpr X => X <- walkExpr X ;; ret (StarExpr X)
  | FuncLit node typ body => visitFuncLit node typ body
  | StructType Fields => Fields <- mapM walkField Fields ;; ret (StructType Fields)
  | CompositeLit Type_ Elts =>
      Type_ <- match Type_ with
               | Some t => t <- walkExpr t ;; ret (Some t)
               | None => ret None
               end ;;
      Elts <- mapM walkExpr Elts ;;
      ret (CompositeLit Type_ Elts)
  | KeyValueExpr Key Value =>
      Key <- walkExpr Key ;; Value <- walkExpr Value ;; ret (KeyValueExpr Key Value)
  | OtherExpr n operands =>
      operands <- mapM walkExpr operands ;; ret (OtherExpr n operands)
  end
with walkField (f : Field) : C Field :=
  match f with
  | mkField Names Type_ => Type_ <- walkExpr Type_ ;; ret (mkField Names Type_)
  end.

Definition walkExprNil (e : option Expr) : C (option Expr) :=
  match e with
  | Some e => e <- walkExpr e ;; ret (Some e)
  | None => ret None
  end.

Definition walkSpec (s : Spec) : C Spec :=
  match s with
  | ImportSpec Name Path => Path <- walkExpr Path ;; ret (ImportSpec Name Path)
  | ValueSpec Names Type_ Values =>
      Type_ <- walkExprNil Type_ ;; Values <- mapM walkExpr Values ;;
      ret (ValueSpec Names Type_ Values)
  | TypeSpec Name Type_ => Type_ <- walkExpr Type_ ;; ret (TypeSpec Name Type_)
  end.

Fixpoint walkStmt (s : Stmt) : C Stmt :=
  let walkNil (o : option Stmt) : C (option Stmt) :=
    match o with
    | Some s => s <- walkStmt s ;; ret (Some s)
    | None => ret None
    end in
  match s with
  | BadStmt | EmptyStmt | BranchStmt _ _ => ret s
  | BlockStmt List => List <- mapM walkStmt List ;; ret (BlockStmt List)
  | IfStmt Init Cond Body Else =>
      Init <- walkNil Init ;; Cond <- walkExpr Cond ;;
      Body <- mapM walkStmt Body ;; Else <- walkNil Else ;;
      ret (IfStmt Init Cond Body Else)
  | ForStmt Init Cond Post Body =>
      Init <- walkNil Init ;; Cond <- walkExprNil Cond ;;
      Post <- walkNil Post ;; Body <- mapM walkStmt Body ;;
      ret (ForStmt Init Cond Post Body)
  | RangeStmt Key Value Tok X Body =>
      Key <- walkExprNil Key ;; Value <- walkExprNil Value ;;
      X <- walkExpr X ;; Body <- mapM walkStmt Body ;;
      ret (RangeStmt Key Value Tok X Body)
  | SwitchStmt Init Tag Body =>
      Init <- walkNil Init ;; Tag <- walkExprNil Tag ;;
      Body <- mapM walkStmt Body ;;
      ret (SwitchStmt Init Tag Body)
  | TypeSwitchStmt Init Assign Body =>
      Init <- walkNil Init ;; Assign <- walkStmt Assign ;;
      Body <- mapM walkStmt Body ;;
      ret (TypeSwitchStmt Init Assign Body)
  | CaseClause List Body =>
      List <- mapM walkExpr List ;; Body <- mapM walkStmt Body ;;
      ret (CaseClause List Body)
  | LabeledStmt Label Stmt_ => Stmt_ <- walkStmt Stmt_ ;; ret (LabeledStmt Label Stmt_)
  | SelectStmt Body => Body <- mapM walkStmt Body ;; ret (SelectStmt Body)
  | CommClause Comm Body =>
      Comm <- walkNil Comm ;; Body <- mapM walkStmt Body ;; ret (CommClause Comm Body)
  | AssignStmt Lhs Tok Rhs =>
      Lhs <- mapM walkExpr Lhs ;; Rhs <- mapM walkExpr Rhs ;;
      ret (AssignStmt Lhs Tok Rhs)
  | DeclStmt (GenDecl Tok Specs) =>
      Specs <- mapM walkSpec Specs ;; ret (DeclStmt (GenDecl Tok Specs))
  | DeclStmt (FuncDecl _ _ _ _ _ _) => ret s
  | DeferStmt Fun Args =>
      (* The assignment is built from the function of the call, and then
         the walk goes on below the defer statement, which is no longer in
         the tree.  What the walk replaces inside the function shows in
         the assignment; a literal that is the deferred function itself
         is compiled, but the assignment keeps the literal. *)
      ds <- defersIdent ;;
      Fun' <- walkExpr Fun ;;
      _ <- mapM walkExpr Args ;;
      let kept := match Fun with
                  | FuncLit _ _ _ => Fun
                  | _ => Fun'
                  end in
      ret (AssignStmt [Id ds] ASSIGN
             [CallExpr (Id (NewIdent "append")) [Id ds; kept]])
  | ExprStmt X => X <- walkExpr X ;; ret (ExprStmt X)
  | GoStmt Fun Args =>
      Fun <- walkExpr Fun ;; Args <- mapM walkExpr Args ;; ret (GoStmt Fun Args)
  | IncDecStmt X Tok => X <- walkExpr X ;; ret (IncDecStmt X Tok)
  | ReturnStmt Results => Results <- mapM walkExpr Results ;; ret (ReturnStmt Results)
  | SendStmt Chan Value =>
      Chan <- walkExpr Chan ;; Value <- walkExpr Value ;; ret (SendStmt Chan Value)
  end.

End walk.

(** Whether the walk over [e] meets a function literal that is colored. *)
Fixpoint coloredLit (cs : gmap NodeId GoTypes.Signature) (e : Expr) : bool :=
  match e with
  | Id _ | BasicLit _ _ => false
  | CallExpr Fun Args => coloredLit cs Fun || existsb (coloredLit cs) Args
  | IndexExpr X Index => coloredLit cs X || coloredLit cs Index
  | IndexListExpr X Indices => coloredLit cs X || existsb (coloredLit cs) Indices
  | BinaryExpr X _ Y => coloredLit cs X || coloredLit cs Y
  | UnaryExpr _ X => coloredLit cs X
  | SelectorExpr X _ => coloredLit cs X
  | StarExpr X => coloredLit cs X
  | FuncLit node _ _ => bool_decide (is_Some (cs !! node))
  | StructType Fields => existsb (coloredLitField cs) Fields
  | CompositeLit Type_ Elts =>
      match Type_ with
      | Some t => coloredLit cs t
      | None => false
      end || existsb (coloredLit cs) Elts
  | KeyValueExpr Key Value => coloredLit cs Key || coloredLit cs Value
  | OtherExpr _ operands => existsb (coloredLit cs) operands
  end
with coloredLitField (cs : gmap NodeId GoTypes.Signature) (f : Field) : bool :=
  match f with
  | mkField _ Type_ => coloredLit cs Type_
  end.

(** *** The compilation of a function body *)

Section compile.

(** The passes that are outside these sources.  Each stands for the
    function from what the pass reads to what it builds or rewrites:
    [typeExpr] writes a type as an expression, [findCalls] finds the calls
    that may yield and [markBranchStmt] adds branch statements to them,
    [renameFuncRecvParamsResults] and [renameObjects] rewrite the body,
    [extractDecls] returns the declarations, the fields of the frame
    struct and the frame initializer, [trackDispatchSpans] and
    [compileDispatch] build the dispatch. *)
Context (typeExpr : Package -> GoTypes.Type_ -> Expr).
Context {MayYield Spans : Type}.
Context (findCalls : list Stmt -> Info -> MayYield).
Context (markBranchStmt : list Stmt -> MayYield -> MayYield).
Context (renameFuncRecvParamsResults :
  FuncType -> option (list Field) -> list Stmt -> Info -> FuncType * list Stmt).
Context (extractDecls :
  Package -> FuncType -> list Stmt -> option (list Field) -> option Ident -> Info ->
  list Decl * list Field * Expr).
Context (renameObjects :
  list Stmt -> Info -> list Decl -> Ident -> list Field -> Expr -> list Stmt).
Context (trackDispatchSpans : list Stmt -> Spans).
Context (compileDispatch : list Stmt -> Ident -> Spans -> MayYield -> Stmt).
(** The path of the coroutine package, [scope.compiler.coroutinePkg]. *)
Context (coroutinePkg : string).

(** [desugar(p, body, mayYield)], asserted to be a block: the call site passes the
    package and the calls that may yield; the desugarer of these sources
    works on the statement and the type information of the package. *)
Definition desugarBody (fuel : nat) (p : Package) (body : list Stmt)
    (mayYield : MayYield) : C (list Stmt) :=
  λ s,
    match Desugar.desugar (typeExpr p) fuel (BlockStmt body) (TypesInfo s) with
    | None => None
    | Some (Panic q) => Some (Panic q)
    | Some (Ok (BlockStmt List, info)) => Some (Ok (List, set_TypesInfo info s))
    | Some (Ok (_, _)) =>
        Some (Panic (PanicRuntime "interface conversion: ast.Stmt is not *ast.BlockStmt"))
    end.

Definition compileFuncLit_body
    (compileFuncBody :
       Package -> FuncType -> list Stmt -> option (list Field) ->
       GoTypes.Signature -> C (list Stmt))
    (p : Package) (node : NodeId) (typ : FuncType) (body : list Stmt)
    (color : GoTypes.Signature) : C Expr :=
  let Type_ := funcTypeWithNamedResults typ in
  Body <- compileFuncBody p typ body None color ;;
  let gen := compiledNode node in
  _ <- (if negb (isExpr Body)
        then modify (set_colors (λ cs, <[gen := color]> cs))
        else ret tt) ;;
  ret (FuncLit gen Type_ Body).

(** The statements that [compileFuncBody] puts in front of the dispatch:
    the load of the context, the push of the frame, the declarations, the
    initialization of a new frame and the deferred pop. *)
Definition prologue (ctx coroutineIdent frameName : Ident)
    (yieldTypeExpr : list Expr) (decls : list Decl) (frameType : list Field)
    (frameInit : Expr) (popFrame : list Stmt) : list Stmt :=
  [AssignStmt [Id ctx] DEFINE
     [CallExpr
        (IndexListExpr
           (SelectorExpr (Id coroutineIdent) (NewIdent "LoadContext"))
           yieldTypeExpr) []];
   DeclStmt (GenDecl VAR
     [ValueSpec [frameName] (Some (StarExpr (StructType frameType)))
        [CallExpr
           (IndexListExpr (SelectorExpr (Id coroutineIdent) (NewIdent "Push"))
              [StructType frameType])
           [UnaryExpr AND (SelectorExpr (Id ctx) (NewIdent "Stack"))]]])]
  ++ (DeclStmt <$> decls)
  ++ [IfStmt None
        (BinaryExpr (SelectorExpr (Id frameName) (NewIdent "IP")) EQL
           (BasicLit INT "0"))
        [AssignStmt [StarExpr (Id frameName)] ASSIGN [frameInit]] None;
      DeferStmt
        (FuncLit Synthetic (mkFuncType [] None)
           [IfStmt None
              (UnaryExpr NOT
                 (CallExpr (SelectorExpr (Id ctx) (NewIdent "Unwinding")) []))
              popFrame None])
        []].

Definition compileFuncBody_body
    (compileFuncBody :
       Package -> FuncType -> list Stmt -> option (list Field) ->
       GoTypes.Signature -> C (list Stmt))
    (fuel : nat)
    (p : Package) (typ : FuncType) (body : list Stmt) (recv : option (list Field))
    (color : GoTypes.Signature) : C (list Stmt) :=
  (* var defers *ast.Ident, of this call *)
  outer <- gets defers ;;
  _ <- modify (set_defers None) ;;
  mayYield <- gets (λ s, findCalls body (TypesInfo s)) ;;
  let mayYield := markBranchStmt body mayYield in
  body <- desugarBody fuel p body mayYield ;;
  body <- mapM (walkStmt (compileFuncLit_body compileFuncBody p) p) body ;;
  defers_ <- gets defers ;;
  _ <- modify (set_defers outer) ;;
  if isExpr body then ret body
  else
    let ctx := NewIdent "_c" in
    t0 <- At0 (GoTypes.Params color) ;;
    t1 <- At0 (GoTypes.Results color) ;;
    let yieldTypeExpr := [typeExpr p t0; typeExpr p t1] in
    let coroutineIdent := NewIdent "coroutine" in
    _ <- modify (λ s,
           set_TypesInfo
             (set_Uses (TypesInfo s) coroutineIdent
                (GoTypes.PkgName 0 "coroutine" coroutinePkg)) s) ;;
    frameIndex_ <- gets frameIndex ;;
    let frameName := NewIdent ("_f" +:+ Desugar.Itoa frameIndex_) in
    _ <- modify (set_frameIndex (Datatypes.S frameIndex_)) ;;
    info <- gets TypesInfo ;;
    let '(typ, body) := renameFuncRecvParamsResults typ recv body info in
    let '(decls, frameType, frameInit) :=
      extractDecls p typ body recv defers_ info in
    let body := renameObjects body info decls frameName frameType frameInit in
    let popExpr :=
      CallExpr (SelectorExpr (Id coroutineIdent) (NewIdent "Pop"))
        [UnaryExpr AND (SelectorExpr (Id ctx) (NewIdent "Stack"))] in
    popFrame <-
      match defers_ with
      | None => ret [ExprStmt popExpr]
      | Some _ =>
          last <- lastFieldName frameType ;;
          ret [DeferStmt (SelectorExpr (Id coroutineIdent) (NewIdent "Pop"))
                 [UnaryExpr AND (SelectorExpr (Id ctx) (NewIdent "Stack"))];
               RangeStmt (Some (Id (NewIdent "_"))) (Some (Id (NewIdent "f"))) DEFINE
                 (SelectorExpr (Id frameName) last)
                 [DeferStmt (Id (NewIdent "f")) []]]
      end ;;
    let gen :=
      prologue ctx coroutineIdent frameName yieldTypeExpr decls frameType
        frameInit popFrame in
    let spans := trackDispatchSpans body in
    info <- gets TypesInfo ;;
    let mayYield := findCalls body info in
    compiledBody <-
      match compileDispatch body frameName spans mayYield with
      | BlockStmt List => ret List
      | _ => panic (PanicRuntime "interface conversion: ast.Stmt is not *ast.BlockStmt")
      end ;;
    let gen := gen ++ compiledBody in
    let needsReturn :=
      match typ with
      | mkFuncType _ (Some (_ :: _)) =>
          match last gen with
          | Some (ReturnStmt _) => false
          | _ => true
          end
      | _ => false
      end in
    ret (if needsReturn then gen ++ [ReturnStmt []] else gen).

(** [compileFuncBody], with a bound on the depth of function literals in
    function literals, which also bounds the desugarer. *)
Fixpoint compileFuncBody (fuel : nat) (p : Package) (typ : FuncType)
    (body : list Stmt) (recv : option (list Field)) (color : GoTypes.Signature)
    {struct fuel} : C (list Stmt) :=
  match fuel with
  | O => out_of_fuel
  | Datatypes.S fuel' =>
      compileFuncBody_body (compileFuncBody fuel') fuel p typ body recv color
  end.

Definition compileFuncLit (fuel : nat) (p : Package) (node : NodeId)
    (typ : FuncType) (body : list Stmt) (color : GoTypes.Signature) : C Expr :=
  compileFuncLit_body (compileFuncBody fuel) p node typ body color.

(** [compileFuncDecl]; the comments of the declaration are its lines. *)
Definition compileFuncDecl (fuel : nat) (p : Package) (fn : Decl)
    (color : GoTypes.Signature) : C Decl :=
  match fn with
  | FuncDecl node Doc Recv Name Type_ (Some Body) =>
      let fnType := funcTypeWithNamedResults Type_ in
      Body <- compileFuncBody fuel p fnType Body Recv color ;;
      let gen := compiledNode node in
      let Doc := Doc ++ ["//go:noinline"] in
      _ <- (if negb (isExpr Body)
            then modify (set_colors (λ cs, <[gen := color]> cs))
            else ret tt) ;;
      ret (FuncDecl gen Doc Recv Name fnType (Some Body))
  | _ => panic (PanicRuntime "invalid memory address or nil pointer dereference")
  end.

End compile.

(** *** The import synthesizer *)

(** The operands [X] of the selector expressions [X.Sel] below a node, in
    the order in which [ast.Inspect] comes to them. *)
Fixpoint selectorsExpr (e : Expr) : list Expr :=
  match e with
  | Id _ | BasicLit _ _ => []
  | CallExpr Fun Args => selectorsExpr Fun ++ flat_map selectorsExpr Args
  | IndexExpr X Index => selectorsExpr X ++ selectorsExpr Index
  | IndexListExpr X Indices => selectorsExpr X ++ flat_map selectorsExpr Indices
  | BinaryExpr X _ Y => selectorsExpr X ++ selectorsExpr Y
  | UnaryExpr _ X => selectorsExpr X
  | SelectorExpr X _ => X :: selectorsExpr X
  | StarExpr X => selectorsExpr X
  | FuncLit _ Type_ Body => selectorsFuncType Type_ ++ flat_map selectorsStmt Body
  | StructType Fields => flat_map selectorsField Fields
  | CompositeLit Type_ Elts =>
      match Type_ with
      | Some t => selectorsExpr t
      | None => []
      end ++ flat_map selectorsExpr Elts
  | KeyValueExpr Key Value => selectorsExpr Key ++ selectorsExpr Value
  | OtherExpr _ operands => flat_map selectorsExpr operands
  end
with selectorsFuncType (t : FuncType) : list Expr :=
  match t with
  | mkFuncType Params Results =>
      flat_map selectorsField Params ++
      match Results with
      | Some Results => flat_map selectorsField Results
      | None => []
      end
  end
with selectorsField (f : Field) : list Expr :=
  match f with
  | mkField _ Type_ => selectorsExpr Type_
  end
with selectorsStmt (s : Stmt) : list Expr :=
  let nil (o : option Stmt) : list Expr :=
    match o with
    | Some s => selectorsStmt s
    | None => []
    end in
  let nilExpr (o : option Expr) : list Expr :=
    match o with
    | Some e => selectorsExpr e
    | None => []
    end in
  match s with
  | BadStmt | EmptyStmt | BranchStmt _ _ => []
  | BlockStmt List => flat_map selectorsStmt List
  | IfStmt Init Cond Body Else =>
      nil Init ++ selectorsExpr Cond ++ flat_map selectorsStmt Body ++ nil Else
  | ForStmt Init Cond Post Body =>
      nil Init ++ nilExpr Cond ++ nil Post ++ flat_map selectorsStmt Body
  | RangeStmt Key Value _ X Body =>
      nilExpr Key ++ nilExpr Value ++ selectorsExpr X ++ flat_map selectorsStmt Body
  | SwitchStmt Init Tag Body =>
      nil Init ++ nilExpr Tag ++ flat_map selectorsStmt Body
  | TypeSwitchStmt Init Assign Body =>
      nil Init ++ selectorsStmt Assign ++ flat_map selectorsStmt Body
  | CaseClause List Body => flat_map selectorsExpr List ++ flat_map selectorsStmt Body
  | LabeledStmt _ Stmt_ => selectorsStmt Stmt_
  | SelectStmt Body => flat_map selectorsStmt Body
  | CommClause Comm Body => nil Comm ++ flat_map selectorsStmt Body
  | AssignStmt Lhs _ Rhs => flat_map selectorsExpr Lhs ++ flat_map selectorsExpr Rhs
  | DeclStmt Decl_ => selectorsDecl Decl_
  | DeferStmt Fun Args | GoStmt Fun Args =>
      selectorsExpr Fun ++ flat_map selectorsExpr Args
  | ExprStmt X | IncDecStmt X _ => selectorsExpr X
  | ReturnStmt Results => flat_map selectorsExpr Results
  | SendStmt Chan Value => selectorsExpr Chan ++ selectorsExpr Value
  end
with selectorsDecl (d : Decl) : list Expr :=
  match d with
  | GenDecl _ Specs => flat_map selectorsSpec Specs
  | FuncDecl _ _ Recv _ Type_ Body =>
      match Recv with
      | Some Recv => flat_map selectorsField Recv
      | None => []
      end ++ selectorsFuncType Type_ ++
      match Body with
      | Some Body => flat_map selectorsStmt Body
      | None => []
      end
  end
with selectorsSpec (s : Spec) : list Expr :=
  match s with
  | ImportSpec _ Path => selectorsExpr Path
  | ValueSpec _ Type_ Values =>
      match Type_ with
      | Some t => selectorsExpr t
      | None => []
      end ++ flat_map selectorsExpr Values
  | TypeSpec _ Type_ => selectorsExpr Type_
  end.

Definition selectorsFile (gen : File) : list Expr :=
  flat_map selectorsDecl (Decls gen).

(** [strings.TrimPrefix]. *)
Definition TrimPrefix (s prefix : string) : string :=
  if String.prefix prefix s
  then String.substring (String.length prefix)
         (String.length s - String.length prefix) s
  else s.

(** The local name and the module path that a selector operand binds:
    the operand is an identifier with a name, it denotes an imported
    package, and the path of that package, not empty, is taken without a
    leading [vendor/]. *)
Definition importBinding (info : Info) (X : Expr) : option (string * string) :=
  match X with
  | Id ident =>
      if bool_decide (Name ident = String.EmptyString) then None
      else
        match ObjectOf info ident with
        | Some (GoTypes.PkgName _ _ imported) =>
            if bool_decide (imported = String.EmptyString) then None
            else Some (Name ident, TrimPrefix imported "vendor/")
        | _ => None
        end
  | _ => None
  end.

(** The callback of the inspection, over the selector operands in order:
    [imports] maps a local name to the path bound to it. *)
Fixpoint collectImports (info : Info) (imports : gmap string string)
    (xs : list Expr) : result (gmap string string) :=
  match xs with
  | [] => Ok imports
  | x :: xs =>
      match importBinding info x with
      | None => collectImports info imports xs
      | Some (name, pkg) =>
          match imports !! name with
          | Some existing =>
              if bool_decide (existing ≠ pkg)
              then Panic (PanicString "conflicting imports")
              else collectImports info (<[name := pkg]> imports) xs
          | None => collectImports info (<[name := pkg]> imports) xs
          end
      end
  end.

(** [strconv.Quote], for a path without characters to escape. *)
Definition dquote : Ascii.ascii :=
  Ascii.Ascii false true false false false true false false.

Definition Quote (s : string) : string :=
  String.String dquote (s +:+ String.String dquote String.EmptyString).

(** [addImports]; [info] is the type information of the package.  The
    order of the import specs is that of the iteration over the map. *)
Definition addImports (info : Info) (gen : File) : result File :=
  rbind (collectImports info ∅ (selectorsFile gen)) (λ imports,
    if bool_decide (size imports = 0%nat) then Ok gen
    else
      let importspecs :=
        (λ '(name, path),
           ImportSpec (Some (NewIdent name)) (BasicLit STRING (Quote path)))
        <$> map_to_list imports in
      Ok (mkFile (FileName gen) (GenDecl IMPORT importspecs :: Decls gen))).

(** The bindings that the synthesizer reads off a file. *)
Definition importBindings (info : Info) (gen : File) : list (string * string) :=
  omap (importBinding info) (selectorsFile gen).

(** Some binding of a local name in [bs] is to another path than one
    that [m] or [bs] has for the same name. *)
Definition conflicting (m : gmap string string) (bs : list (string * string)) : Prop :=
  ∃ name pkg1 pkg2, pkg1 ≠ pkg2 ∧ (name, pkg2) ∈ bs ∧
    (m !! name = Some pkg1 ∨ (name, pkg1) ∈ bs).

(** *** What the properties of the compiler speak of *)

Definition fieldNames (f : Field) : list Ident :=
  match f with mkField Names _ => Names end.

Definition fieldType (f : Field) : Expr :=
  match f with mkField _ Type_ => Type_ end.

Definition funcParams (t : FuncType) : list Field :=
  match t with mkFuncType Params _ => Params end.

Definition funcResults (t : FuncType) : option (list Field) :=
  match t with mkFuncType _ Results => Results end.

(** The import spec that [addImports] writes for a local name and a path. *)
Definition importSpec (binding : string * string) : Spec :=
  ImportSpec (Some (NewIdent binding.1)) (BasicLit STRING (Quote binding.2)).

(** Whether a defer statement is among the statements of [s], function
    literals and declared functions not entered. *)
Fixpoint hasDefer (s : Stmt) : bool :=
  let any (l : list Stmt) : bool := existsb hasDefer l in
  let nil (o : option Stmt) : bool :=
    match o with
    | Some s => hasDefer s
    | None => false
    end in
  match s with
  | DeferStmt _ _ => true
  | BlockStmt List => any List
  | IfStmt Init _ Body Else => nil Init || any Body || nil Else
  | ForStmt Init _ Post Body => nil Init || nil Post || any Body
  | RangeStmt _ _ _ _ Body => any Body
  | SwitchStmt Init _ Body => nil Init || any Body
  | TypeSwitchStmt Init Assign Body => nil Init || hasDefer Assign || any Body
  | CaseClause _ Body => any Body
  | LabeledStmt _ Stmt_ => hasDefer Stmt_
  | SelectStmt Body => any Body
  | CommClause Comm Body => nil Comm || any Body
  | _ => false
  end.

(** *** Files that select from packages *)

(** The file uses [coroutine] for a package of its own, and the compiled
    code in it uses [coroutine] for the coroutine package. *)
Definition example_imports_info : Info :=
  mkInfo (λ _, None) ∅
    {[ mkIdent 40 "coroutine" := GoTypes.PkgName 3 "coroutine" "example.com/other/coroutine";
       NewIdent "coroutine" := GoTypes.PkgName 0 "coroutine" "github.com/stealthrocket/coroutine";
       mkIdent 60 "fmt" := GoTypes.PkgName 4 "fmt" "vendor/fmt";
       mkIdent 61 "fmt" := GoTypes.PkgName 4 "fmt" "fmt" ]}.

Definition example_call (pkg : Ident) (sel : string) : Stmt :=
  ExprStmt (CallExpr (SelectorExpr (Id pkg) (NewIdent sel)) []).

Definition example_func (body : list Stmt) : Decl :=
  FuncDecl (Compiled 1) [] None (mkIdent 2 "run") (mkFuncType [] None) (Some body).

Definition example_conflict_file : File :=
  mkFile (NewIdent "main")
    [example_func [example_call (NewIdent "coroutine") "LoadContext";
                   example_call (mkIdent 40 "coroutine") "Yield"]].

Definition example_vendor_file : File :=
  mkFile (NewIdent "main")
    [example_func [example_call (mkIdent 60 "fmt") "Println";
                   example_call (mkIdent 61 "fmt") "Println"]].

(** *** A function whose body calls a colored function literal *)

Definition example_typeExpr (p : Package) (t : GoTypes.Type_) : Expr :=
  match t with
  | GoTypes.Basic GoTypes.Int => Id (NewIdent "int")
  | _ => OtherExpr 0 []
  end.

(** [compileFuncBody] with passes that declare nothing, rename nothing
    and keep the body as its own dispatch. *)
Definition example_compileFuncBody :
    nat -> Package -> FuncType -> list Stmt -> option (list Field) ->
    GoTypes.Signature -> C (list Stmt) :=
  compileFuncBody example_typeExpr (λ _ _, tt) (λ _ m, m)
    (λ typ _ body _, (typ, body))
    (λ _ _ _ _ _ _, ([], [], CompositeLit None []))
    (λ body _ _ _ _ _, body)
    (λ _, tt)
    (λ body _ _ _, BlockStmt body)
    "github.com/stealthrocket/coroutine".

Definition example_color : GoTypes.Signature :=
  GoTypes.mkSignature [GoTypes.Basic GoTypes.Int] [GoTypes.Basic GoTypes.Int].

(** [coroutine.Yield(n)] *)
Definition example_yield (n : string) : Stmt :=
  ExprStmt (CallExpr (SelectorExpr (Id (mkIdent 40 "coroutine")) (mkIdent 41 "Yield"))
              [BasicLit INT n]).

(** [func() { coroutine.Yield(1); coroutine.Yield(2) }] *)
Definition example_literal : Expr :=
  FuncLit (Parsed 5) (mkFuncType [] None) [example_yield "1"; example_yield "2"].

(** The body [{ func() { ... }() }], a single expression statement. *)
Definition example_body : list Stmt := [ExprStmt (CallExpr example_literal [])].

(** The body [{ f(1) }]. *)
Definition example_plain_body : list Stmt :=
  [ExprStmt (CallExpr (Id (mkIdent 50 "f")) [BasicLit INT "1"])].

Definition example_scope : scope :=
  mkscope {[Parsed 1 := example_color; Parsed 5 := example_color]} 0 0
    (mkInfo (λ _, None) ∅ ∅) None.

Definition example_package : Package := mkPackage "main" "example.com/main".

(** The compiled form of [example_literal]. *)
Definition example_compiled_literal : Expr :=
  FuncLit (Compiled 5) (mkFuncType [] None)
    (prologue (NewIdent "_c") (NewIdent "coroutine") (NewIdent "_f0")
       [Id (NewIdent "int"); Id (NewIdent "int")] [] [] (CompositeLit None [])
       [ExprStmt
          (CallExpr (SelectorExpr (Id (NewIdent "coroutine")) (NewIdent "Pop"))
             [UnaryExpr AND (SelectorExpr (Id (NewIdent "_c")) (NewIdent "Stack"))])]
     ++ [example_yield "1"; example_yield "2"]).

(** The number of statements of the function literal that a body of one
    expression statement calls. *)
Definition calledLiteralSize (body : list Stmt) : option nat :=
  match body with
  | [ExprStmt (CallExpr (FuncLit _ _ Body) _)] => Some (length Body)
  | _ => None
  end.

(** The value that a step returns. *)
Definition returned {A} (r : option (result (A * scope))) : option A :=
  match r with
  | Some (Ok (a, _)) => Some a
  | _ => None
  end.

End Compile.

(** ** The two-way map of the type register (package types) *)

Module Doublemap.
Section doublemap.

(** [doublemap[K, V]]: keys and values are comparable; [zeroK] and [zeroV]
    are their zero values.  A map field that is nil is [None]. *)
Context {K V : Type} `{Countable K} `{Countable V}.
Context (zeroK : K) (zeroV : V).

Record doublemap : Type := mkdoublemap {
  fromK : option (gmap K V);
  fromV : option (gmap V K);
}.

(** The zero value of the struct, as the field [cache] of a new register
    has it. *)
Definition doublemap_zero : doublemap := mkdoublemap None None.

(** [v, ok := m[k]]: a nil map reads as an empty one. *)
Definition index {A B : Type} `{Countable A} (m : option (gmap A B)) (a : A)
    : option B :=
  match m with
  | Some m => m !! a
  | None => None
  end.

(** [m[k] = v], which panics on a nil map. *)
Definition store {A B : Type} `{Countable A} (m : option (gmap A B)) (a : A) (b : B)
    : result (option (gmap A B)) :=
  match m with
  | Some m => Ok (Some (<[a := b]> m))
  | None => Panic (PanicRuntime "assignment to entry in nil map")
  end.

Definition getK (m : doublemap) (k : K) : V * bool :=
  match index (fromK m) k with
  | Some v => (v, true)
  | None => (zeroV, false)
  end.

Definition getV (m : doublemap) (v : V) : K * bool :=
  match index (fromV m) v with
  | Some k => (k, true)
  | None => (zeroK, false)
  end.

(** [add] returns the map as it leaves it together with [v]. *)
Definition add (m : doublemap) (k : K) (v : V) : result (doublemap * V) :=
  let m :=
    match fromK m with
    | None => mkdoublemap (Some ∅) (Some ∅)
    | Some _ => m
    end in
  rbind (store (fromK m) k v) (λ fk,
    let m := mkdoublemap fk (fromV m) in
    rbind (store (fromV m) v k) (λ fv,
      let m := mkdoublemap (fromK m) fv in
      Ok (m, v))).

(** The two directions agree: [k] is sent to [v] exactly when [v] is sent
    back to [k]. *)
Definition consistent (m : doublemap) : Prop :=
  ∀ k v, index (fromK m) k = Some v ↔ index (fromV m) v = Some k.

End doublemap.

(** A two-way map between type names and numbers. *)
Definition example_doublemap : @doublemap string nat _ _ _ _ :=
  mkdoublemap (Some {[ "Stack" := 1%nat ]}) (Some {[ 1%nat := "Stack" ]}).

End Doublemap.

(** ** The serde generator (command serde, package main) *)

Module Generator.

(** [types.BasicKind], the kinds of [go/types] in their order. *)
Inductive BasicKind : Type :=
| Invalid | Bool | Int | Int8 | Int16 | Int32 | Int64
| Uint | Uint8 | Uint16 | Uint32 | Uint64 | Uintptr
| Float32 | Float64 | Complex64 | Complex128 | String | UnsafePointer
| UntypedBool | UntypedInt | UntypedRune | UntypedFloat | UntypedComplex
| UntypedString | UntypedNil.

#[global] Instance BasicKind_eq_dec : EqDecision BasicKind.
Proof. solve_decision. Defined.

Definition kindIndex (k : BasicKind) : nat :=
  match k with
  | Invalid => 0 | Bool => 1 | Int => 2 | Int8 => 3 | Int16 => 4 | Int32 => 5
  | Int64 => 6 | Uint => 7 | Uint8 => 8 | Uint16 => 9 | Uint32 => 10
  | Uint64 => 11 | Uintptr => 12 | Float32 => 13 | Float64 => 14
  | Complex64 => 15 | Complex128 => 16 | String => 17 | UnsafePointer => 18
  | UntypedBool => 19 | UntypedInt => 20 | UntypedRune => 21
  | UntypedFloat => 22 | UntypedComplex => 23 | UntypedString => 24
  | UntypedNil => 25
  end%nat.

Definition kindOfIndex (n : nat) : BasicKind :=
  match n with
  | 0 => Invalid | 1 => Bool | 2 => Int | 3 => Int8 | 4 => Int16 | 5 => Int32
  | 6 => Int64 | 7 => Uint | 8 => Uint8 | 9 => Uint16 | 10 => Uint32
  | 11 => Uint64 | 12 => Uintptr | 13 => Float32 | 14 => Float64
  | 15 => Complex64 | 16 => Complex128 | 17 => String | 18 => UnsafePointer
  | 19 => UntypedBool | 20 => UntypedInt | 21 => UntypedRune
  | 22 => UntypedFloat | 23 => UntypedComplex | 24 => UntypedString
  | _ => UntypedNil
  end%nat.

(** [types.Type], by its dynamic type, for the types without cycles: a
    struct has named fields, a named type has its name and its underlying
    type, and [TOther] stands for the types that the generator does not
    know (pointers, maps, channels and so on). *)
Inductive GType : Type :=
| TBasic (kind : BasicKind)
| TStruct (fields : list (string * GType))
| TNamed (name : string) (underlying : GType)
| TSlice (elem : GType)
| TOther (n : nat).

(** Types are keys of [typeutil.Map], which compares them with
    [types.Identical]; here that is equality. *)
Fixpoint encode (t : GType) : gen_tree (nat + string) :=
  match t with
  | TBasic k => GenNode 0 [GenLeaf (inl (kindIndex k))]
  | TStruct fs =>
      GenNode 1
        ((fix go (fs : list (string * GType)) : list (gen_tree (nat + string)) :=
            match fs with
            | [] => []
            | (n, t) :: fs => GenLeaf (inr n) :: encode t :: go fs
            end) fs)
  | TNamed n u => GenNode 2 [GenLeaf (inr n); encode u]
  | TSlice e => GenNode 3 [encode e]
  | TOther n => GenNode 4 [GenLeaf (inl n)]
  end.

Fixpoint decode (t : gen_tree (nat + string)) : GType :=
  match t with
  | GenNode 0 [GenLeaf (inl k)] => TBasic (kindOfIndex k)
  | GenNode 1 l =>
      TStruct
        ((fix go (l : list (gen_tree (nat + string))) : list (string * GType) :=
            match l with
            | GenLeaf (inr n) :: x :: l => (n, decode x) :: go l
            | _ => []
            end) l)
  | GenNode 2 [GenLeaf (inr n); u] => TNamed n (decode u)
  | GenNode 3 [e] => TSlice (decode e)
  | GenNode 4 [GenLeaf (inl n)] => TOther n
  | _ => TOther 0
  end.

Fixpoint decode_encode (t : GType) : decode (encode t) = t.
Proof.
  destruct t as [k|fs|n u|e|n]; cbn.
  - destruct k; reflexivity.
  - f_equal. induction fs as [|[n t] fs IH]; [reflexivity|].
    cbn. rewrite decode_encode. f_equal. exact IH.
  - f_equal. apply decode_encode.
  - f_equal. apply decode_encode.
  - reflexivity.
Qed.

#[global] Instance GType_eq_dec : EqDecision GType.
Proof.
  intros a b. destruct (decide (encode a = encode b)) as [Heq|Hne].
  - left. rewrite <- (decode_encode a), <- (decode_encode b), Heq. reflexivity.
  - right. intros ->. apply Hne. reflexivity.
Defined.

#[global] Instance GType_countable : Countable GType :=
  inj_countable' encode decode decode_encode.

(** Where the serializer and the deserializer of a type are. *)
Record location : Type := mklocation {
  pkg : string;
  name : string;
  method : bool;
}.

Record locations : Type := mklocations {
  serializer : location;
  deserializer : location;
}.

Definition locations_zero : locations :=
  mklocations (mklocation "" "" false) (mklocation "" "" false).

(** The generator: [known] is the [typeutil.Map] from types to
    locations, [imports] is nil until the first import, [main] is the name
    of the output package, and [s] is the text written so far, nil until
    the first line. *)
Record generator : Type := mkgenerator {
  known : gmap GType locations;
  imports : option (gmap string string);
  output : string;
  main : string;
  s : option string;
}.

Definition G (A : Type) : Type := @ST generator A.

Definition set_known (k : gmap GType locations) (g : generator) : generator :=
  mkgenerator k (imports g) (output g) (main g) (s g).
Definition set_imports (i : option (gmap string string)) (g : generator) : generator :=
  mkgenerator (known g) i (output g) (main g) (s g).
Definition set_s (t : option string) (g : generator) : generator :=
  mkgenerator (known g) (imports g) (output g) (main g) t.

Definition newline : string :=
  String.String (Ascii.Ascii false true false true false false false false)
    String.EmptyString.

(** [g.W(f, args...)], with the formatted line as its argument. *)
Definition W (line : string) : G unit :=
  modify (λ g, set_s (Some (default String.EmptyString (s g) +:+ line +:+ newline)) g).

(** A panic with an error value is written as the panic with the message
    of the error. *)
Definition ensureImport (name path : string) : G unit :=
  _ <- modify (λ g,
         match imports g with
         | None => set_imports (Some ∅) g
         | Some _ => g
         end) ;;
  p <- gets (λ g, default ∅ (imports g) !! name) ;;
  match p with
  | Some p =>
      if bool_decide (p ≠ path)
      then panic (PanicString
             ("two imports named '" +:+ name +:+ "': '" +:+ path +:+ "' and '"
              +:+ p +:+ "'"))
      else ret tt
  | None =>
      modify (λ g, set_imports (Some (<[name := path]> (default ∅ (imports g)))) g)
  end.

Definition get (t : GType) : G (locations * bool) :=
  loc <- gets (λ g, known g !! t) ;;
  match loc with
  | None => ret (locations_zero, false)
  | Some loc => ret (loc, true)
  end.

(** A rune that is not a digit or a letter of ASCII. *)
Definition isInvalidChar (r : Ascii.ascii) : bool :=
  let n := Ascii.nat_of_ascii r in
  let valid :=
    (Nat.leb 48 n && Nat.leb n 57) || (Nat.leb 97 n && Nat.leb n 122)
    || (Nat.leb 65 n && Nat.leb n 90) in
  negb valid.

(** [strings.ContainsFunc]. *)
Fixpoint ContainsFunc (s : string) (f : Ascii.ascii -> bool) : bool :=
  match s with
  | String.EmptyString => false
  | String.String c s => f c || ContainsFunc s f
  end.

Definition newGenLocation (t : GType) (name : string) : G locations :=
  let name := if ContainsFunc name isInvalidChar then String.EmptyString else name in
  len <- gets (λ g, size (known g)) ;;
  let name :=
    if bool_decide (name = String.EmptyString) then "gen" +:+ pretty len else name in
  let loc :=
    mklocations (mklocation String.EmptyString ("Serialize_" +:+ name) false)
                (mklocation String.EmptyString ("Deserialize_" +:+ name) false) in
  prev <- gets (λ g, known g !! t) ;;
  _ <- modify (λ g, set_known (<[t := loc]> (known g)) g) ;;
  match prev with
  | Some _ => panic (PanicString "trying to override known location")
  | None => ret loc
  end.

Definition serializeCallForLoc (loc : locations) : G unit :=
  let l := serializer loc in
  if method l && negb (bool_decide (pkg l = String.EmptyString))
  then panic (PanicString "cannot have both a package prefix and be a method")
  else if method l then W ("b = x." +:+ name l +:+ "(b)")
  else if negb (bool_decide (pkg l = String.EmptyString))
  then W ("b = " +:+ pkg l +:+ "." +:+ name l +:+ "(x, b)")
  else W ("b = " +:+ name l +:+ "(x, b)").

Definition deserializeCallForLoc (loc : locations) : G unit :=
  let l := deserializer loc in
  if method l && negb (bool_decide (pkg l = String.EmptyString))
  then panic (PanicString "cannot have both a package prefix and be a method")
  else if method l then W ("b = x." +:+ name l +:+ "(b)")
  else if negb (bool_decide (pkg l = String.EmptyString))
  then W ("x, b = " +:+ pkg l +:+ "." +:+ name l +:+ "(b)")
  else W ("x, b = " +:+ name l +:+ "(b)").

Definition basicKindString (k : BasicKind) : string :=
  match k with
  | Invalid => "Invalid" | Bool => "Bool" | Int => "Int" | Int8 => "Int8"
  | Int16 => "Int16" | Int32 => "Int32" | Int64 => "Int64" | Uint => "Uint"
  | Uint8 => "Uint8" | Uint16 => "Uint16" | Uint32 => "Uint32"
  | Uint64 => "Uint64" | Uintptr => "Uintptr" | Float32 => "Float32"
  | Float64 => "Float64" | Complex64 => "Complex64"
  | Complex128 => "Complex128" | String => "String"
  | UnsafePointer => "UnsafePointer" | UntypedBool => "UntypedBool"
  | UntypedInt => "UntypedInt" | UntypedRune => "UntypedRune"
  | UntypedFloat => "UntypedFloat" | UntypedComplex => "UntypedComplex"
  | UntypedString => "UntypedString" | UntypedNil => "UntypedNil"
  end.

(** [Basic]; [nameof] of a function of package serde is the name of the
    function. *)
Definition Basic (t : BasicKind) (name : string) : G locations :=
  _ <- ensureImport "serde" "github.com/stealthrocket/coroutine/serde" ;;
  let l (ser des : string) : G locations :=
    ret (mklocations (mklocation "serde" ser false) (mklocation "serde" des false)) in
  match t with
  | Invalid => panic (PanicString "trying to generate serializer for invalid basic type")
  | String => l "SerializeString" "DeserializeString"
  | Bool => l "SerializeBool" "DeserializeBool"
  | Int64 => l "SerializeInt64" "DeserializeInt64"
  | Int32 => l "SerializeInt32" "DeserializeInt32"
  | Int16 => l "SerializeInt16" "DeserializeInt16"
  | Int8 => l "SerializeInt8" "DeserializeInt8"
  | Uint64 => l "SerializeUint64" "DeserializeUint64"
  | Uint32 => l "SerializeUint32" "DeserializeUint32"
  | Uint16 => l "SerializeUint16" "DeserializeUint16"
  | Uint8 => l "SerializeUint8" "DeserializeUint8"
  | Float32 => l "SerializeFloat32" "DeserializeFloat32"
  | Float64 => l "SerializeFloat64" "DeserializeFloat64"
  | Complex64 => l "SerializeComplex64" "DeserializeComplex64"
  | Complex128 => l "SerializeComplex128" "DeserializeComplex128"
  | _ => panic (PanicString
           ("basic type kind " +:+ basicKindString t +:+ " not handled"))
  end.

Section generate.

(** [g.TypeNameFor], which writes a type relative to the output package
    with [types.TypeString], is outside these sources. *)
Context (TypeNameFor : GType -> string).
(** The two texts of the panic of [Type] on a type that it does not know:
    the type as [%s] writes it, and its dynamic type as [%T] writes it. *)
Context (typeString dynamicType : GType -> string).

(** The methods [Slice], [Named] and [Struct], over the method [Type]
    that they call back. *)
Definition Slice (Type_ : GType -> string -> G locations)
    (elem : GType) (name : string) : G locations :=
  let t := TSlice elem in
  found <- get t ;;
  if found.2 then ret found.1
  else
    loc <- newGenLocation t name ;;
    let et := elem in
    let typeName := TypeNameFor et in
    eloc <- Type_ et typeName ;;
    _ <- W ("func " +:+ Generator.name (serializer loc) +:+ "(x " +:+ name
            +:+ ", b []byte) []byte {") ;;
    _ <- W "b = serde.SerializeSliceSize(x, b)" ;;
    _ <- W "for _, x := range x {" ;;
    _ <- serializeCallForLoc eloc ;;
    _ <- W "}" ;;
    _ <- W "return b" ;;
    _ <- W "}" ;;
    _ <- W String.EmptyString ;;
    _ <- W ("func " +:+ Generator.name (deserializer loc) +:+ "(b []byte) ("
            +:+ name +:+ ", []byte) {") ;;
    _ <- W "n, b := serde.DeserializeSliceSize(b)" ;;
    _ <- W ("var z " +:+ name) ;;
    _ <- W "for i := 0; i < n; i++ {" ;;
    _ <- W ("var x " +:+ typeName) ;;
    _ <- deserializeCallForLoc eloc ;;
    _ <- W "z = append(z, x)" ;;
    _ <- W "}" ;;
    _ <- W "return z, b" ;;
    _ <- W "}" ;;
    _ <- W String.EmptyString ;;
    ret loc.

Definition Named (Type_ : GType -> string -> G locations)
    (t underlying : GType) (name : string) : G locations :=
  let typeName := TypeNameFor t in
  Type_ underlying typeName.

Definition Struct (Type_ : GType -> string -> G locations)
    (fields : list (string * GType)) (name : string) : G locations :=
  let t := TStruct fields in
  found <- get t ;;
  if found.2 then ret found.1
  else
    loc <- newGenLocation t name ;;
    _ <- mapM (λ f : string * GType,
                 let ft := f.2 in
                 let typeName := TypeNameFor ft in
                 Type_ ft typeName) fields ;;
    _ <- W ("func " +:+ Generator.name (serializer loc) +:+ "(x " +:+ name
            +:+ ", b []byte) []byte {") ;;
    _ <- mapM (λ f : string * GType,
                 let ft := f.2 in
                 let typeName := TypeNameFor ft in
                 floc <- Type_ ft typeName ;;
                 _ <- W "{" ;;
                 _ <- W ("x := x." +:+ f.1) ;;
                 _ <- serializeCallForLoc floc ;;
                 W "}") fields ;;
    _ <- W "return b" ;;
    _ <- W "}" ;;
    _ <- W String.EmptyString ;;
    _ <- W ("func " +:+ Generator.name (deserializer loc) +:+ "(b []byte) ("
            +:+ name +:+ ", []byte) {") ;;
    _ <- W ("var z " +:+ name) ;;
    _ <- mapM (λ f : string * GType,
                 let ft := f.2 in
                 let typeName := TypeNameFor ft in
                 floc <- Type_ ft typeName ;;
                 _ <- W "{" ;;
                 _ <- W ("var x " +:+ typeName) ;;
                 _ <- deserializeCallForLoc floc ;;
                 _ <- W ("z." +:+ f.1 +:+ " = x") ;;
                 W "}") fields ;;
    _ <- W "return z, b" ;;
    _ <- W "}" ;;
    _ <- W String.EmptyString ;;
    ret loc.

(** The method [Type]. *)
Fixpoint Type_ (t : GType) (name : string) {struct t} : G locations :=
  match t with
  | TBasic x => Basic x name
  | TStruct fields => Struct Type_ fields name
  | TNamed _ underlying => Named Type_ t underlying name
  | TSlice elem => Slice Type_ elem name
  | TOther _ =>
      panic (PanicString
               ("type generator not implemented: " +:+ typeString t +:+ " ("
                +:+ dynamicType t +:+ ")"))
  end.

(** [Typedef], on the type of the object of the type definition. *)
Definition Typedef (t : GType) : G locations :=
  let typeName := TypeNameFor t in
  Type_ t typeName.

End generate.

(** One state of the generator holds what another holds: every known
    type with its locations, and every import with its path. *)
Definition grows (g g' : generator) : Prop :=
  known g ⊆ known g' ∧
  ∀ n p, default ∅ (imports g) !! n = Some p → default ∅ (imports g') !! n = Some p.

(** The locations of a type do not change any more: in every later state
    of the generator, [Type] returns them, under every name, and changes
    nothing. *)
Definition settled (TypeNameFor typeString dynamicType : GType -> string)
    (t : GType) (loc : locations) (g : generator) : Prop :=
  ∀ (nm : string) (g' : generator), grows g g' →
    Type_ TypeNameFor typeString dynamicType t nm g' = Some (Ok (loc, g')).

(** The panic of [newGenLocation] on a type that is known. *)
Definition overridePanic : PanicValue :=
  PanicString "trying to override known location".

(** The kinds for which [Basic] has a case, and the locations it returns
    for them. *)
Definition supportedKind (k : BasicKind) : bool :=
  match k with
  | String | Bool | Int64 | Int32 | Int16 | Int8 | Uint64 | Uint32 | Uint16
  | Uint8 | Float32 | Float64 | Complex64 | Complex128 => true
  | _ => false
  end.

Definition serdeLocations (k : BasicKind) : locations :=
  mklocations
    (mklocation "serde" ("Serialize" +:+ basicKindString k) false)
    (mklocation "serde" ("Deserialize" +:+ basicKindString k) false).

(** *** The file of the generated code, and the type definition *)

(** [strings.LastIndexByte]; [-1] when the byte is not in the string. *)
Fixpoint LastIndexByte (s : string) (c : Ascii.ascii) : Z :=
  match s with
  | String.EmptyString => -1
  | String.String a s =>
      let i := LastIndexByte s c in
      if bool_decide (i = -1)
      then if bool_decide (a = c) then 0 else -1
      else i + 1
  end.

Definition dot : Ascii.ascii :=
  Ascii.Ascii false true true true false true false false.

(** The test of a dot, for statements about file names. *)
Definition isDot (a : Ascii.ascii) : bool := bool_decide (a = dot).

Section TargetFile.

(** [filepath.Split] and [filepath.Join] are outside these sources. *)
Context (Split : string -> string * string).
Context (Join : string -> string -> string).

(** [TargetFile], on the file name of the position of the type. *)
Definition TargetFile (Filename : string) : result string :=
  let '(dir, file) := Split Filename in
  let i := LastIndexByte file dot in
  if bool_decide (i = -1)
  then Panic (PanicString ("files does not end in .go: " +:+ file))
  else
    let outFile := String.substring 0 (Z.to_nat i) file +:+ "_serde.go" in
    Ok (Join dir outFile).

End TargetFile.

(** [*packages.Package], as far as [findTypeDef] reads it: the package
    and the objects that its identifiers define, nil for an identifier
    that defines none. *)
Record Package : Type := mkPackage {
  PkgPath : string;
  Defs : gmap Ast.Ident (option GoTypes.Object);
}.

Record typedef : Type := mktypedef {
  obj : option GoTypes.Object;
  typedef_pkg : option Package;
}.

Definition notype : typedef := mktypedef None None.

(** [findTypeDef]; the identifiers of a package come in the order of the
    iteration over the map. *)
Fixpoint findTypeDef (nm : string) (pkgs : list Package) : typedef :=
  match pkgs with
  | [] => notype
  | pkg :: pkgs =>
      match List.find (λ d : Ast.Ident * option GoTypes.Object,
                         bool_decide (Ast.Name d.1 = nm))
                      (map_to_list (Defs pkg)) with
      | Some (id, d) => mktypedef d (Some pkg)
      | None => findTypeDef nm pkgs
      end
  end.

(** A path split at its last slash, and a directory joined to a file
    name, for paths that are clean. *)
Definition example_Split (path : string) : string * string :=
  if String.prefix "pkg/" path
  then ("pkg/", String.substring 4 (String.length path - 4) path)
  else (String.EmptyString, path).

Definition example_Join (dir file : string) : string := dir +:+ file.

(** A generator that has written nothing. *)
Definition example_generator : generator :=
  mkgenerator ∅ None "point_serde.go" "main" None.

(** [type Point struct { X int64; Tags []string }], written by name. *)
Definition example_Point : GType :=
  TNamed "Point" (TStruct [("X", TBasic Int64); ("Tags", TSlice (TBasic String))]).

Definition example_typeString (t : GType) : string := "?".

Definition example_TypeNameFor (t : GType) : string :=
  match t with
  | TNamed n _ => n
  | TBasic k => basicKindString k
  | TSlice _ => "[]string"
  | _ => "struct{...}"
  end.

End Generator.

(** ** Properties of steps, and induction over statements *)

Module StepFacts.
Section steps.
Context {σ : Type}.

Lemma bind_inv {A B} (m : @ST σ A) (k : A -> @ST σ B) (d d' : σ) (b : B) :
  bind m k d = Some (Ok (b, d')) →
  ∃ a d1, m d = Some (Ok (a, d1)) ∧ k a d1 = Some (Ok (b, d')).
Proof.
  unfold bind. destruct (m d) as [[[a d1]|p]|]; try discriminate. eauto.
Qed.

Lemma ret_inv {A} (a b : A) (d d' : σ) :
  ret a d = Some (Ok (b, d')) → b = a ∧ d' = d.
Proof. unfold ret. intros Heq. injection Heq as <- <-. auto. Qed.

Lemma gets_inv {A} (f : σ -> A) (b : A) (d d' : σ) :
  gets f d = Some (Ok (b, d')) → b = f d ∧ d' = d.
Proof. unfold gets. intros Heq. injection Heq as <- <-. auto. Qed.

Lemma modify_inv (f : σ -> σ) (b : unit) (d d' : σ) :
  modify f d = Some (Ok (b, d')) → d' = f d.
Proof. unfold modify. intros Heq. injection Heq as _ <-. auto. Qed.

(** What holds of every step of a list holds of the whole: a relation
    [R] between the states before and after, and a property [Q] of what
    is returned. *)
Lemma mapM_post {A B} (R : σ -> σ -> Prop) (Q : B -> Prop) (f : A -> @ST σ B)
    (l : list A) :
  (∀ d, R d d) → (∀ d1 d2 d3, R d1 d2 → R d2 d3 → R d1 d3) →
  Forall (λ x, ∀ d b d', f x d = Some (Ok (b, d')) → R d d' ∧ Q b) l →
  ∀ d bs d', mapM f l d = Some (Ok (bs, d')) → R d d' ∧ Forall Q bs.
Proof.
  intros Hrefl Htrans. induction 1 as [|x l Hx Hl IH]; intros d bs d' Hm; cbn in Hm.
  - apply ret_inv in Hm as [-> ->]. auto.
  - apply bind_inv in Hm as (b & d1 & Hb & Hm).
    apply bind_inv in Hm as (bs' & d2 & Hbs & Hm).
    apply ret_inv in Hm as [-> ->].
    destruct (Hx _ _ _ Hb) as [HR HQ]. destruct (IH _ _ _ Hbs) as [HR' HQ'].
    split; [eapply Htrans; eauto|constructor; auto].
Qed.

Lemma mapM_Forall {A B} (Q : B -> Prop) (f : A -> @ST σ B) (l : list A) :
  Forall (λ x, ∀ d b d', f x d = Some (Ok (b, d')) → Q b) l →
  ∀ d bs d', mapM f l d = Some (Ok (bs, d')) → Forall Q bs.
Proof.
  intros Hl d bs d' Hm.
  eapply (mapM_post (λ _ _, True) Q f l); eauto.
  eapply Forall_impl; [exact Hl|]. cbn. eauto.
Qed.

Lemma bind_panic_inv {A B} (m : @ST σ A) (k : A -> @ST σ B) (d : σ) (p : PanicValue) :
  bind m k d = Some (Panic p) →
  m d = Some (Panic p) ∨ ∃ a d1, m d = Some (Ok (a, d1)) ∧ k a d1 = Some (Panic p).
Proof.
  unfold bind. destruct (m d) as [[[a d1]|q]|]; intros Hk.
  - right. exists a, d1. auto.
  - left. injection Hk as ->. reflexivity.
  - discriminate Hk.
Qed.

Lemma mapM_never {A B} (f : A -> @ST σ B) (l : list A) (p : PanicValue) :
  Forall (λ x, ∀ d, f x d ≠ Some (Panic p)) l →
  ∀ d, mapM f l d ≠ Some (Panic p).
Proof.
  induction 1 as [|x l Hx Hl IH]; intros d Hm; cbn in Hm; [discriminate Hm|].
  apply bind_panic_inv in Hm as [Hm|(b & d1 & _ & Hm)]; [exact (Hx _ Hm)|].
  apply bind_panic_inv in Hm as [Hm|(bs & d2 & _ & Hm)]; [exact (IH _ Hm)|].
  discriminate Hm.
Qed.

Lemma mapM_length {A B} (f : A -> @ST σ B) (l : list A) :
  ∀ d bs d', mapM f l d = Some (Ok (bs, d')) → length bs = length l.
Proof.
  induction l as [|x l IH]; intros d bs d' Hm; cbn in Hm.
  - apply ret_inv in Hm as [-> ->]. reflexivity.
  - apply bind_inv in Hm as (b & d1 & Hb & Hm).
    apply bind_inv in Hm as (bs' & d2 & Hbs & Hm).
    apply ret_inv in Hm as [-> ->]. cbn. f_equal. eauto.
Qed.

End steps.

(** Induction over a statement and the statements in it; expressions and
    declarations are not entered. *)
Section Stmt_tree_ind.
Import Ast.
Context (P : Stmt -> Prop).
Context (HBad : P BadStmt).
Context (HBlock : ∀ l, Forall P l → P (BlockStmt l)).
Context (HIf : ∀ i c b e,
  match i with Some s => P s | None => True end → Forall P b →
  match e with Some s => P s | None => True end → P (IfStmt i c b e)).
Context (HFor : ∀ i c p b,
  match i with Some s => P s | None => True end →
  match p with Some s => P s | None => True end → Forall P b →
  P (ForStmt i c p b)).
Context (HRange : ∀ k v t x b, Forall P b → P (RangeStmt k v t x b)).
Context (HSwitch : ∀ i t b,
  match i with Some s => P s | None => True end → Forall P b →
  P (SwitchStmt i t b)).
Context (HTypeSwitch : ∀ i a b,
  match i with Some s => P s | None => True end → P a → Forall P b →
  P (TypeSwitchStmt i a b)).
Context (HCase : ∀ l b, Forall P b → P (CaseClause l b)).
Context (HBranch : ∀ t l, P (BranchStmt t l)).
Context (HLabeled : ∀ l s, P s → P (LabeledStmt l s)).
Context (HSelect : ∀ b, Forall P b → P (SelectStmt b)).
Context (HComm : ∀ c b,
  match c with Some s => P s | None => True end → Forall P b →
  P (CommClause c b)).
Context (HAssign : ∀ l t r, P (AssignStmt l t r)).
Context (HDecl : ∀ d, P (DeclStmt d)).
Context (HDefer : ∀ f a, P (DeferStmt f a)).
Context (HEmpty : P EmptyStmt).
Context (HExpr : ∀ x, P (ExprStmt x)).
Context (HGo : ∀ f a, P (GoStmt f a)).
Context (HIncDec : ∀ x t, P (IncDecStmt x t)).
Context (HReturn : ∀ r, P (ReturnStmt r)).
Context (HSend : ∀ c v, P (SendStmt c v)).

Fixpoint Stmt_tree_ind (s : Stmt) : P s :=
  let all := fix all (l : list Stmt) : Forall P l :=
    match l with
    | [] => List.Forall_nil P
    | x :: l => @List.Forall_cons _ P x l (Stmt_tree_ind x) (all l)
    end in
  let nil := λ o : option Stmt,
    match o return match o with Some s => P s | None => True end with
    | Some s => Stmt_tree_ind s
    | None => I
    end in
  match s with
  | BadStmt => HBad
  | BlockStmt l => HBlock l (all l)
  | IfStmt i c b e => HIf i c b e (nil i) (all b) (nil e)
  | ForStmt i c p b => HFor i c p b (nil i) (nil p) (all b)
  | RangeStmt k v t x b => HRange k v t x b (all b)
  | SwitchStmt i t b => HSwitch i t b (nil i) (all b)
  | TypeSwitchStmt i a b => HTypeSwitch i a b (nil i) (Stmt_tree_ind a) (all b)
  | CaseClause l b => HCase l b (all b)
  | BranchStmt t l => HBranch t l
  | LabeledStmt l s => HLabeled l s (Stmt_tree_ind s)
  | SelectStmt b => HSelect b (all b)
  | CommClause c b => HComm c b (nil c) (all b)
  | AssignStmt l t r => HAssign l t r
  | DeclStmt d => HDecl d
  | DeferStmt f a => HDefer f a
  | EmptyStmt => HEmpty
  | ExprStmt x => HExpr x
  | GoStmt f a => HGo f a
  | IncDecStmt x t => HIncDec x t
  | ReturnStmt r => HReturn r
  | SendStmt c v => HSend c v
  end.
End Stmt_tree_ind.

End StepFacts.

(** ** Properties of the type register *)

Module RegistryFacts.
Import Registry.

Section typemap.

Context {RType : Type} `{Countable RType}.
Context {SerializerFunc DeserializerFunc : Type}.
Context {serializerFunc deserializerFunc : Type}.
Context (closure_s : RType -> option SerializerFunc -> serializerFunc).
Context (closure_d : RType -> option DeserializerFunc -> deserializerFunc).
Context {Cache : Type}.

Abbreviation serde := (@Registry.serde serializerFunc deserializerFunc).
Abbreviation typemap :=
  (@Registry.typemap RType _ _ serializerFunc deserializerFunc Cache).
Abbreviation attach_op := (@Registry.attach_op RType serializerFunc deserializerFunc).
Abbreviation Register := (Registry.Register closure_s closure_d).

Lemma attach_both (m : typemap) (t : RType) (s : serializerFunc) (d : deserializerFunc) :
  attach m t (Some s) (Some d) =
  Ok (mktypemap
        (match serdes m !! t with Some _ => custom m | None => custom m ++ [t] end)
        (cache m)
        (<[t := mkserde
                  (match serdes m !! t with
                   | Some s0 => id s0
                   | None => Z.of_nat (length (custom m))
                   end) (Some s) (Some d)]> (serdes m))).
Proof.
  unfold attach. simpl.
  destruct (serdes m !! t) as [s0|]; reflexivity.
Qed.

Lemma attach_nil (m : typemap) (t : RType) (s : option serializerFunc)
    (d : option deserializerFunc) :
  accepted (t, s, d) = false →
  attach m t s d =
  Panic (PanicString "both serializer and deserializer need to be provided").
Proof.
  unfold attach, accepted.
  destruct s, d; simpl; intros; congruence.
Qed.

Lemma attach_accepted (m : typemap) (t : RType) (s : option serializerFunc)
    (d : option deserializerFunc) :
  accepted (t, s, d) = true → ∃ s' d', s = Some s' ∧ d = Some d'.
Proof. destruct s, d; simpl; intros; try discriminate; eauto. Qed.

Lemma newTypemap_inv (c0 : Cache) : typemap_inv (newTypemap c0 : typemap).
Proof.
  split; simpl.
  - intros t s Hs. rewrite lookup_empty in Hs. discriminate.
  - intros t. split.
    + intros Ht. inversion Ht.
    + intros [s Hs]. rewrite lookup_empty in Hs. discriminate.
  - constructor.
Qed.

Lemma attach_inv (m m' : typemap) (t : RType) (s : option serializerFunc)
    (d : option deserializerFunc) :
  typemap_inv m → attach m t s d = Ok m' → typemap_inv m'.
Proof.
  intros Hinv Hat.
  destruct s as [s|], d as [d|]; try (unfold attach in Hat; simpl in Hat; discriminate).
  rewrite attach_both in Hat. injection Hat as <-.
  destruct Hinv as [Hid Hdom Hnd].
  destruct (serdes m !! t) as [s0|] eqn:Ht.
  - split; simpl.
    + intros t' s' Hs'.
      destruct (decide (t = t')) as [<-|Hne].
      * rewrite lookup_insert_eq in Hs'. injection Hs' as <-. simpl.
        exact (Hid t s0 Ht).
      * rewrite lookup_insert_ne in Hs' by done. exact (Hid t' s' Hs').
    + intros t'. rewrite Hdom.
      destruct (decide (t = t')) as [<-|Hne].
      * rewrite lookup_insert_eq, Ht. split; eauto.
      * rewrite lookup_insert_ne by done. reflexivity.
    + exact Hnd.
  - assert (Hfresh : t ∉ custom m).
    { intros Hin. apply Hdom in Hin. destruct Hin as [x Hx]. congruence. }
    split; simpl.
    + intros t' s' Hs'. rewrite length_app. simpl.
      destruct (decide (t = t')) as [<-|Hne].
      * rewrite lookup_insert_eq in Hs'. injection Hs' as <-. simpl.
        split; [lia|].
        rewrite Nat2Z.id. rewrite lookup_app_r by lia.
        rewrite Nat.sub_diag. reflexivity.
      * rewrite lookup_insert_ne in Hs' by done.
        destruct (Hid t' s' Hs') as [Hr Hl].
        split; [lia|]. rewrite lookup_app_l by lia. exact Hl.
    + intros t'. rewrite elem_of_app, Hdom, list_elem_of_singleton.
      destruct (decide (t = t')) as [<-|Hne].
      * rewrite lookup_insert_eq. split; eauto.
      * rewrite lookup_insert_ne by done. split; [intros [?|?]; congruence | auto].
    + apply NoDup_app. split; [exact Hnd|]. split.
      * intros x Hx Hx'. apply list_elem_of_singleton in Hx'. congruence.
      * apply NoDup_singleton.
Qed.

Lemma attach_all_inv (ops : list attach_op) (m : typemap) :
  typemap_inv m → typemap_inv (attach_all m ops).
Proof.
  revert m. induction ops as [|[[t s] d] ops IH]; intros m Hinv; simpl; [exact Hinv|].
  destruct (attach m t s d) as [m'|p] eqn:Hat.
  - apply IH. eapply attach_inv; eauto.
  - apply IH. exact Hinv.
Qed.

Lemma registered_types_cons (o : attach_op) (ops : list attach_op) :
  registered_types (o :: ops) =
  if accepted o then o.1.1 :: registered_types ops else registered_types ops.
Proof.
  unfold registered_types. rewrite filter_cons.
  destruct (accepted o); simpl.
  - destruct (decide (true = true)); [reflexivity|congruence].
  - destruct (decide (false = true)); [congruence|reflexivity].
Qed.

Lemma attach_all_custom (ops : list attach_op) (m : typemap) :
  typemap_inv m →
  custom (attach_all m ops) = registration_order (custom m) (registered_types ops).
Proof.
  revert m. induction ops as [|[[t s] d] ops IH]; intros m Hinv; [reflexivity|].
  rewrite registered_types_cons. simpl attach_all.
  destruct (accepted (t, s, d)) eqn:Hacc.
  - destruct (attach_accepted m t s d Hacc) as (s' & d' & -> & ->).
    pose proof (attach_inv m _ t (Some s') (Some d') Hinv (attach_both m t s' d')) as Hinv'.
    rewrite attach_both. rewrite IH by exact Hinv'. simpl.
    destruct (decide (t ∈ custom m)) as [Hin|Hnin].
    + apply (inv_dom m Hinv) in Hin. destruct Hin as [s0 ->]. reflexivity.
    + destruct (serdes m !! t) as [s0|] eqn:Ht; [|reflexivity].
      exfalso. apply Hnin. apply (inv_dom m Hinv). eauto.
  - rewrite (attach_nil m t s d Hacc). apply IH. exact Hinv.
Qed.

Lemma registration_order_elem (ts seen : list RType) (t : RType) :
  t ∈ registration_order seen ts ↔ t ∈ seen ∨ t ∈ ts.
Proof.
  revert seen. induction ts as [|t0 ts IH]; intros seen; simpl.
  - split; [auto|]. intros [?|Hn]; [done|inversion Hn].
  - destruct (decide (t0 ∈ seen)) as [Hin|Hnin]; rewrite IH.
    + rewrite elem_of_cons. split; [tauto|]. intros [?|[->|?]]; auto.
    + rewrite elem_of_app, list_elem_of_singleton, elem_of_cons. tauto.
Qed.

Lemma attach_keeps_id (m m' : typemap) (t0 : RType) (s0 : serde) (t : RType)
    (s : option serializerFunc) (d : option deserializerFunc) :
  serdes m !! t0 = Some s0 → attach m t s d = Ok m' →
  ∃ s1, serdes m' !! t0 = Some s1 ∧ id s1 = id s0.
Proof.
  intros Ht0 Hat.
  destruct s as [s|], d as [d|]; try (unfold attach in Hat; simpl in Hat; discriminate).
  rewrite attach_both in Hat. injection Hat as <-. simpl.
  destruct (decide (t = t0)) as [->|Hne].
  - rewrite lookup_insert_eq, Ht0. eexists. split; reflexivity.
  - rewrite lookup_insert_ne by done. eauto.
Qed.

Lemma attach_all_keeps_id (ops : list attach_op) (m : typemap) (t0 : RType)
    (s0 : serde) :
  serdes m !! t0 = Some s0 →
  ∃ s1, serdes (attach_all m ops) !! t0 = Some s1 ∧ id s1 = id s0.
Proof.
  revert m s0. induction ops as [|[[t s] d] ops IH]; intros m s0 Ht0; simpl; [eauto|].
  destruct (attach m t s d) as [m'|p] eqn:Hat.
  - destruct (attach_keeps_id m m' t0 s0 t s d Ht0 Hat) as (s1 & Hs1 & Hid).
    destruct (IH m' s1 Hs1) as (s2 & Hs2 & Hid2).
    exists s2. split; [exact Hs2|congruence].
  - apply IH. exact Ht0.
Qed.

Lemma attach_all_registered (c0 : Cache) (ops : list attach_op) (t : RType) :
  t ∈ custom (attach_all (newTypemap c0) ops) ↔ t ∈ registered_types ops.
Proof.
  rewrite attach_all_custom by apply newTypemap_inv.
  rewrite registration_order_elem. simpl.
  split; [intros [Hn|?]; [inversion Hn|done] | auto].
Qed.

(** C3: type ids are handed out in registration order starting at 0 (the
    id of a type is its position in the list of first registrations, a
    type that is new gets the next free position, the very first one 0);
    an id that has been assigned survives every later sequence of
    registrations; registering a type again replaces its two callbacks
    and keeps its id. *)
Theorem type_id_assigned_once (c0 : Cache) (ops : list attach_op) :
  let m : typemap := attach_all (newTypemap c0) ops in
  custom m = registration_order [] (registered_types ops) ∧
  (∀ (t : RType) (s : serde), serdes m !! t = Some s →
     custom m !! Z.to_nat (id s) = Some t ∧ 0 <= id s) ∧
  (∀ (t : RType) (s : serializerFunc) (d : deserializerFunc), ∃ m1 : typemap,
      attach (newTypemap c0) t (Some s) (Some d) = Ok m1 ∧
      serdes m1 !! t = Some (mkserde 0 (Some s) (Some d))) ∧
  (∀ (t : RType) (s : serializerFunc) (d : deserializerFunc),
      serdes m !! t = None → ∃ m1 : typemap,
      attach m t (Some s) (Some d) = Ok m1 ∧
      serdes m1 !! t =
        Some (mkserde (Z.of_nat (length (custom m))) (Some s) (Some d)) ∧
      custom m1 = custom m ++ [t]) ∧
  (∀ (t : RType) (s0 : serde) (more : list attach_op),
      serdes m !! t = Some s0 → ∃ s1 : serde,
      serdes (attach_all m more) !! t = Some s1 ∧ id s1 = id s0) ∧
  (∀ (t : RType) (s0 : serde) (s : serializerFunc) (d : deserializerFunc),
      serdes m !! t = Some s0 → ∃ m1 : typemap,
      attach m t (Some s) (Some d) = Ok m1 ∧
      serdes m1 !! t = Some (mkserde (id s0) (Some s) (Some d)) ∧
      custom m1 = custom m).
Proof.
  intros m.
  assert (Hinv : typemap_inv m) by (apply attach_all_inv, newTypemap_inv).
  split; [apply attach_all_custom, newTypemap_inv|].
  split; [intros t s Hs; split; apply (inv_id m Hinv t s Hs)|].
  split; [|split; [|split]].
  - intros t s d. eexists. split; [apply attach_both|].
    simpl. rewrite lookup_empty. apply lookup_insert_eq.
  - intros t s d Hnone. eexists. split; [apply attach_both|].
    simpl. rewrite Hnone. split; [apply lookup_insert_eq|reflexivity].
  - intros t s0 more Hs0. apply attach_all_keeps_id. exact Hs0.
  - intros t s0 s d Hs0. eexists. split; [apply attach_both|].
    simpl. rewrite Hs0. split; [apply lookup_insert_eq|reflexivity].
Qed.

(** C10: after any sequence of [attach] calls on a new register, the id of
    every registered type lies in [0, len(custom)) and [custom] holds that
    type at that index, and [len(custom)] is the number of distinct types
    that were registered, which are exactly the keys of [serdes]. *)
Theorem type_ids_index_custom (c0 : Cache) (ops : list attach_op) :
  let m : typemap := attach_all (newTypemap c0) ops in
  (∀ (t : RType) (s : serde), serdes m !! t = Some s →
     0 <= id s < Z.of_nat (length (custom m)) ∧
     custom m !! Z.to_nat (id s) = Some t) ∧
  length (custom m) = size (list_to_set (registered_types ops) : gset RType) ∧
  dom (serdes m) = list_to_set (registered_types ops).
Proof.
  intros m.
  assert (Hinv : typemap_inv m) by (apply attach_all_inv, newTypemap_inv).
  split; [exact (inv_id m Hinv)|].
  assert (Hset : (list_to_set (custom m) : gset RType)
                 = list_to_set (registered_types ops)).
  { apply set_eq. intros t. rewrite !elem_of_list_to_set.
    apply attach_all_registered. }
  split.
  - rewrite <- Hset. symmetry. apply size_list_to_set, (inv_nodup m Hinv).
  - rewrite <- Hset. apply set_eq. intros t.
    rewrite elem_of_dom, elem_of_list_to_set. symmetry. apply (inv_dom m Hinv).
Qed.

(** C4, as the code behaves: [Register] wraps whatever it is given, nil
    included, in two function literals before it calls [attach], so the
    nil test of [attach] always sees two functions and the registration
    goes through for every pair of callbacks; [attach] itself refuses a
    nil function. *)
Theorem Register_accepts_nil_callbacks (types : typemap) (t : RType)
    (serializer : option SerializerFunc) (deserializer : option DeserializerFunc) :
  (∃ (types1 : typemap) (s : serde),
      Register types t serializer deserializer = Ok types1 ∧
      serdes types1 !! t = Some s ∧
      ser s = Some (closure_s t serializer) ∧
      des s = Some (closure_d t deserializer)) ∧
  (∀ d : option deserializerFunc, attach types t None d =
        Panic (PanicString "both serializer and deserializer need to be provided")) ∧
  (∀ s : option serializerFunc, attach types t s None =
        Panic (PanicString "both serializer and deserializer need to be provided")).
Proof.
  split; [|split].
  - unfold Register, registerSerde. rewrite attach_both.
    eexists _, _. split; [reflexivity|]. simpl.
    split; [apply lookup_insert_eq|]. split; reflexivity.
  - intros d. apply attach_nil. reflexivity.
  - intros s. apply attach_nil. destruct s; reflexivity.
Qed.

(** *** Lookups in the register *)

Lemma attach_all_app (ops more : list attach_op) (m : typemap) :
  attach_all m (ops ++ more) = attach_all (attach_all m ops) more.
Proof.
  revert m. induction ops as [|[[t s] d] ops IH]; intros m; [reflexivity|].
  simpl. destruct (attach m t s d); apply IH.
Qed.

Lemma attach_callbacks_set (m m' : typemap) (t : RType)
    (s : option serializerFunc) (d : option deserializerFunc) :
  callbacks_set m → attach m t s d = Ok m' → callbacks_set m'.
Proof.
  intros Hm Hat.
  destruct s as [s|], d as [d|]; try (unfold attach in Hat; simpl in Hat; discriminate).
  rewrite attach_both in Hat. injection Hat as <-.
  intros t' s' Hs'. simpl in Hs'.
  destruct (decide (t = t')) as [<-|Hne].
  - rewrite lookup_insert_eq in Hs'. injection Hs' as <-. simpl. eauto.
  - rewrite lookup_insert_ne in Hs' by done. exact (Hm t' s' Hs').
Qed.

Lemma attach_all_callbacks_set (ops : list attach_op) (m : typemap) :
  callbacks_set m → callbacks_set (attach_all m ops).
Proof.
  revert m. induction ops as [|[[t s] d] ops IH]; intros m Hm; simpl; [exact Hm|].
  destruct (attach m t s d) as [m'|p] eqn:Hat.
  - apply IH. eapply attach_callbacks_set; eauto.
  - apply IH. exact Hm.
Qed.

Lemma attach_other (m m' : typemap) (t t' : RType)
    (s : option serializerFunc) (d : option deserializerFunc) :
  attach m t s d = Ok m' → t' ≠ t → serdes m' !! t' = serdes m !! t'.
Proof.
  intros Hat Hne.
  destruct s as [s|], d as [d|]; try (unfold attach in Hat; simpl in Hat; discriminate).
  rewrite attach_both in Hat. injection Hat as <-. simpl.
  apply lookup_insert_ne. congruence.
Qed.

Lemma attach_all_other (ops : list attach_op) (m : typemap) (t : RType) :
  (∀ o, o ∈ ops → o.1.1 ≠ t) →
  serdes (attach_all m ops) !! t = serdes m !! t.
Proof.
  revert m. induction ops as [|[[t0 s] d] ops IH]; intros m Hops; simpl; [reflexivity|].
  assert (Hrest : ∀ o, o ∈ ops → o.1.1 ≠ t) by (intros o Ho; apply Hops; by right).
  destruct (attach m t0 s d) as [m'|p] eqn:Hat.
  - rewrite IH by exact Hrest. eapply attach_other; [exact Hat|].
    intros ->. apply (Hops (t0, s, d)); [by left|reflexivity].
  - apply IH. exact Hrest.
Qed.

(** X5: what [serdeOf] finds after any sequence of [attach] calls on a new
    register.  A type is found exactly when some call registered it with
    both callbacks; a type that is not found comes with the zero value;
    and a [serde] that is found holds both callbacks, neither nil. *)
Theorem serdeOf_registered (c0 : Cache) (ops : list attach_op) :
  let m : typemap := attach_all (newTypemap c0) ops in
  (∀ t : RType, (serdeOf m t).2 = true ↔ t ∈ registered_types ops) ∧
  (∀ t : RType, t ∉ registered_types ops → serdeOf m t = (serde_zero, false)) ∧
  (∀ (t : RType) (s : serde), serdeOf m t = (s, true) →
     is_Some (ser s) ∧ is_Some (des s)).
Proof.
  intros m.
  assert (Hinv : typemap_inv m) by (apply attach_all_inv, newTypemap_inv).
  assert (Hfound : ∀ t : RType, is_Some (serdes m !! t) ↔ t ∈ registered_types ops).
  { intros t. rewrite <- (inv_dom m Hinv). apply attach_all_registered. }
  split; [|split].
  - intros t. rewrite <- Hfound. unfold serdeOf.
    destruct (serdes m !! t) as [s|]; simpl.
    + split; eauto.
    + split; [discriminate|]. intros [? Hn]. discriminate Hn.
  - intros t Hnot. unfold serdeOf.
    destruct (serdes m !! t) as [s|] eqn:Hs; [|reflexivity].
    exfalso. apply Hnot, Hfound. eauto.
  - intros t s Hof. unfold serdeOf in Hof.
    destruct (serdes m !! t) as [s'|] eqn:Hs; [|discriminate Hof].
    injection Hof as ->.
    eapply (attach_all_callbacks_set ops (newTypemap c0)); [|exact Hs].
    intros t' s' Hs'. simpl in Hs'. rewrite lookup_empty in Hs'. discriminate Hs'.
Qed.

(** X6: the callbacks that [serdeOf] returns are those of the last
    registration of the type.  After a registration of [t] with [s] and
    [d], and any later calls that do not name [t], [serdeOf t] finds a
    [serde] with exactly [s] and [d], whatever was registered for [t]
    before. *)
Theorem serdeOf_last_registration (c0 : Cache) (ops more : list attach_op)
    (t : RType) (s : serializerFunc) (d : deserializerFunc) :
  (∀ o, o ∈ more → o.1.1 ≠ t) →
  let m : typemap :=
    attach_all (newTypemap c0) (ops ++ (t, Some s, Some d) :: more) in
  ∃ i : Z, serdeOf m t = (mkserde i (Some s) (Some d), true).
Proof.
  intros Hmore m. subst m.
  rewrite attach_all_app. simpl. rewrite attach_both.
  unfold serdeOf. rewrite attach_all_other by exact Hmore. simpl.
  rewrite lookup_insert_eq. eauto.
Qed.

(** X7: no two types share an id.  After any sequence of [attach] calls on
    a new register, two types that [serdeOf] finds with the same id are
    the same type. *)
Theorem type_ids_distinct (c0 : Cache) (ops : list attach_op)
    (t1 t2 : RType) (s1 s2 : serde) :
  let m : typemap := attach_all (newTypemap c0) ops in
  serdeOf m t1 = (s1, true) → serdeOf m t2 = (s2, true) →
  id s1 = id s2 → t1 = t2.
Proof.
  intros m H1 H2 Hid.
  assert (Hinv : typemap_inv m) by (apply attach_all_inv, newTypemap_inv).
  unfold serdeOf in H1, H2.
  destruct (serdes m !! t1) as [s1'|] eqn:Hs1; [|discriminate H1].
  destruct (serdes m !! t2) as [s2'|] eqn:Hs2; [|discriminate H2].
  injection H1 as ->. injection H2 as ->.
  destruct (inv_id m Hinv t1 s1 Hs1) as [_ Hc1].
  destruct (inv_id m Hinv t2 s2 Hs2) as [_ Hc2].
  rewrite Hid in Hc1. congruence.
Qed.

(** X8: what one [attach] leaves alone.  A call that returns keeps the
    cache, keeps what [serdeOf] finds for every other type, and keeps
    [custom] as a prefix of the new [custom], which is longer by at most
    the one type. *)
Theorem attach_frame (m m' : typemap) (t : RType)
    (s : option serializerFunc) (d : option deserializerFunc) :
  attach m t s d = Ok m' →
  cache m' = cache m ∧
  (∀ t' : RType, t' ≠ t → serdeOf m' t' = serdeOf m t') ∧
  (custom m' = custom m ∨ custom m' = custom m ++ [t]) ∧
  (serdeOf m' t).2 = true.
Proof.
  intros Hat. split; [|split; [|split]].
  - destruct s as [s|], d as [d|]; try (unfold attach in Hat; simpl in Hat; discriminate).
    rewrite attach_both in Hat. injection Hat as <-. reflexivity.
  - intros t' Hne. unfold serdeOf. rewrite (attach_other m m' t t' s d Hat Hne).
    reflexivity.
  - destruct s as [s|], d as [d|]; try (unfold attach in Hat; simpl in Hat; discriminate).
    rewrite attach_both in Hat. injection Hat as <-. simpl.
    destruct (serdes m !! t); auto.
  - destruct s as [s|], d as [d|]; try (unfold attach in Hat; simpl in Hat; discriminate).
    rewrite attach_both in Hat. injection Hat as <-. unfold serdeOf. simpl.
    rewrite lookup_insert_eq. reflexivity.
Qed.

End typemap.

Example example_register_custom :
  custom example_register = ["Stack"; "Frame"].
Proof. reflexivity. Qed.

Example example_register_Stack :
  serdes example_register !! "Stack" = Some (mkserde 0 (Some 6%nat) (Some 7%nat)).
Proof. vm_compute. reflexivity. Qed.

Example example_register_Frame :
  serdes example_register !! "Frame" = Some (mkserde 1 (Some 3%nat) (Some 4%nat)).
Proof. vm_compute. reflexivity. Qed.

Lemma serdeOf_last_registration_witness :
  ∃ i : Z,
    serdeOf (attach_all (newTypemap tt)
               ([("Stack", Some 1%nat, Some 2%nat)] ++
                ("Stack", Some 6%nat, Some 7%nat) :: [("Frame", Some 3%nat, Some 4%nat)]))
      "Stack" = (mkserde i (Some 6%nat) (Some 7%nat), true).
Proof.
  apply (serdeOf_last_registration tt [("Stack", Some 1%nat, Some 2%nat)]
           [("Frame", Some 3%nat, Some 4%nat)] "Stack" 6%nat 7%nat).
  intros o Ho. apply list_elem_of_singleton in Ho. subst o. discriminate.
Defined.

Lemma type_ids_distinct_witness : "Frame" = "Frame".
Proof.
  apply (type_ids_distinct tt
           [("Stack", Some 1%nat, Some 2%nat); ("Frame", Some 3%nat, Some 4%nat)]
           "Frame" "Frame" (mkserde 1 (Some 3%nat) (Some 4%nat))
           (mkserde 1 (Some 3%nat) (Some 4%nat))); reflexivity.
Defined.

Lemma attach_frame_witness :
  let m' : @typemap string _ _ nat nat unit :=
    mktypemap ["Stack"; "Frame"; "Heap"] tt
      (<["Heap" := mkserde 2 (Some 8%nat) (Some 9%nat)]> (serdes example_register)) in
  cache m' = cache example_register ∧
  (∀ t' : string, t' ≠ "Heap" → serdeOf m' t' = serdeOf example_register t') ∧
  (custom m' = custom example_register ∨
   custom m' = custom example_register ++ ["Heap"]) ∧
  (serdeOf m' "Heap").2 = true.
Proof.
  intros m'.
  apply (attach_frame example_register m' "Heap" (Some 8%nat) (Some 9%nat)).
  vm_compute. reflexivity.
Defined.

End RegistryFacts.

(** ** Properties of the two-way map *)

Module DoublemapFacts.
Import Doublemap.

Section doublemap.
Context {K V : Type} `{Countable K} `{Countable V}.
Context (zeroK : K) (zeroV : V).

Abbreviation doublemap := (@doublemap K V _ _ _ _).
Abbreviation getK := (@getK K V _ _ _ _ zeroV).
Abbreviation getV := (@getV K V _ _ _ _ zeroK).

Lemma add_Ok (m : doublemap) (k : K) (v : V) :
  (is_Some (fromK m) → is_Some (fromV m)) →
  add m k v =
    Ok (mkdoublemap (Some (<[k := v]> (default ∅ (fromK m))))
                    (Some (<[v := k]> (match fromK m with
                                       | Some _ => default ∅ (fromV m)
                                       | None => ∅
                                       end))), v).
Proof.
  intros Halloc. unfold add. destruct m as [[fk|] [fv|]]; cbn in *; try reflexivity.
  destruct Halloc as [? Hn]; [eauto|discriminate Hn].
Qed.

(** X1: [add] followed by a lookup.  On a map whose two fields were
    allocated together (both nil, as in the zero value, or both made),
    [add k v] returns [v]; afterwards [getK k] is [v] and [getV v] is [k],
    both found, both fields are allocated, and the lookups of the other
    keys and of the other values are what they were. *)
Theorem add_then_get (m : doublemap) (k : K) (v : V) :
  (is_Some (fromK m) ↔ is_Some (fromV m)) →
  ∃ m' : doublemap,
    add m k v = Ok (m', v) ∧
    getK m' k = (v, true) ∧ getV m' v = (k, true) ∧
    (is_Some (fromK m') ∧ is_Some (fromV m')) ∧
    (∀ k', k' ≠ k → getK m' k' = getK m k') ∧
    (∀ v', v' ≠ v → getV m' v' = getV m v').
Proof.
  intros Halloc. eexists. split; [apply add_Ok, Halloc|].
  unfold Doublemap.getK, Doublemap.getV. cbn.
  rewrite !lookup_insert_eq.
  split; [reflexivity|]. split; [reflexivity|]. split; [split; eauto|].
  split.
  - intros k' Hne. rewrite lookup_insert_ne by done.
    destruct (fromK m) as [fk|]; cbn; [reflexivity|]. by rewrite lookup_empty.
  - intros v' Hne. rewrite lookup_insert_ne by done.
    destruct (fromK m) as [fk|] eqn:Hk.
    + destruct (fromV m) as [fv|]; cbn; [reflexivity|]. by rewrite lookup_empty.
    + destruct (fromV m) as [fv|] eqn:Hv.
      * destruct (proj2 Halloc) as [? Hn]; [eauto|discriminate Hn].
      * cbn. by rewrite lookup_empty.
Qed.

(** X2: lookups in a map that holds nothing, the zero value included, find
    nothing and give the zero value with [false]; and [add] panics exactly
    on a map whose first field is allocated and whose second is nil. *)
Theorem get_missing_add_panics (m : doublemap) (k : K) (v : V) :
  (getK doublemap_zero k = (zeroV, false) ∧ getV doublemap_zero v = (zeroK, false)) ∧
  (index (fromK m) k = None ↔ getK m k = (zeroV, false)) ∧
  ((∃ p, add m k v = Panic p) ↔ is_Some (fromK m) ∧ fromV m = None).
Proof.
  split; [split; reflexivity|]. split.
  - unfold Doublemap.getK. destruct (index (fromK m) k) as [v'|].
    + split; [discriminate|]. intros Heq. discriminate Heq.
    + split; reflexivity.
  - unfold add. destruct m as [[fk|] [fv|]]; cbn.
    + split; [intros [p Hp]; discriminate Hp|intros [_ Hn]; discriminate Hn].
    + split; [intros _; split; eauto|intros _; eauto].
    + split; [intros [p Hp]; discriminate Hp|intros [[? Hn] _]; discriminate Hn].
    + split; [intros [p Hp]; discriminate Hp|intros [[? Hn] _]; discriminate Hn].
Qed.

(** X3: the two directions stay in agreement when both the key and the
    value are new. *)
Theorem add_new_consistent (m : doublemap) (k : K) (v : V) :
  consistent m →
  index (fromK m) k = None → index (fromV m) v = None →
  ∀ m' : doublemap, add m k v = Ok (m', v) → consistent m'.
Proof.
  intros Hc Hk Hv m' Hadd.
  destruct m as [fk fv]. unfold add in Hadd. cbn in *.
  assert (Hm' : ∃ gk gv,
            m' = mkdoublemap (Some (<[k:=v]> gk)) (Some (<[v:=k]> gv)) ∧
            gk !! k = None ∧ gv !! v = None ∧
            (∀ a b, gk !! a = Some b ↔ gv !! b = Some a)).
  { destruct fk as [gk|].
    - destruct fv as [gv|]; cbn in Hadd; [|discriminate Hadd].
      injection Hadd as <-. exists gk, gv. repeat split; try done; apply Hc.
    - cbn in Hadd. injection Hadd as <-. exists ∅, ∅.
      repeat split; try apply lookup_empty; rewrite lookup_empty; discriminate. }
  destruct Hm' as (gk & gv & -> & Hgk & Hgv & Hg).
  intros a b. cbn.
  destruct (decide (a = k)) as [->|Hak], (decide (b = v)) as [->|Hbv].
  - rewrite !lookup_insert_eq. split; reflexivity.
  - rewrite lookup_insert_eq, lookup_insert_ne by done. split.
    + intros Heq. injection Heq as Heq. congruence.
    + intros Hb. apply Hg in Hb. congruence.
  - rewrite lookup_insert_ne, lookup_insert_eq by done. split.
    + intros Ha. apply Hg in Ha. congruence.
    + intros Heq. injection Heq as Heq. congruence.
  - rewrite !lookup_insert_ne by done. apply Hg.
Qed.

(** X4: [add] never takes an entry out.  When a key that is bound is bound
    again to another value, the old value is still sent back to the key:
    [getV] of the old value finds the key, [getK] of the key finds the new
    value, and the two directions no longer agree. *)
Theorem add_again_keeps_old_value (m : doublemap) (k : K) (v1 v2 : V) :
  consistent m →
  index (fromK m) k = Some v1 → v1 ≠ v2 →
  ∃ m' : doublemap,
    add m k v2 = Ok (m', v2) ∧
    getK m' k = (v2, true) ∧ getV m' v1 = (k, true) ∧ ¬ consistent m'.
Proof.
  intros Hc Hk Hne.
  assert (Hv : index (fromV m) v1 = Some k) by (apply Hc, Hk).
  destruct m as [[gk|] [gv|]]; cbn in Hk, Hv; try discriminate.
  eexists. split; [reflexivity|].
  unfold Doublemap.getK, Doublemap.getV. cbn.
  rewrite lookup_insert_eq, lookup_insert_ne, Hv by done.
  split; [reflexivity|]. split; [reflexivity|].
  intros Hc'. specialize (Hc' k v1). cbn in Hc'.
  rewrite lookup_insert_eq, lookup_insert_ne, Hv in Hc' by done.
  destruct Hc' as [_ Hc']. specialize (Hc' eq_refl). congruence.
Qed.

End doublemap.

Lemma add_then_get_witness :
  ∃ m',
    add example_doublemap "Frame" 2%nat = Ok (m', 2%nat) ∧
    getK 0%nat m' "Frame" = (2%nat, true) ∧
    getV "" m' 2%nat = ("Frame", true) ∧
    (is_Some (fromK m') ∧ is_Some (fromV m')) ∧
    (∀ k', k' ≠ "Frame" → getK 0%nat m' k' = getK 0%nat example_doublemap k') ∧
    (∀ v', v' ≠ 2%nat → getV "" m' v' = getV "" example_doublemap v').
Proof.
  apply (add_then_get "" 0%nat example_doublemap "Frame" 2%nat).
  split; intros _; eexists; reflexivity.
Defined.

Lemma example_doublemap_consistent : consistent example_doublemap.
Proof.
  intros k v. unfold example_doublemap. cbn.
  rewrite !lookup_singleton_Some. split; intros [? ?]; split; assumption.
Qed.

Lemma add_new_consistent_witness :
  index (Some (<["Frame" := 2%nat]> ({[ "Stack" := 1%nat ]} : gmap string nat))) "Stack"
    = Some 1%nat ↔
  index (Some (<[2%nat := "Frame"]> ({[ 1%nat := "Stack" ]} : gmap nat string))) 1%nat
    = Some "Stack".
Proof.
  exact (add_new_consistent example_doublemap "Frame" 2%nat
           example_doublemap_consistent eq_refl eq_refl _ eq_refl "Stack" 1%nat).
Defined.

Lemma add_again_keeps_old_value_witness :
  ∃ m',
    add example_doublemap "Stack" 3%nat = Ok (m', 3%nat) ∧
    getK 0%nat m' "Stack" = (3%nat, true) ∧
    getV "" m' 1%nat = ("Stack", true) ∧ ¬ consistent m'.
Proof.
  apply (add_again_keeps_old_value "" 0%nat example_doublemap "Stack" 1%nat 3%nat).
  - exact example_doublemap_consistent.
  - reflexivity.
  - discriminate.
Defined.

End DoublemapFacts.

(** ** Properties of the serde generator *)

Module GeneratorFacts.
Import Generator.

(** *** Imports *)

(** X21: [ensureImport] binds a name to a path once.  It panics exactly
    when the name is bound to another path, and then names both paths.
    Otherwise it returns, the name is bound to the path, every other
    name and everything else in the generator is as it was, the map of
    imports is allocated, and a second call changes nothing. *)
Theorem ensureImport_binds (n path : string) (g : generator) :
  (∀ p : string, default ∅ (imports g) !! n = Some p → p ≠ path →
     ensureImport n path g =
     Some (Panic (PanicString
       ("two imports named '" +:+ n +:+ "': '" +:+ path +:+ "' and '"
        +:+ p +:+ "'")))) ∧
  (default ∅ (imports g) !! n = None ∨ default ∅ (imports g) !! n = Some path →
   ∃ g' : generator,
     ensureImport n path g = Some (Ok (tt, g')) ∧
     imports g' = Some (<[n := path]> (default ∅ (imports g))) ∧
     known g' = known g ∧ s g' = s g ∧ output g' = output g ∧ main g' = main g ∧
     ensureImport n path g' = Some (Ok (tt, g'))).
Proof.
  split.
  - intros p Hp Hne. unfold ensureImport, bind, modify, gets.
    destruct (imports g) as [m|] eqn:Hm; cbn in *.
    + rewrite Hm. cbn. rewrite Hp. rewrite bool_decide_eq_true_2 by done. reflexivity.
    + rewrite lookup_empty in Hp. discriminate Hp.
  - intros Hn. unfold ensureImport, bind, modify, gets.
    destruct g as [k [m|] o mn t]; cbn in *.
    + destruct Hn as [Hn|Hn]; rewrite Hn.
      * eexists. split; [reflexivity|]. cbn. repeat split.
        rewrite lookup_insert_eq. rewrite bool_decide_eq_false_2 by (intros H; by apply H).
        reflexivity.
      * rewrite bool_decide_eq_false_2 by (intros H; by apply H).
        eexists. split; [reflexivity|]. cbn. rewrite Hn.
        rewrite bool_decide_eq_false_2 by (intros H; by apply H).
        repeat split. f_equal. symmetry. apply insert_id. exact Hn.
    + rewrite lookup_empty. eexists. split; [reflexivity|]. cbn.
      rewrite lookup_insert_eq. rewrite bool_decide_eq_false_2 by (intros H; by apply H).
      repeat split.
Qed.

(** *** Locations of generated functions *)

Lemma ContainsFunc_app (s1 s2 : string) (f : Ascii.ascii -> bool) :
  ContainsFunc (s1 +:+ s2) f = ContainsFunc s1 f || ContainsFunc s2 f.
Proof.
  induction s1 as [|c s1 IH]; simpl; [reflexivity|].
  rewrite IH. apply orb_assoc.
Qed.

Lemma pretty_N_char_valid (x : N) : isInvalidChar (pretty_N_char x) = false.
Proof.
  unfold pretty_N_char. repeat case_match; reflexivity.
Qed.

Lemma pretty_N_go_valid (x : N) :
  ∀ t : string, ContainsFunc t isInvalidChar = false →
    ContainsFunc (pretty_N_go x t) isInvalidChar = false.
Proof.
  induction (N.lt_wf_0 x) as [x _ IH]. intros t Ht.
  destruct (decide (0 < x)%N) as [Hpos|Hzero].
  - rewrite pretty_N_go_step by exact Hpos. apply IH.
    + apply N.div_lt; [exact Hpos|reflexivity].
    + cbn. rewrite pretty_N_char_valid, Ht. reflexivity.
  - assert (x = 0%N) as -> by lia. rewrite pretty_N_go_0. exact Ht.
Qed.

Lemma pretty_nat_valid (n : nat) : ContainsFunc (pretty n) isInvalidChar = false.
Proof.
  unfold pretty, pretty_nat, pretty, pretty_N.
  destruct (decide (N.of_nat n = 0%N)); [reflexivity|].
  apply pretty_N_go_valid. reflexivity.
Qed.

(** X22: [newGenLocation] and [get].  For a type that is not known,
    [newGenLocation] returns locations without package that are not
    methods, named [Serialize_n] and [Deserialize_n] for one [n] that is
    not empty and is made of letters and digits of ASCII only: the name
    that was asked for when it is such a name, and [gen] followed by the
    number of known types otherwise.  Afterwards [get] finds the type with
    these locations, every other type is known or not as before, and
    nothing is written.  For a type that is known, [newGenLocation]
    panics. *)
Theorem newGenLocation_then_get (t : GType) (nm : string) (g : generator) :
  (known g !! t = None →
   ∃ (n : string) (g' : generator),
     let loc :=
       mklocations (mklocation "" ("Serialize_" +:+ n) false)
                   (mklocation "" ("Deserialize_" +:+ n) false) in
     newGenLocation t nm g = Some (Ok (loc, g')) ∧
     n ≠ "" ∧ ContainsFunc n isInvalidChar = false ∧
     (nm ≠ "" → ContainsFunc nm isInvalidChar = false → n = nm) ∧
     (nm = "" ∨ ContainsFunc nm isInvalidChar = true →
      n = "gen" +:+ pretty (size (known g))) ∧
     get t g' = Some (Ok ((loc, true), g')) ∧
     (∀ t' : GType, t' ≠ t → known g' !! t' = known g !! t') ∧
     imports g' = imports g ∧ s g' = s g) ∧
  (is_Some (known g !! t) →
   newGenLocation t nm g =
   Some (Panic (PanicString "trying to override known location"))).
Proof.
  split.
  - intros Hnew.
    exists (if bool_decide
                 ((if ContainsFunc nm isInvalidChar then "" else nm) = "")
            then "gen" +:+ pretty (size (known g))
            else if ContainsFunc nm isInvalidChar then "" else nm).
    eexists. cbv zeta. split.
    { unfold newGenLocation, bind, gets, modify. rewrite Hnew. reflexivity. }
    destruct (ContainsFunc nm isInvalidChar) eqn:Hinv.
    + rewrite bool_decide_eq_true_2 by reflexivity.
      split; [discriminate|]. split.
      { rewrite ContainsFunc_app, pretty_nat_valid. reflexivity. }
      split; [intros _ Hc; discriminate Hc|]. split; [reflexivity|].
      split; [|split; [|split]]; try reflexivity.
      * unfold get, bind, gets. cbn. rewrite lookup_insert_eq. reflexivity.
      * intros t' Hne. cbn. apply lookup_insert_ne. congruence.
    + destruct (bool_decide (nm = "")) eqn:Hempty.
      * apply bool_decide_eq_true_1 in Hempty. subst nm.
        split; [discriminate|].
        split; [rewrite ContainsFunc_app, pretty_nat_valid; reflexivity|].
        split; [intros Hne; contradiction|]. split; [reflexivity|].
        split; [|split; [|split]]; try reflexivity.
        -- unfold get, bind, gets. cbn. rewrite lookup_insert_eq. reflexivity.
        -- intros t' Hne. cbn. apply lookup_insert_ne. congruence.
      * apply bool_decide_eq_false_1 in Hempty.
        split; [exact Hempty|]. split; [exact Hinv|].
        split; [reflexivity|].
        split; [intros [Heq|Hc]; [contradiction|discriminate Hc]|].
        split; [|split; [|split]]; try reflexivity.
        -- unfold get, bind, gets. cbn. rewrite lookup_insert_eq. reflexivity.
        -- intros t' Hne. cbn. apply lookup_insert_ne. congruence.
  - intros [loc Hloc]. unfold newGenLocation, bind, gets, modify.
    rewrite Hloc. reflexivity.
Qed.

(** *** Basic types *)

(** X23: [Basic] and [basicKindString].  For every kind, [Basic] returns
    exactly when the kind is one of the fourteen kinds with a size that
    have a case and the import of package serde goes through; the
    locations are then in package serde, named [Serialize] and
    [Deserialize] followed by the name that [basicKindString] gives the
    kind, and nothing but the import is changed.  For every other kind,
    [int], [uint] and [uintptr] among them, it panics. *)
Theorem Basic_locations (k : BasicKind) (nm : string) (g : generator)
    (loc : locations) (g' : generator) :
  (Basic k nm g = Some (Ok (loc, g')) ↔
   supportedKind k = true ∧ loc = serdeLocations k ∧
   ensureImport "serde" "github.com/stealthrocket/coroutine/serde" g
     = Some (Ok (tt, g'))) ∧
  (supportedKind k = false → ∃ p : PanicValue, Basic k nm g = Some (Panic p)).
Proof.
  unfold Basic.
  split.
  - split.
    + intros Hb. apply StepFacts.bind_inv in Hb as ([] & g1 & He & Hb).
      destruct k; try discriminate Hb; apply StepFacts.ret_inv in Hb as [-> ->];
        (split; [reflexivity|split; [reflexivity|exact He]]).
    + intros (Hk & -> & He). unfold bind. rewrite He.
      destruct k; try discriminate Hk; reflexivity.
  - intros Hk. unfold bind.
    destruct (ensureImport _ _ g) as [[[[] g1]|p]|] eqn:He.
    + destruct k; try discriminate Hk; eexists; reflexivity.
    + eauto.
    + exfalso. unfold ensureImport, bind, modify, gets in He.
      destruct (imports g); cbn in He;
        repeat (match type of He with
                | context [match ?x with _ => _ end] => destruct x
                end; try discriminate He).
Qed.

(** *** The method [Type] *)

(** Induction over a type and the types of its fields. *)
Section GType_tree_ind.
Context (P : GType -> Prop).
Context (HBasic : ∀ k, P (TBasic k)).
Context (HStruct : ∀ fs, Forall (λ f : string * GType, P f.2) fs → P (TStruct fs)).
Context (HNamed : ∀ n u, P u → P (TNamed n u)).
Context (HSlice : ∀ e, P e → P (TSlice e)).
Context (HOther : ∀ n, P (TOther n)).

Fixpoint GType_tree_ind (t : GType) : P t :=
  match t with
  | TBasic k => HBasic k
  | TStruct fs =>
      HStruct fs
        ((fix all (l : list (string * GType)) : Forall (λ f, P f.2) l :=
            match l with
            | [] => List.Forall_nil _
            | f :: l =>
                @List.Forall_cons _ (λ f : string * GType, P f.2) f l
                  (GType_tree_ind f.2) (all l)
            end) fs)
  | TNamed n u => HNamed n u (GType_tree_ind u)
  | TSlice e => HSlice e (GType_tree_ind e)
  | TOther n => HOther n
  end.
End GType_tree_ind.

Lemma grows_refl (g : generator) : grows g g.
Proof. split; [reflexivity|auto]. Qed.

Lemma grows_trans (g1 g2 g3 : generator) : grows g1 g2 → grows g2 g3 → grows g1 g3.
Proof. intros [Hk1 Hi1] [Hk2 Hi2]. split; [etrans; eauto|auto]. Qed.

Lemma W_grows (line : string) (g g' : generator) (x : unit) :
  W line g = Some (Ok (x, g')) → grows g g'.
Proof.
  unfold W, modify. intros Heq. injection Heq as _ <-. split; cbn; [reflexivity|auto].
Qed.

Lemma get_inv (t : GType) (g g' : generator) (r : locations * bool) :
  get t g = Some (Ok (r, g')) →
  g' = g ∧
  r = match known g !! t with
      | Some loc => (loc, true)
      | None => (locations_zero, false)
      end.
Proof.
  unfold get, bind, gets. destruct (known g !! t); intros Heq;
    injection Heq as <- <-; auto.
Qed.

Lemma get_known (t : GType) (g : generator) (loc : locations) :
  known g !! t = Some loc → get t g = Some (Ok ((loc, true), g)).
Proof. intros Hk. unfold get, bind, gets. rewrite Hk. reflexivity. Qed.

Lemma newGenLocation_grows (t : GType) (nm : string) (g g' : generator)
    (loc : locations) :
  newGenLocation t nm g = Some (Ok (loc, g')) →
  grows g g' ∧ known g' !! t = Some loc.
Proof.
  unfold newGenLocation, bind, gets, modify.
  destruct (known g !! t) as [prev|] eqn:Hprev; [discriminate|].
  intros Heq. injection Heq as <- <-. cbn. split; [split; cbn|].
  - apply insert_subseteq. exact Hprev.
  - auto.
  - apply lookup_insert_eq.
Qed.

Lemma serializeCallForLoc_grows (loc : locations) (g g' : generator) (x : unit) :
  serializeCallForLoc loc g = Some (Ok (x, g')) → grows g g'.
Proof.
  unfold serializeCallForLoc.
  repeat match goal with |- context [if ?b then _ else _] => destruct b end;
    try discriminate; apply W_grows.
Qed.

Lemma deserializeCallForLoc_grows (loc : locations) (g g' : generator) (x : unit) :
  deserializeCallForLoc loc g = Some (Ok (x, g')) → grows g g'.
Proof.
  unfold deserializeCallForLoc.
  repeat match goal with |- context [if ?b then _ else _] => destruct b end;
    try discriminate; apply W_grows.
Qed.

Lemma ensureImport_grows (n path : string) (g g' : generator) (x : unit) :
  ensureImport n path g = Some (Ok (x, g')) →
  grows g g' ∧ default ∅ (imports g') !! n = Some path.
Proof.
  destruct x. unfold ensureImport, bind, modify, gets.
  destruct g as [k [m|] o mn t]; cbn.
  - destruct (m !! n) as [p|] eqn:Hp.
    + destruct (bool_decide (p ≠ path)) eqn:Hne; [discriminate|].
      apply bool_decide_eq_false_1 in Hne.
      assert (p = path) as -> by (destruct (decide (p = path)); [done|contradiction]).
      intros Heq. injection Heq as <-. split; [apply grows_refl|exact Hp].
    + intros Heq. injection Heq as <-. cbn. split; [split; cbn; [reflexivity|]|].
      * intros n' p' Hn'. destruct (decide (n' = n)) as [->|Hne]; [congruence|].
        rewrite lookup_insert_ne by done. exact Hn'.
      * apply lookup_insert_eq.
  - rewrite lookup_empty. intros Heq. injection Heq as <-. cbn.
    split; [split; cbn; [reflexivity|]|apply lookup_insert_eq].
    intros n' p' Hn'. rewrite lookup_empty in Hn'. discriminate Hn'.
Qed.

Lemma ensureImport_present (n path : string) (g : generator) :
  default ∅ (imports g) !! n = Some path →
  ensureImport n path g = Some (Ok (tt, g)).
Proof.
  unfold ensureImport, bind, modify, gets.
  destruct g as [k [m|] o mn t]; cbn; intros Hn.
  - rewrite Hn. rewrite bool_decide_eq_false_2 by (intros H; by apply H). reflexivity.
  - rewrite lookup_empty in Hn. discriminate Hn.
Qed.

Lemma Basic_inv (k : BasicKind) (nm : string) (g g' : generator) (loc : locations) :
  Basic k nm g = Some (Ok (loc, g')) →
  supportedKind k = true ∧ loc = serdeLocations k ∧
  ensureImport "serde" "github.com/stealthrocket/coroutine/serde" g = Some (Ok (tt, g')).
Proof.
  unfold Basic. intros Hb. apply StepFacts.bind_inv in Hb as ([] & g1 & He & Hb).
  destruct k; try discriminate Hb; apply StepFacts.ret_inv in Hb as [-> ->];
    (split; [reflexivity|split; [reflexivity|exact He]]).
Qed.

Lemma Basic_Ok (k : BasicKind) (nm : string) (g g' : generator) :
  supportedKind k = true →
  ensureImport "serde" "github.com/stealthrocket/coroutine/serde" g = Some (Ok (tt, g')) →
  Basic k nm g = Some (Ok (serdeLocations k, g')).
Proof.
  intros Hk He. unfold Basic, bind. rewrite He.
  destruct k; try discriminate Hk; reflexivity.
Qed.

Lemma loop_grows {A B} (f : A -> G B) (l : list A) :
  Forall (λ x, ∀ g b g', f x g = Some (Ok (b, g')) → grows g g') l →
  ∀ g bs g', mapM f l g = Some (Ok (bs, g')) → grows g g'.
Proof.
  intros Hl g bs g' Hm.
  eapply (StepFacts.mapM_post grows (λ _, True) f l grows_refl grows_trans); [|exact Hm].
  eapply Forall_impl; [exact Hl|]. cbn. eauto.
Qed.

Ltac inv_binds H :=
  repeat (let Hs := fresh "Hs" in
          apply StepFacts.bind_inv in H as (? & ? & Hs & H)).

Ltac to_grows :=
  repeat match goal with
  | H : W _ _ = Some (Ok _) |- _ => apply W_grows in H
  | H : serializeCallForLoc _ _ = Some (Ok _) |- _ =>
      apply serializeCallForLoc_grows in H
  | H : deserializeCallForLoc _ _ = Some (Ok _) |- _ =>
      apply deserializeCallForLoc_grows in H
  end.

Ltac grows_chain :=
  repeat first [ eassumption | apply grows_refl
               | eapply grows_trans; [eassumption|] ].

Section generate.
Context (TypeNameFor typeString dynamicType : GType -> string).

Abbreviation Type_ := (Generator.Type_ TypeNameFor typeString dynamicType).

Abbreviation settled := (Generator.settled TypeNameFor typeString dynamicType).

Lemma known_settled_struct (fs : list (string * GType)) (loc : locations)
    (g : generator) :
  known g !! TStruct fs = Some loc → settled (TStruct fs) loc g.
Proof.
  intros Hk nm g' [Hsub _]. cbn [Generator.Type_]. unfold Struct, bind.
  rewrite (get_known _ _ loc); [reflexivity|].
  eapply lookup_weaken; eauto.
Qed.

Lemma known_settled_slice (e : GType) (loc : locations) (g : generator) :
  known g !! TSlice e = Some loc → settled (TSlice e) loc g.
Proof.
  intros Hk nm g' [Hsub _]. cbn [Generator.Type_]. unfold Slice, bind.
  rewrite (get_known _ _ loc); [reflexivity|].
  eapply lookup_weaken; eauto.
Qed.

Lemma Type_post (t : GType) :
  ∀ nm g loc g', Type_ t nm g = Some (Ok (loc, g')) →
    grows g g' ∧ settled t loc g'.
Proof.
  induction t as [k|fs IH|n u IH|e IH|n] using GType_tree_ind;
    intros nm g loc g' Ht; cbn [Generator.Type_] in Ht.
  - (* Basic *)
    apply Basic_inv in Ht as (Hk & -> & He).
    apply ensureImport_grows in He as [Hg Hserde].
    split; [exact Hg|].
    intros nm2 g'' [_ Himp]. cbn [Generator.Type_].
    apply Basic_Ok; [exact Hk|]. apply ensureImport_present, Himp, Hserde.
  - (* Struct *)
    unfold Struct in Ht.
    apply StepFacts.bind_inv in Ht as (found & g0 & Hget & Ht).
    apply get_inv in Hget as [-> ->].
    destruct (known g !! TStruct fs) as [l|] eqn:Hk; cbn [snd fst] in Ht.
    { apply StepFacts.ret_inv in Ht as [-> ->].
      split; [apply grows_refl|]. apply known_settled_struct, Hk. }
    apply StepFacts.bind_inv in Ht as (loc0 & g1 & Hnew & Ht).
    apply newGenLocation_grows in Hnew as [Hg1 Hk1].
    assert (Hfield : Forall (λ f : string * GType,
              ∀ nm g loc g', Type_ f.2 nm g = Some (Ok (loc, g')) → grows g g') fs).
    { eapply Forall_impl; [exact IH|]. intros f Hf nm0 g2 loc2 g3 H23.
      exact (proj1 (Hf _ _ _ _ H23)). }
    inv_binds Ht. apply StepFacts.ret_inv in Ht as [-> <-].
    repeat match goal with
    | H : mapM _ fs _ = Some (Ok _) |- _ =>
        apply loop_grows in H;
          [|eapply Forall_impl; [exact Hfield|];
            let Hs := fresh "Hstep" in
            intros f Hf g2 b2 g3 Hs; cbv beta zeta in Hs;
            first [ exact (Hf _ _ _ _ Hs)
                  | inv_binds Hs; to_grows;
                    match goal with
                    | H1 : Type_ _ _ _ = Some (Ok _) |- _ => apply Hf in H1
                    end; grows_chain ]]
    end.
    to_grows.
    assert (Hg : grows g1 g') by grows_chain.
    split; [eapply grows_trans; eauto|].
    apply known_settled_struct. destruct Hg as [Hsub _].
    eapply lookup_weaken; eauto.
  - (* Named *)
    unfold Named in Ht. apply IH in Ht as [Hg Hs]. split; [exact Hg|].
    intros nm2 g'' Hg''. cbn [Generator.Type_]. unfold Named. apply Hs, Hg''.
  - (* Slice *)
    unfold Slice in Ht.
    apply StepFacts.bind_inv in Ht as (found & g0 & Hget & Ht).
    apply get_inv in Hget as [-> ->].
    destruct (known g !! TSlice e) as [l|] eqn:Hk; cbn [snd fst] in Ht.
    { apply StepFacts.ret_inv in Ht as [-> ->].
      split; [apply grows_refl|]. apply known_settled_slice, Hk. }
    apply StepFacts.bind_inv in Ht as (loc0 & g1 & Hnew & Ht).
    apply newGenLocation_grows in Hnew as [Hg1 Hk1].
    apply StepFacts.bind_inv in Ht as (eloc & g2 & He & Ht).
    apply IH in He as [Hg2 _].
    inv_binds Ht. apply StepFacts.ret_inv in Ht as [-> <-].
    to_grows.
    assert (Hg : grows g1 g') by grows_chain.
    split; [eapply grows_trans; eauto|].
    apply known_settled_slice. destruct Hg as [Hsub _].
    eapply lookup_weaken; eauto.
  - discriminate Ht.
Qed.

End generate.

Section generate_facts.
Context (TypeNameFor typeString dynamicType : GType -> string).

Abbreviation Type_ := (Generator.Type_ TypeNameFor typeString dynamicType).

(** X24: [Type] generates the code of a type once.  When a call of [Type]
    has returned the locations of a type, the generator holds all the
    types and imports it held before, and every later call of [Type] for
    that type, under whatever name and in whatever later state of the
    generator, returns the same locations and changes nothing: no line is
    written, no type is registered and no import is added. *)
Theorem Type_generates_once (t : GType) (nm : string) (g : generator)
    (loc : locations) (g' : generator) :
  Type_ t nm g = Some (Ok (loc, g')) →
  grows g g' ∧
  ∀ (nm' : string) (g'' : generator), grows g' g'' →
    Type_ t nm' g'' = Some (Ok (loc, g'')).
Proof. intros Ht. exact (Type_post TypeNameFor typeString dynamicType t nm g loc g' Ht). Qed.

Lemma W_never (line : string) (g : generator) (p : PanicValue) :
  W line g ≠ Some (Panic p).
Proof. unfold W, modify. intros Hw. discriminate Hw. Qed.

Lemma get_never (t : GType) (g : generator) (p : PanicValue) :
  get t g ≠ Some (Panic p).
Proof. unfold get, bind, gets. destruct (known g !! t); intros Hg; discriminate Hg. Qed.

Lemma serializeCallForLoc_never (loc : locations) (g : generator) :
  serializeCallForLoc loc g ≠ Some (Panic overridePanic).
Proof.
  unfold serializeCallForLoc.
  repeat match goal with |- context [if ?b then _ else _] => destruct b end;
    try (intros Hc; discriminate Hc); apply W_never.
Qed.

Lemma deserializeCallForLoc_never (loc : locations) (g : generator) :
  deserializeCallForLoc loc g ≠ Some (Panic overridePanic).
Proof.
  unfold deserializeCallForLoc.
  repeat match goal with |- context [if ?b then _ else _] => destruct b end;
    try (intros Hc; discriminate Hc); apply W_never.
Qed.

Lemma ensureImport_never (n path : string) (g : generator) :
  ensureImport n path g ≠ Some (Panic overridePanic).
Proof.
  unfold ensureImport, bind, modify, gets.
  destruct g as [k [m|] o mn t]; cbn.
  - destruct (m !! n) as [p|]; [|intros He; discriminate He].
    destruct (bool_decide (p ≠ path)); intros He; discriminate He.
  - rewrite lookup_empty. intros He. discriminate He.
Qed.

Lemma Basic_never (k : BasicKind) (nm : string) (g : generator) :
  Basic k nm g ≠ Some (Panic overridePanic).
Proof.
  unfold Basic. intros Hb.
  apply StepFacts.bind_panic_inv in Hb as [Hb|(a & g1 & _ & Hb)].
  - exact (ensureImport_never _ _ _ Hb).
  - destruct k; discriminate Hb.
Qed.

Lemma newGenLocation_never (t : GType) (nm : string) (g : generator) :
  known g !! t = None → newGenLocation t nm g ≠ Some (Panic overridePanic).
Proof.
  intros Hk. unfold newGenLocation, bind, gets, modify. rewrite Hk.
  intros Hn. discriminate Hn.
Qed.

Ltac never_step H :=
  first [ exact (W_never _ _ _ H)
        | exact (serializeCallForLoc_never _ _ H)
        | exact (deserializeCallForLoc_never _ _ H) ].

Ltac never_binds H :=
  repeat (apply StepFacts.bind_panic_inv in H as [H|(? & ? & _ & H)];
          [solve [never_step H | eauto]|]).

Lemma Type_never_overrides (t : GType) :
  ∀ nm g, Type_ t nm g ≠ Some (Panic overridePanic).
Proof.
  induction t as [k|fs IH|n u IH|e IH|n] using GType_tree_ind;
    intros nm g Ht; cbn [Generator.Type_] in Ht.
  - exact (Basic_never _ _ _ Ht).
  - unfold Struct in Ht.
    apply StepFacts.bind_panic_inv in Ht as [Ht|(found & g0 & Hget & Ht)];
      [exact (get_never _ _ _ Ht)|].
    apply get_inv in Hget as [-> ->].
    destruct (known g !! TStruct fs) as [l|] eqn:Hk; cbn [snd fst] in Ht;
      [discriminate Ht|].
    apply StepFacts.bind_panic_inv in Ht as [Ht|(loc0 & g1 & _ & Ht)];
      [exact (newGenLocation_never _ _ _ Hk Ht)|].
    assert (Hloop1 : ∀ g, mapM (λ f : string * GType,
                       Type_ f.2 (TypeNameFor f.2)) fs g ≠ Some (Panic overridePanic)).
    { apply StepFacts.mapM_never. eapply Forall_impl; [exact IH|].
      intros f Hf g2. apply Hf. }
    assert (Hloop2 : ∀ g, mapM (λ f : string * GType,
                       floc <- Type_ f.2 (TypeNameFor f.2) ;;
                       _ <- W "{" ;;
                       _ <- W ("x := x." +:+ f.1) ;;
                       _ <- serializeCallForLoc floc ;;
                       W "}") fs g ≠ Some (Panic overridePanic)).
    { apply StepFacts.mapM_never. eapply Forall_impl; [exact IH|].
      intros f Hf g2 Hs.
      apply StepFacts.bind_panic_inv in Hs as [Hs|(? & ? & _ & Hs)];
        [exact (Hf _ _ Hs)|].
      never_binds Hs. never_step Hs. }
    assert (Hloop3 : ∀ g, mapM (λ f : string * GType,
                       floc <- Type_ f.2 (TypeNameFor f.2) ;;
                       _ <- W "{" ;;
                       _ <- W ("var x " +:+ TypeNameFor f.2) ;;
                       _ <- deserializeCallForLoc floc ;;
                       _ <- W ("z." +:+ f.1 +:+ " = x") ;;
                       W "}") fs g ≠ Some (Panic overridePanic)).
    { apply StepFacts.mapM_never. eapply Forall_impl; [exact IH|].
      intros f Hf g2 Hs.
      apply StepFacts.bind_panic_inv in Hs as [Hs|(? & ? & _ & Hs)];
        [exact (Hf _ _ Hs)|].
      never_binds Hs. never_step Hs. }
    repeat (apply StepFacts.bind_panic_inv in Ht as [Ht|(? & ? & _ & Ht)];
            [solve [ never_step Ht | exact (Hloop1 _ Ht) | exact (Hloop2 _ Ht)
                   | exact (Hloop3 _ Ht) ]|]).
    discriminate Ht.
  - unfold Named in Ht. exact (IH _ _ Ht).
  - unfold Slice in Ht.
    apply StepFacts.bind_panic_inv in Ht as [Ht|(found & g0 & Hget & Ht)];
      [exact (get_never _ _ _ Ht)|].
    apply get_inv in Hget as [-> ->].
    destruct (known g !! TSlice e) as [l|] eqn:Hk; cbn [snd fst] in Ht;
      [discriminate Ht|].
    apply StepFacts.bind_panic_inv in Ht as [Ht|(loc0 & g1 & _ & Ht)];
      [exact (newGenLocation_never _ _ _ Hk Ht)|].
    apply StepFacts.bind_panic_inv in Ht as [Ht|(eloc & g2 & _ & Ht)];
      [exact (IH _ _ Ht)|].
    repeat (apply StepFacts.bind_panic_inv in Ht as [Ht|(? & ? & _ & Ht)];
            [solve [never_step Ht]|]).
    discriminate Ht.
  - discriminate Ht.
Qed.

(** X25: [Type] never overrides a known location.  [newGenLocation] panics
    when it is asked for a type that is known, but [Type] and [Typedef]
    never end in that panic, whatever the type, the name and the state of
    the generator: a type is looked up before its locations are made.
    And [Type] does panic on a type that it has no case for, on a basic
    kind outside its cases among them. *)
Theorem Type_never_overrides_known (t : GType) (nm : string) (g : generator) :
  Type_ t nm g ≠ Some (Panic overridePanic) ∧
  Typedef TypeNameFor typeString dynamicType t g ≠ Some (Panic overridePanic) ∧
  (∀ n : nat, Type_ (TOther n) nm g =
     Some (Panic (PanicString
       ("type generator not implemented: " +:+ typeString (TOther n) +:+ " ("
        +:+ dynamicType (TOther n) +:+ ")")))) ∧
  (∀ k : BasicKind, supportedKind k = false →
     ∃ p : PanicValue, Type_ (TBasic k) nm g = Some (Panic p) ∧ p ≠ overridePanic).
Proof.
  split; [apply Type_never_overrides|].
  split; [apply Type_never_overrides|].
  split; [reflexivity|].
  intros k Hk. cbn [Generator.Type_].
  destruct (Basic k nm g) as [[[loc g']|p]|] eqn:Hb.
  - apply Basic_inv in Hb as [Hs _]. congruence.
  - exists p. split; [reflexivity|]. intros ->. exact (Basic_never _ _ _ Hb).
  - exfalso. unfold Basic, bind in Hb.
    destruct (ensureImport _ _ g) as [[[[] g1]|p]|] eqn:He; try discriminate Hb.
    + destruct k; discriminate Hb.
    + unfold ensureImport, bind, modify, gets in He.
      destruct (imports g); cbn in He;
        repeat (match type of He with
                | context [match ?x with _ => _ end] => destruct x
                end; try discriminate He).
Qed.

End generate_facts.

Lemma Type_generates_once_witness :
  ∃ (loc : locations) (g' : generator),
    Type_ example_TypeNameFor example_typeString example_typeString
      example_Point "Point" example_generator = Some (Ok (loc, g')) ∧
    Generator.name (serializer loc) = "Serialize_Point" ∧
    grows example_generator g' ∧
    ∀ (nm' : string) (g'' : generator), grows g' g'' →
      Type_ example_TypeNameFor example_typeString example_typeString
        example_Point nm' g'' = Some (Ok (loc, g'')).
Proof.
  eexists _, _. split; [vm_compute; reflexivity|]. split; [reflexivity|].
  eapply (Type_generates_once example_TypeNameFor example_typeString
            example_typeString example_Point "Point" example_generator).
  vm_compute. reflexivity.
Defined.

(** *** The file of the generated code *)

Lemma LastIndexByte_none (file : string) :
  ContainsFunc file isDot = false → LastIndexByte file dot = -1.
Proof.
  induction file as [|a file IH]; cbn; [reflexivity|].
  intros Hc. apply orb_false_iff in Hc as [Ha Hfile].
  rewrite IH by exact Hfile. rewrite bool_decide_eq_true_2 by reflexivity.
  unfold isDot in Ha. rewrite Ha. reflexivity.
Qed.

Lemma LastIndexByte_last (stem ext : string) :
  ContainsFunc ext isDot = false →
  LastIndexByte (stem +:+ String.String dot ext) dot = Z.of_nat (String.length stem).
Proof.
  intros Hext. induction stem as [|a stem IH].
  - change (LastIndexByte (String.String dot ext) dot = 0).
    cbn [LastIndexByte]. rewrite (LastIndexByte_none ext) by exact Hext.
    rewrite !bool_decide_eq_true_2 by reflexivity. reflexivity.
  - simpl. rewrite IH. rewrite bool_decide_eq_false_2 by lia. lia.
Qed.

Lemma substring_prefix (stem rest : string) :
  String.substring 0 (String.length stem) (stem +:+ rest) = stem.
Proof.
  induction stem as [|a stem IH]; simpl.
  - destruct rest; reflexivity.
  - rewrite IH. reflexivity.
Qed.

(** X26: [TargetFile] puts [_serde.go] in the place of the extension of
    the file of the type, whatever the extension is.  When the file name
    is [stem.ext] with no dot in [ext], the result is the directory
    joined with [stem_serde.go]; the stem may hold dots and may be empty,
    and [ext] need not be [go].  When the file name holds no dot,
    [TargetFile] panics with the file name. *)
Theorem TargetFile_replaces_extension
    (Split : string -> string * string) (Join : string -> string -> string)
    (Filename : string) :
  (∀ dir stem ext : string,
     Split Filename = (dir, stem +:+ "." +:+ ext) →
     ContainsFunc ext isDot = false →
     TargetFile Split Join Filename = Ok (Join dir (stem +:+ "_serde.go"))) ∧
  (∀ dir file : string,
     Split Filename = (dir, file) →
     ContainsFunc file isDot = false →
     TargetFile Split Join Filename =
     Panic (PanicString ("files does not end in .go: " +:+ file))).
Proof.
  split.
  - intros dir stem ext Hsplit Hext. unfold TargetFile. rewrite Hsplit.
    change ("." +:+ ext) with (String.String dot ext).
    rewrite LastIndexByte_last by exact Hext.
    rewrite bool_decide_eq_false_2 by lia.
    rewrite Nat2Z.id, substring_prefix. reflexivity.
  - intros dir file Hsplit Hfile. unfold TargetFile. rewrite Hsplit.
    rewrite LastIndexByte_none by exact Hfile.
    rewrite bool_decide_eq_true_2 by reflexivity. reflexivity.
Qed.

Example TargetFile_examples :
  TargetFile example_Split example_Join "pkg/point.go" = Ok "pkg/point_serde.go" ∧
  TargetFile example_Split example_Join "pkg/point.pb.txt" = Ok "pkg/point.pb_serde.go" ∧
  TargetFile example_Split example_Join "Makefile" =
    Panic (PanicString "files does not end in .go: Makefile").
Proof. repeat split. Qed.

(** *** The type definition *)

Lemma find_named (nm : string) (pkg : Package) :
  match List.find (λ d : Ast.Ident * option GoTypes.Object,
                     bool_decide (Ast.Name d.1 = nm)) (map_to_list (Defs pkg)) with
  | Some (id, d) => Defs pkg !! id = Some d ∧ Ast.Name id = nm
  | None => ∀ id d, Defs pkg !! id = Some d → Ast.Name id ≠ nm
  end.
Proof.
  destruct (List.find _ _) as [[id d]|] eqn:Hfind.
  - apply List.find_some in Hfind as [Hin Hname].
    apply list_elem_of_In, elem_of_map_to_list in Hin.
    apply bool_decide_eq_true_1 in Hname. auto.
  - intros id d Hd Hname.
    apply elem_of_map_to_list, list_elem_of_In in Hd.
    apply (List.find_none _ _ Hfind) in Hd. cbn in Hd.
    apply bool_decide_eq_false_1 in Hd. contradiction.
Qed.

(** X27: [findTypeDef] finds a definition by the name of its identifier.
    It returns [notype] exactly when no package of the list has an
    identifier of that name among its definitions.  Otherwise it returns
    a package of the list and the object of an identifier of that name
    in it, nil when the identifier defines no object, and no package
    before that one in the list has an identifier of that name. *)
Theorem findTypeDef_finds (nm : string) (pkgs : list Package) :
  (findTypeDef nm pkgs = notype ↔
   ∀ pkg : Package, pkg ∈ pkgs →
     ∀ id d, Defs pkg !! id = Some d → Ast.Name id ≠ nm) ∧
  (findTypeDef nm pkgs ≠ notype →
   ∃ (before after : list Package) (pkg : Package) (id : Ast.Ident),
     pkgs = before ++ pkg :: after ∧
     typedef_pkg (findTypeDef nm pkgs) = Some pkg ∧
     Defs pkg !! id = Some (obj (findTypeDef nm pkgs)) ∧ Ast.Name id = nm ∧
     ∀ p : Package, p ∈ before →
       ∀ id' d, Defs p !! id' = Some d → Ast.Name id' ≠ nm).
Proof.
  induction pkgs as [|pkg pkgs [IH1 IH2]]; cbn [findTypeDef].
  - split.
    + split; [intros _ pkg Hin; inversion Hin|reflexivity].
    + intros Hne. contradiction.
  - pose proof (find_named nm pkg) as Hfind.
    destruct (List.find _ _) as [[id d]|].
    + destruct Hfind as [Hd Hname]. split.
      * split; [intros Heq; discriminate Heq|].
        intros Hnone. exfalso. eapply Hnone; [by left|exact Hd|exact Hname].
      * intros _. exists [], pkgs, pkg, id. cbn.
        split; [reflexivity|]. split; [reflexivity|]. split; [exact Hd|].
        split; [exact Hname|]. intros p Hp. inversion Hp.
    + split.
      * rewrite IH1. split.
        -- intros Hrest p Hp. apply elem_of_cons in Hp as [->|Hp]; [exact Hfind|].
           apply Hrest, Hp.
        -- intros Hall p Hp. apply Hall. by right.
      * intros Hne. destruct (IH2 Hne) as (before & after & p & id & -> & Hp & Hd & Hn & Hb).
        exists (pkg :: before), after, p, id.
        split; [reflexivity|]. split; [exact Hp|]. split; [exact Hd|].
        split; [exact Hn|]. intros q Hq.
        apply elem_of_cons in Hq as [->|Hq]; [exact Hfind|]. apply Hb, Hq.
Qed.

End GeneratorFacts.

(** ** Properties of the coroutine context *)

Module CoroutineFacts.
Import Coroutine.

Section context.

Context {R S : Type} (zeroS : S).
Context {Closure Heap Locals Deferred : Type}.

Abbreviation Frame := (@Coroutine.Frame Locals Deferred).
Abbreviation Stack := (@Coroutine.Stack Locals Deferred).
Abbreviation Context := (@Coroutine.Context R S Closure Heap Locals Deferred).

Context (ser_frame : Frame -> list byte).
Context (des_frame : list byte -> option (Frame * list byte)).

Abbreviation Serialize := (Coroutine.Serialize ser_frame).
Abbreviation des_frames := (Coroutine.des_frames des_frame).
Abbreviation Deserialize := (Coroutine.Deserialize des_frame).
Abbreviation MarshalAppend := (Coroutine.MarshalAppend ser_frame).
Abbreviation Unmarshal := (Coroutine.Unmarshal des_frame).
Abbreviation Yield := (Coroutine.Yield zeroS).

(** *** Properties of the codec *)

Lemma Z_of_byte_of_Z (z : Z) : Z_of_byte (byte_of_Z z) = z mod 256.
Proof.
  unfold Z_of_byte, byte_of_Z.
  assert (Hr : 0 <= z mod 256 < 256) by (apply Z.mod_pos_bound; lia).
  destruct (Byte.of_N (Z.to_N (z mod 256))) as [b|] eqn:Hb; simpl.
  - apply Byte.to_of_N in Hb. rewrite Hb. lia.
  - apply Byte.of_N_None_iff in Hb. lia.
Qed.

Lemma length_put_le (n : nat) (z : Z) : length (put_le n z) = n.
Proof. revert z. induction n as [|n IH]; intros z; simpl; [|rewrite IH]; reflexivity. Qed.

Lemma get_le_put_le (n : nat) (z : Z) :
  0 <= z → get_le (put_le n z) = z mod 256 ^ Z.of_nat n.
Proof.
  revert z. induction n as [|n IH]; intros z Hz.
  - simpl. rewrite Z.mod_1_r. reflexivity.
  - cbn [put_le get_le]. rewrite Z_of_byte_of_Z.
    rewrite IH by (apply Z.div_pos; lia).
    rewrite Nat2Z.inj_succ, Z.pow_succ_r by lia.
    rewrite Z.rem_mul_r by lia. lia.
Qed.

Lemma get_u64_put_u64 (z : Z) (rest : list byte) :
  0 <= z < 2 ^ 64 → get_u64 (put_u64 z ++ rest) = Some (z, rest).
Proof.
  intros Hz. unfold get_u64, put_u64.
  rewrite length_app, length_put_le.
  destruct (decide (8 + length rest < 8)%nat) as [Hlt|_]; [lia|].
  rewrite take_app_length' by (symmetry; apply length_put_le).
  rewrite drop_app_length' by (symmetry; apply length_put_le).
  rewrite get_le_put_le by lia.
  rewrite Z.mod_small by (change (256 ^ Z.of_nat 8) with (2 ^ 64); lia).
  reflexivity.
Qed.

Lemma des_frames_ser_frames (fs : list Frame) (rest : list byte) :
  (∀ f b, ∃ f', des_frame (ser_frame f ++ b) = Some (f', b)) →
  ∃ fs', des_frames (length fs) (concat (ser_frame <$> fs) ++ rest) = Some (fs', rest).
Proof.
  intros Hframe. induction fs as [|f fs IH].
  - simpl. eauto.
  - rewrite fmap_cons. cbn [concat length des_frames].
    rewrite <- app_assoc.
    destruct (Hframe f (concat (ser_frame <$> fs) ++ rest)) as [f' ->].
    destruct IH as [fs' ->]. eauto.
Qed.

Lemma Deserialize_Serialize (s : Stack) (rest : list byte) :
  (∀ f b, ∃ f', des_frame (ser_frame f ++ b) = Some (f', b)) →
  Z.of_nat (length (Frames s)) < 2 ^ 64 →
  ∃ s', Deserialize (Serialize s [] ++ rest) = Ok (s', rest).
Proof.
  intros Hframe Hlen. unfold Deserialize, Serialize.
  rewrite app_nil_l, <- app_assoc.
  rewrite get_u64_put_u64 by lia.
  rewrite Nat2Z.id.
  destruct (des_frames_ser_frames (Frames s) rest Hframe) as [fs' ->].
  eauto.
Qed.

(** *** Properties of the context *)


(** C1, with the message that the code gives: [Yield] is the dispatch of
    the table, where a stopped coroutine aborts with the text of the
    source.  Row by row: a stopped context makes [Yield] panic with that
    text and leaves the context alone; on a context that is not stopped, a
    top frame with [Resume] set has the flag cleared and [Yield] returns
    [send]; a top frame with [Resume] clear has it set, [send] becomes the
    zero value, [recv] the yielded value, and [Yield] panics with the
    unwind sentinel. *)
Theorem Yield_dispatch (c : Context) (value : R) :
  Yield c value =
    Coroutine.Yield_table zeroS
      "cannot yield from a coroutine that has been stopped" c value ∧
  (stop c = true →
     Yield c value =
       (c, Panic (PanicString "cannot yield from a coroutine that has been stopped"))) ∧
  (∀ frame, stop c = false → Top (stack c) = Some frame → Resume frame = true →
     Yield c value =
       (set_stack c (store_Top (stack c) (set_Resume frame false)), Ok (send c))) ∧
  (∀ frame, stop c = false → Top (stack c) = Some frame → Resume frame = false →
     Yield c value =
       (set_recv
          (set_send (set_stack c (store_Top (stack c) (set_Resume frame true))) zeroS)
          value,
        Panic PanicUnwind)).
Proof.
  split; [reflexivity|]. split; [|split].
  - intros Hstop. unfold Coroutine.Yield. rewrite Hstop. reflexivity.
  - intros frame Hstop Htop Hres. unfold Coroutine.Yield.
    rewrite Hstop, Htop, Hres. simpl. rewrite Hstop. reflexivity.
  - intros frame Hstop Htop Hres. unfold Coroutine.Yield.
    rewrite Hstop, Htop, Hres. reflexivity.
Qed.

(** C2, for a top frame that is not resuming: once [stop] is set, a yield
    does not raise the unwind sentinel; it panics with the message of the
    stopped coroutine and the context, frame stack included, stays as it
    was. *)
Theorem Yield_after_stop (c : Context) (value : R) (frame : Frame) :
  stop c = true → Top (stack c) = Some frame → Resume frame = false →
  Yield c value =
    (c, Panic (PanicString "cannot yield from a coroutine that has been stopped")).
Proof.
  intros Hstop _ _. unfold Yield. rewrite Hstop. reflexivity.
Qed.

(** *** A yield and the call that resumes it *)

Lemma Top_store_Top (s : Stack) (f0 f : Frame) :
  Top s = Some f0 → Top (store_Top s f) = Some f.
Proof.
  unfold Top, store_Top. cbn. rewrite !last_lookup, length_insert.
  intros Hf0. apply list_lookup_insert_eq.
  apply lookup_lt_Some in Hf0. exact Hf0.
Qed.

Lemma store_Top_store_Top (s : Stack) (f1 f2 : Frame) :
  store_Top (store_Top s f1) f2 = store_Top s f2.
Proof.
  unfold store_Top. cbn. rewrite length_insert, list_insert_insert_eq. reflexivity.
Qed.

Lemma store_Top_Top (s : Stack) (f : Frame) : Top s = Some f → store_Top s f = s.
Proof.
  unfold Top, store_Top. rewrite last_lookup. intros Hf.
  rewrite list_insert_id by exact Hf. destruct s; reflexivity.
Qed.

(** X9: a yield, and the call of [Yield] that resumes it.  On a context
    that is not stopped and whose top frame is not resuming, [Yield v]
    raises the unwind sentinel with [v] in [recv], and [Unwinding] is then
    true.  When the caller has put [x] in [send] and the coroutine comes
    back to the same call, [Yield] returns [x], the frame stack is the one
    from before the yield, and [Unwinding] is false. *)
Theorem Yield_then_resume (c : Context) (value value' : R) (x : S) (frame : Frame) :
  stop c = false → Top (stack c) = Some frame → Resume frame = false →
  ∃ c1 c2 : Context,
    Yield c value = (c1, Panic PanicUnwind) ∧
    recv c1 = value ∧ Unwinding c1 = true ∧
    Yield (set_send c1 x) value' = (c2, Ok x) ∧
    stack c2 = stack c ∧ recv c2 = value ∧ Unwinding c2 = false.
Proof.
  intros Hstop Htop Hres.
  assert (Hpos : (0 < length (Frames (stack c)))%nat).
  { unfold Top in Htop. rewrite last_lookup in Htop.
    apply lookup_lt_Some in Htop. lia. }
  assert (Htop1 : Top (store_Top (stack c) (set_Resume frame true))
                  = Some (set_Resume frame true))
    by (eapply Top_store_Top; exact Htop).
  assert (Hback : store_Top (store_Top (stack c) (set_Resume frame true))
                    (set_Resume (set_Resume frame true) false) = stack c).
  { rewrite store_Top_store_Top. apply store_Top_Top.
    rewrite Htop. f_equal. destruct frame; cbn in *; subst; reflexivity. }
  eexists _, _. split; [|split; [|split; [|split; [|split; [|split]]]]].
  - unfold Coroutine.Yield. rewrite Hstop, Htop, Hres. reflexivity.
  - reflexivity.
  - unfold Unwinding. cbn [stack set_recv set_send set_stack].
    rewrite Htop1. cbn [store_Top Frames]. rewrite length_insert.
    rewrite bool_decide_eq_true_2 by exact Hpos. reflexivity.
  - unfold Coroutine.Yield. cbn [stop stack set_recv set_send set_stack].
    rewrite Hstop, Htop1. cbn [Resume set_Resume stop set_stack].
    cbn [send set_stack set_send]. reflexivity.
  - cbn [stack set_stack]. exact Hback.
  - reflexivity.
  - unfold Unwinding. cbn [stack set_stack]. rewrite Hback, Htop, Hres.
    apply andb_false_r.
Qed.

(** X10: what [Yield] leaves alone, whatever it does.  The flags [done]
    and [stop], the entry point and the heap are kept; the frame stack
    keeps its length; every frame keeps its instruction pointer, its
    deferred calls and its locals; and every frame below the top one is
    kept as it is. *)
Theorem Yield_frame (c : Context) (value : R) :
  let c' := (Yield c value).1 in
  done c' = done c ∧ stop c' = stop c ∧
  Entrypoint c' = Entrypoint c ∧ heap c' = heap c ∧
  length (Frames (stack c')) = length (Frames (stack c)) ∧
  (∀ (i : nat) (f : Frame), Frames (stack c) !! i = Some f →
     ∃ f' : Frame, Frames (stack c') !! i = Some f' ∧
       IP f' = IP f ∧ Defers f' = Defers f ∧ locals f' = locals f ∧
       ((Datatypes.S i < length (Frames (stack c)))%nat → f' = f)).
Proof.
  assert (Hstore : ∀ (frame : Frame) (b : bool), Top (stack c) = Some frame →
    ∀ (i : nat) (f : Frame), Frames (stack c) !! i = Some f →
     ∃ f' : Frame,
       Frames (store_Top (stack c) (set_Resume frame b)) !! i = Some f' ∧
       IP f' = IP f ∧ Defers f' = Defers f ∧ locals f' = locals f ∧
       ((Datatypes.S i < length (Frames (stack c)))%nat → f' = f)).
  { intros frame b Htop i f Hi. unfold store_Top. cbn [Frames].
    unfold Top in Htop. rewrite last_lookup in Htop.
    destruct (decide (i = pred (length (Frames (stack c))))) as [->|Hne].
    - rewrite list_lookup_insert_eq by (apply lookup_lt_Some in Hi; exact Hi).
      assert (f = frame) as -> by congruence.
      eexists. split; [reflexivity|]. cbn. repeat split. lia.
    - rewrite list_lookup_insert_ne by congruence. eauto 10. }
  unfold Coroutine.Yield. cbv zeta.
  destruct (stop c) eqn:Hstop; [cbn; rewrite Hstop; repeat split; eauto 10|].
  destruct (Top (stack c)) as [frame|] eqn:Htop;
    [|cbn; rewrite Hstop; repeat split; eauto 10].
  destruct (Resume frame) eqn:Hres.
  - cbn [stop set_stack]. rewrite Hstop. cbn.
    rewrite length_insert, Hstop. repeat split.
    intros i f Hi. exact (Hstore frame false eq_refl i f Hi).
  - cbn. rewrite length_insert, Hstop. repeat split.
    intros i f Hi. exact (Hstore frame true eq_refl i f Hi).
Qed.

End context.

Lemma example_codec (f : @Frame unit unit) (b : list byte) :
  ∃ f', example_des_frame (example_ser_frame f ++ b) = Some (f', b).
Proof.
  unfold example_des_frame, example_ser_frame.
  assert (Hlen : length (put_u64 (IP f) ++ [if Resume f then x01 else x00]) = 9%nat).
  { rewrite length_app. unfold put_u64. rewrite length_put_le. reflexivity. }
  rewrite length_app, Hlen.
  destruct (decide (9 + length b < 9)%nat) as [Hlt|_]; [lia|].
  rewrite drop_app_length' by (symmetry; exact Hlen). eauto.
Qed.


Example example_marshal_bytes :
  MarshalAppend example_ser_frame (example_context false true) [x2a] =
  ([x2a; x02; x00; x00; x00; x00; x00; x00; x00;
    x01; x00; x00; x00; x00; x00; x00; x00; x01;
    x02; x00; x00; x00; x00; x00; x00; x00; x01], None).
Proof. vm_compute. reflexivity. Qed.

Example example_unmarshal_bytes :
  Unmarshal example_des_frame (example_context false false)
    [x02; x00; x00; x00; x00; x00; x00; x00;
     x01; x00; x00; x00; x00; x00; x00; x00; x01;
     x02; x00; x00; x00; x00; x00; x00; x00; x01; x2a; x2b] =
  Ok (example_context false true, (26, None)).
Proof. vm_compute. reflexivity. Qed.

Lemma Yield_dispatch_witness :
  Yield 0%nat (example_context true false) 7%nat =
    (example_context true false,
     Panic (PanicString "cannot yield from a coroutine that has been stopped")) ∧
  Yield 0%nat (example_context false true) 7%nat =
    (example_context false false, Ok 5%nat) ∧
  Yield 0%nat (example_context false false) 7%nat =
    (mkContext 7%nat 0%nat false false tt (example_stack true) tt, Panic PanicUnwind).
Proof.
  split; [|split].
  - apply (proj1 (proj2 (Yield_dispatch 0%nat (example_context true false) 7%nat))).
    reflexivity.
  - apply (proj1 (proj2 (proj2
             (Yield_dispatch 0%nat (example_context false true) 7%nat)))
             (mkFrame 2 true [] tt)); reflexivity.
  - apply (proj2 (proj2 (proj2
             (Yield_dispatch 0%nat (example_context false false) 7%nat)))
             (mkFrame 2 false [] tt)); reflexivity.
Defined.

(** The message of a stopped coroutine is not the one the table quotes. *)
Lemma Yield_table_message_differs :
  Yield 0%nat (example_context true false) 7%nat =
    (example_context true false,
     Panic (PanicString "cannot yield from a coroutine that has been stopped")) ∧
  Yield_table 0%nat "cannot yield from a stopped coroutine"
    (example_context true false) 7%nat =
    (example_context true false,
     Panic (PanicString "cannot yield from a stopped coroutine")) ∧
  bool_decide
    ((Yield 0%nat (example_context true false) 7%nat).2 =
     (Yield_table 0%nat "cannot yield from a stopped coroutine"
        (example_context true false) 7%nat).2) = false.
Proof. split; [|split]; reflexivity. Qed.

Lemma Yield_after_stop_witness :
  Yield 0%nat (example_context true false) 7%nat =
    (example_context true false,
     Panic (PanicString "cannot yield from a coroutine that has been stopped")).
Proof.
  apply (Yield_after_stop 0%nat (example_context true false) 7%nat
           (mkFrame 2 false [] tt)); reflexivity.
Defined.

(** A yield on a stopped context does not raise the unwind sentinel. *)
Lemma Yield_after_stop_no_unwind :
  (Yield 0%nat (example_context true false) 7%nat).2 =
    Panic (PanicString "cannot yield from a coroutine that has been stopped") ∧
  bool_decide ((Yield 0%nat (example_context true false) 7%nat).2 =
               Panic PanicUnwind) = false ∧
  (Yield 0%nat (example_context true false) 7%nat).1 = example_context true false.
Proof. split; [|split]; reflexivity. Qed.

(** The same holds when the stopped coroutine is being resumed: the test
    of [stop] that follows the clearing of [Resume] is never reached. *)
Example Yield_stopped_while_resuming :
  Yield 0%nat (example_context true true) 7%nat =
    (example_context true true,
     Panic (PanicString "cannot yield from a coroutine that has been stopped")).
Proof. reflexivity. Qed.

Lemma Yield_then_resume_witness :
  ∃ c1 c2 : example_Context,
    Yield 0%nat (example_context false false) 7%nat = (c1, Panic PanicUnwind) ∧
    recv c1 = 7%nat ∧ Unwinding c1 = true ∧
    Yield 0%nat (set_send c1 9%nat) 8%nat = (c2, Ok 9%nat) ∧
    stack c2 = stack (example_context false false) ∧ recv c2 = 7%nat ∧
    Unwinding c2 = false.
Proof.
  apply (Yield_then_resume 0%nat (example_context false false) 7%nat 8%nat 9%nat
           (mkFrame 2 false [] tt)); reflexivity.
Defined.

End CoroutineFacts.

(** ** Properties of the desugarer *)

Module DesugarFacts.
Import Ast Desugar.

Lemma genVar_inj (a b : nat) : genVar a = genVar b → a = b.
Proof.
  unfold genVar, NewIdent. intros Heq. injection Heq as Heq.
  change (Itoa a = Itoa b) in Heq. apply (inj pretty) in Heq. exact Heq.
Qed.

Lemma TypeOf_set_Defs_same (info : Info) (X : Expr) (v : Ident) (name : string) :
  TypeOf (set_Defs info v (GoTypes.NewVar 0 None name (TypeOf info X))) X
  = TypeOf info X.
Proof.
  unfold TypeOf at 1 3. 
  assert (Hrec : recordedType (set_Defs info v (GoTypes.NewVar 0 None name (TypeOf info X))) X = recordedType info X).
  { destruct X as [[[|p] nm]| | | | | | | | | | | | |]; reflexivity. }
  rewrite Hrec. destruct (recordedType info X) as [t|] eqn:Ht; [reflexivity|].
  destruct X as [id| | | | | | | | | | | | |]; try reflexivity.
  unfold ObjectOf, set_Defs. simpl.
  destruct (decide (v = id)) as [->|Hne].
  - rewrite lookup_insert_eq. simpl. unfold TypeOf. rewrite Ht. reflexivity.
  - rewrite lookup_insert_ne by done. reflexivity.
Qed.

Lemma TypeOf_set_Defs_genVar (info : Info) (a b : nat) (obj : GoTypes.Object) :
  TypeOf (set_Defs info (genVar b) obj) (Id (genVar a)) =
  if decide (a = b) then GoTypes.Object_Type obj else TypeOf info (Id (genVar a)).
Proof.
  unfold TypeOf, ObjectOf, set_Defs. simpl.
  destruct (decide (a = b)) as [->|Hne].
  - rewrite lookup_insert_eq. reflexivity.
  - rewrite lookup_insert_ne; [reflexivity|].
    intros Heq. apply genVar_inj in Heq. congruence.
Qed.

Section facts.
Context (typeExpr : GoTypes.Type_ -> Expr).

Lemma mapOut_mapOut {A B C} (f : B -> C) (g : A -> B) r :
  mapOut f (mapOut g r) = mapOut (λ a, f (g a)) r.
Proof. destruct r as [[[a d]|p]|]; reflexivity. Qed.

Lemma bind_ret_mapOut {A B} (m : M A) (f : A -> B) (d : desugarer) :
  bind m (λ a, ret (f a)) d = mapOut f (m d).
Proof. unfold bind, mapOut, ret. destruct (m d) as [[[a d']|p]|]; reflexivity. Qed.

Lemma desugar_S (fuel : nat) (stmt : Stmt) (b c u : option Ident) :
  desugarer_desugar typeExpr (S fuel) stmt b c u =
  desugarer_desugar_body typeExpr (desugarer_desugar typeExpr fuel) stmt b c u.
Proof. reflexivity. Qed.

Local Arguments TypeOf : simpl never.
Local Arguments set_Defs : simpl never.
Local Arguments desugarer_desugar : simpl never.

Lemma desugar_If_init (fuel : nat) (l : list Expr) (t : Token) (r : list Expr)
    (cond : Expr) (Body : list Stmt) (b c u : option Ident) (d : desugarer) :
  desugarer_desugar typeExpr (S (S fuel))
    (IfStmt (Some (AssignStmt l t r)) cond Body None) b c u d =
  mapOut (λ body, BlockStmt [AssignStmt l t r; IfStmt None cond body None])
    (desugarer_desugarList typeExpr (S fuel) Body b c d).
Proof.
  rewrite desugar_S. unfold desugarer_desugar_body, desugarer_desugarList.
  cbn [desugarNil bind]. rewrite desugar_S. cbn [desugarer_desugar_body bind ret].
  unfold bind at 1. unfold mapOut.
  destruct (desugarList _ Body b c d) as [[[body d']|p]|]; reflexivity.
Qed.

Lemma desugarList_pair (fuel : nat) (l : list Expr) (t : Token) (r : list Expr)
    (l' : list Expr) (t' : Token) (r' : list Expr)
    (cond : Expr) (Body : list Stmt) (b c : option Ident) (d : desugarer) :
  desugarer_desugarList typeExpr (S (S fuel))
    [AssignStmt l t r; IfStmt (Some (AssignStmt l' t' r')) cond Body None] b c d =
  mapOut (λ body, [AssignStmt l t r;
                   BlockStmt [AssignStmt l' t' r'; IfStmt None cond body None]])
    (desugarer_desugarList typeExpr (S fuel) Body b c d).
Proof.
  unfold desugarer_desugarList at 1. unfold desugarList. cbn [mapM].
  rewrite desugar_S at 1. cbn [desugarer_desugar_body bind ret].
  unfold bind, ret. rewrite desugar_If_init. unfold mapOut.
  destruct (desugarer_desugarList _ _ Body b c d) as [[[body d']|p]|]; reflexivity.
Qed.


Lemma desugar_For_init (fuel : nat) (l : list Expr) (t : Token) (r : list Expr)
    (cond : option Expr) (x : Expr) (tok : Token) (Body : list Stmt)
    (b c u : option Ident) (d : desugarer) :
  desugarer_desugar typeExpr (S (S fuel))
    (ForStmt (Some (AssignStmt l t r)) cond (Some (IncDecStmt x tok)) Body) b c u d =
  let forLabel := genLabel (labels d) in
  mapOut (λ body, BlockStmt [AssignStmt l t r;
                             LabeledStmt forLabel
                               (ForStmt None cond (Some (IncDecStmt x tok)) body)])
    (desugarer_desugarList typeExpr (S fuel) Body (Some forLabel) (Some forLabel)
       (mkdesugarer (info d) (vars d) (S (labels d))
          ({[forLabel]} ∪ unusedLabels d)
          (match u with
           | Some u => (ObjectOf (info d) u, forLabel) :: userLabels d
           | None => userLabels d
           end))).
Proof.
  rewrite desugar_S. unfold desugarer_desugar_body, desugarer_desugarList.
  cbn [desugarNil bind]. rewrite desugar_S. cbn [desugarer_desugar_body bind ret newLabel].
  destruct u as [u|]; cbn [mapUserLabel addUserLabel modify bind ret info vars labels unusedLabels userLabels].
  - unfold bind at 1. unfold mapOut. unfold genLabel.
    destruct (desugarList _ Body _ _ _) as [[[body d']|p]|]; [|reflexivity|reflexivity].
    cbn [desugarNil bind ret]. rewrite desugar_S. reflexivity.
  - unfold bind at 1. unfold mapOut. unfold genLabel.
    destruct (desugarList _ Body _ _ _) as [[[body d']|p]|]; [|reflexivity|reflexivity].
    cbn [desugarNil bind ret]. rewrite desugar_S. reflexivity.
Qed.

Lemma newVar_eq (t : option GoTypes.Type_) (d : desugarer) :
  newVar t d = Some (Ok (genVar (vars d), afterVar t d)).
Proof. reflexivity. Qed.

Lemma TypeOf_afterVar_same (d : desugarer) (X : Expr) :
  TypeOf (info (afterVar (TypeOf (info d) X) d)) X = TypeOf (info d) X.
Proof. apply TypeOf_set_Defs_same. Qed.

Lemma TypeOf_afterVar_genVar (d : desugarer) (t : option GoTypes.Type_) (a : nat) :
  TypeOf (info (afterVar t d)) (Id (genVar a)) =
  if decide (a = vars d) then t else TypeOf (info d) (Id (genVar a)).
Proof. apply TypeOf_set_Defs_genVar. Qed.

Local Arguments afterVar : simpl never.
Local Arguments newVar : simpl never.

Lemma desugar_Range_slice (fuel : nat) (mk : Ident) (tok : Token) (X : Expr)
    (Body : list Stmt) (b c u : option Ident) (d : desugarer) (kt : GoTypes.Type_) :
  TypeOf (info d) X = Some (GoTypes.Slice kt) →
  Name mk ≠ "_" →
  let x := genVar (vars d) in
  let i := genVar (S (vars d)) in
  desugarer_desugar typeExpr (S fuel) (RangeStmt None (Some (Id mk)) tok X Body) b c u d =
  mapOut (λ loop, BlockStmt [AssignStmt [Id x] DEFINE [X]; loop])
    (desugarer_desugar typeExpr fuel
       (indexLoop i x (AssignStmt [Id mk] DEFINE [IndexExpr (Id x) (Id i)] :: Body))
       b c u
       (afterVar (Some (GoTypes.Typ GoTypes.Int)) (afterVar (Some (GoTypes.Slice kt)) d))).
Proof.
  intros Ht Hmk x i.
  rewrite desugar_S. unfold desugarer_desugar_body.
  unfold bind at 1. unfold gets at 1. 
  unfold bind at 1. rewrite newVar_eq.
  unfold bind at 1. unfold gets at 1.
  rewrite TypeOf_afterVar_same, Ht.
  unfold bind at 1. rewrite newVar_eq.
  cbn [isUnderscore]. rewrite bool_decide_eq_false_2 by done.
  rewrite bind_ret_mapOut. reflexivity.
Qed.

Lemma genVar_not_underscore (n : nat) : Name (genVar n) ≠ "_".
Proof. unfold genVar, NewIdent. cbn [Name]. intros Heq. discriminate Heq. Qed.

Lemma desugar_Range_keys (fuel : nat) (mapKey mapValue ok keys x : Ident)
    (Body : list Stmt) (b c u : option Ident) (d : desugarer) (kt : GoTypes.Type_) :
  TypeOf (info d) (Id keys) = Some (GoTypes.Slice kt) →
  Name mapKey ≠ "_" →
  let x2 := genVar (vars d) in
  let i := genVar (S (vars d)) in
  let forLabel := genLabel (labels d) in
  ∃ d1,
    vars d1 = S (S (vars d)) ∧ labels d1 = S (labels d) ∧
    desugarer_desugar typeExpr (S (S (S (S fuel))))
      (RangeStmt None (Some (Id mapKey)) DEFINE (Id keys)
         [IfStmt (Some (AssignStmt [Id mapValue; Id ok] DEFINE
                          [IndexExpr (Id x) (Id mapKey)]))
            (Id ok) Body None]) b c u d =
    mapOut (λ body,
      BlockStmt [
        AssignStmt [Id x2] DEFINE [Id keys];
        BlockStmt [
          AssignStmt [Id i] DEFINE [BasicLit INT "0"];
          LabeledStmt forLabel
            (ForStmt None
               (Some (BinaryExpr (Id i) LSS (CallExpr (Id (NewIdent "len")) [Id x2])))
               (Some (IncDecStmt (Id i) INC))
               [AssignStmt [Id mapKey] DEFINE [IndexExpr (Id x2) (Id i)];
                BlockStmt [
                  AssignStmt [Id mapValue; Id ok] DEFINE [IndexExpr (Id x) (Id mapKey)];
                  IfStmt None (Id ok) body None]])]])
      (desugarer_desugarList typeExpr (S fuel) Body (Some forLabel) (Some forLabel) d1).
Proof.
  intros Ht Hmk x2 i forLabel.
  eexists. split; [|split]; cycle 2.
  - rewrite (desugar_Range_slice _ _ _ _ _ _ _ _ _ kt Ht Hmk).
    unfold indexLoop. rewrite desugar_For_init. cbv zeta.
    rewrite desugarList_pair. rewrite !mapOut_mapOut. reflexivity.
  - reflexivity.
  - reflexivity.
Qed.

Lemma vars_afterVar t d : vars (afterVar t d) = S (vars d).
Proof. reflexivity. Qed.
Lemma labels_afterVar t d : labels (afterVar t d) = labels d.
Proof. reflexivity. Qed.

Lemma TypeOf_genVar_older (d : desugarer) (t : option GoTypes.Type_) (a : nat) :
  (a < vars d)%nat →
  TypeOf (info (afterVar t d)) (Id (genVar a)) = TypeOf (info d) (Id (genVar a)).
Proof.
  intros Hlt. rewrite TypeOf_afterVar_genVar.
  destruct (decide (a = vars d)); [lia|reflexivity].
Qed.

Lemma TypeOf_genVar_new (d : desugarer) (t : option GoTypes.Type_) :
  TypeOf (info (afterVar t d)) (Id (genVar (vars d))) = t.
Proof.
  rewrite TypeOf_afterVar_genVar.
  destruct (decide (vars d = vars d)); [reflexivity|congruence].
Qed.

Lemma bind_Ok {A B} (m : M A) (k : A -> M B) (d d' : desugarer) (a : A) :
  m d = Some (Ok (a, d')) → bind m k d = k a d'.
Proof. intros Hm. unfold bind. rewrite Hm. reflexivity. Qed.

Ltac step_bind :=
  first [ rewrite bind_ret_mapOut
        | erewrite bind_Ok by first [apply newVar_eq | reflexivity] ].

Ltac two_loops_case fuel Hkeys name_tac :=
  do 6 step_bind; rewrite !vars_afterVar;
  let d1 := fresh "d1" in
  let Hv := fresh "Hv" in
  let Hl := fresh "Hl" in
  let Heq := fresh "Heq" in
  edestruct (desugar_Range_keys fuel) as (d1 & Hv & Hl & Heq);
    [apply Hkeys | name_tac |];
  rewrite Heq, mapOut_mapOut; exists d1;
  split; [rewrite Hv; reflexivity|];
  split; [rewrite Hl; reflexivity|];
  reflexivity.

Lemma desugar_Range_map (fuel : nat) (Key Value : option Expr)
    (Tok : Token) (X : Expr) (Body : list Stmt)
    (breakTo continueTo userLabel : option Ident) (d : desugarer)
    (keyType elemType : GoTypes.Type_) :
  TypeOf (info d) X = Some (GoTypes.Map keyType elemType) →
  identOrNil Key = true → identOrNil Value = true →
  is_Some Key ∨ is_Some Value →
  let n := vars d in
  let fresh := match namedKey Key with Some _ => 0%nat | None => 1%nat end in
  let x := genVar n in
  let keys := genVar (1 + n) in
  let k := genVar (2 + n) in
  let mapKey := default (genVar (3 + n)) (namedKey Key) in
  let mapValue := namedValue Value in
  let ok := genVar (fresh + 3 + n) in
  let x2 := genVar (fresh + 4 + n) in
  let i := genVar (fresh + 5 + n) in
  let forLabel := genLabel (labels d) in
  ∃ d1,
    vars d1 = (fresh + 6 + n)%nat ∧ labels d1 = S (labels d) ∧
    desugarer_desugar typeExpr (5 + fuel) (RangeStmt Key Value Tok X Body)
      breakTo continueTo userLabel d =
    mapOut (keyLoops typeExpr X keyType x keys k mapKey mapValue ok x2 i forLabel)
      (desugarer_desugarList typeExpr (1 + fuel) Body
         (Some forLabel) (Some forLabel) d1).
Proof.
  intros Ht HK HV Hsome. cbv zeta.
  change (5 + fuel)%nat with (S (S (S (S (S fuel))))).
  change (1 + fuel)%nat with (S fuel).
  assert (Hcases :
    (Key = None ∧ ∃ v, Value = Some (Id v)) ∨
    (∃ key, Key = Some (Id key) ∧ (Value = None ∨ ∃ v, Value = Some (Id v)))).
  { destruct Key as [[key| | | | | | | | | | | | |]|]; try discriminate HK.
    - right. exists key. split; [reflexivity|].
      destruct Value as [[v| | | | | | | | | | | | |]|]; try discriminate HV; eauto.
    - left. split; [reflexivity|].
      destruct Value as [[v| | | | | | | | | | | | |]|]; try discriminate HV; eauto.
      destruct Hsome as [[? Hn]|[? Hn]]; discriminate Hn. }
  clear HK HV Hsome.
  rewrite desugar_S. unfold desugarer_desugar_body.
  do 3 step_bind. rewrite TypeOf_afterVar_same, Ht.
  assert (Hkeys3 : ∀ t1 t2 t3,
    TypeOf (info (afterVar t3 (afterVar t2 (afterVar t1
              (afterVar (Some (GoTypes.NewSlice keyType))
                 (afterVar (Some (GoTypes.Map keyType elemType)) d))))))
      (Id (genVar (S (vars d)))) = Some (GoTypes.Slice keyType)).
  { intros t1 t2 t3.
    rewrite !TypeOf_genVar_older by (rewrite !vars_afterVar; lia).
    apply (TypeOf_genVar_new (afterVar _ d)). }
  assert (Hkeys2 : ∀ t1 t2,
    TypeOf (info (afterVar t2 (afterVar t1
              (afterVar (Some (GoTypes.NewSlice keyType))
                 (afterVar (Some (GoTypes.Map keyType elemType)) d)))))
      (Id (genVar (S (vars d)))) = Some (GoTypes.Slice keyType)).
  { intros t1 t2.
    rewrite !TypeOf_genVar_older by (rewrite !vars_afterVar; lia).
    apply (TypeOf_genVar_new (afterVar _ d)). }
  destruct Hcases as [[-> [v ->]] | [key [-> HV]]].
  - cbn [namedKey namedValue default].
    two_loops_case fuel Hkeys3 ltac:(apply genVar_not_underscore).
  - cbn [namedKey isUnderscore].
    destruct (bool_decide (Name key = "_")) eqn:Hu; cbn [default].
    + destruct HV as [->|[v ->]]; cbn [namedValue];
        two_loops_case fuel Hkeys3 ltac:(apply genVar_not_underscore).
    + apply bool_decide_eq_false_1 in Hu.
      destruct HV as [->|[v ->]]; cbn [namedValue];
        two_loops_case fuel Hkeys2 ltac:(exact Hu).
Qed.


(** *** The form of the result and the state after a run *)

Lemma extends_refl (d : desugarer) : extends d d.
Proof.
  split; try reflexivity; try lia; auto.
Qed.

Lemma extends_trans (d1 d2 d3 : desugarer) :
  extends d1 d2 → extends d2 d3 → extends d1 d3.
Proof.
  intros [Hv1 Hl1 Ht1 Hu1 Hd1 Hn1] [Hv2 Hl2 Ht2 Hu2 Hd2 Hn2].
  split; try lia; try congruence.
  - intros id Hid. rewrite Hd2, Hd1; [reflexivity| |]; intros i Hi; apply Hid; lia.
  - intros l Hl. destruct (Hn2 l Hl) as [Hin|(i & Hi & ->)].
    + destruct (Hn1 l Hin) as [?|(i & Hi & ->)]; [auto|].
      right. exists i. split; [lia|reflexivity].
    + right. exists i. split; [lia|reflexivity].
Qed.

Lemma newVar_extends (t : option GoTypes.Type_) (d d' : desugarer) (v : Ident) :
  newVar t d = Some (Ok (v, d')) → extends d d'.
Proof.
  rewrite newVar_eq. intros Heq. injection Heq as _ <-.
  unfold afterVar, set_Defs. split; cbn; try lia; try reflexivity; auto.
  intros id Hid. apply lookup_insert_ne. intros Heq. apply (Hid (vars d)); [lia|].
  symmetry. exact Heq.
Qed.

Lemma newLabel_extends (d d' : desugarer) (l : Ident) :
  newLabel d = Some (Ok (l, d')) → extends d d'.
Proof.
  unfold newLabel. intros Heq. injection Heq as _ <-.
  split; cbn; try lia; try reflexivity; auto.
  intros l' Hl'. apply elem_of_union in Hl' as [Hl'|Hl']; [|auto].
  apply elem_of_singleton in Hl' as ->. right. exists (labels d). split; [lia|reflexivity].
Qed.

Lemma mapUserLabel_extends (u : option Ident) (l : Ident) (d d' : desugarer) (x : unit) :
  mapUserLabel u l d = Some (Ok (x, d')) → extends d d'.
Proof.
  destruct u as [u|]; unfold mapUserLabel, addUserLabel, modify, ret;
    intros Heq; injection Heq as _ <-;
    split; cbn; try lia; try reflexivity; auto.
Qed.

Lemma useLabel_extends (l : option Ident) (d d' : desugarer) (x : unit) :
  useLabel l d = Some (Ok (x, d')) → extends d d'.
Proof.
  destruct l as [l|]; unfold useLabel, modify;
    intros Heq; injection Heq as _ <-;
    split; cbn; try lia; try reflexivity; auto.
  intros l' Hl'. apply elem_of_difference in Hl' as [Hl' _]. auto.
Qed.

Lemma assertIdent_extends (e : Expr) (d d' : desugarer) (i : Ident) :
  assertIdent e d = Some (Ok (i, d')) → extends d d'.
Proof.
  destruct e; cbn; intros Heq; try discriminate Heq.
  injection Heq as _ <-. apply extends_refl.
Qed.

Ltac chain :=
  repeat first [ eassumption | apply extends_refl
               | eapply extends_trans; [eassumption|] ].

Lemma desugarNil_post
    (f : Stmt -> option Ident -> option Ident -> option Ident -> M Stmt) :
  (∀ s b c u d s' d', f s b c u d = Some (Ok (s', d')) →
     extends d d' ∧ desugared s' = true) →
  ∀ o b c u d o' d', desugarNil f o b c u d = Some (Ok (o', d')) →
    extends d d' ∧
    match o' with Some s => desugared s | None => true end = true.
Proof.
  intros Hf [s|] b c u d o' d' Hn; cbn in Hn.
  - apply StepFacts.bind_inv in Hn as (s' & d1 & Hs & Hn).
    apply StepFacts.ret_inv in Hn as [-> ->]. eauto.
  - apply StepFacts.ret_inv in Hn as [-> ->]. split; [apply extends_refl|reflexivity].
Qed.

Lemma desugarList_post
    (f : Stmt -> option Ident -> option Ident -> option Ident -> M Stmt) :
  (∀ s b c u d s' d', f s b c u d = Some (Ok (s', d')) →
     extends d d' ∧ desugared s' = true) →
  ∀ l b c d l' d', desugarList f l b c d = Some (Ok (l', d')) →
    extends d d' ∧ forallb desugared l' = true.
Proof.
  intros Hf l b c d l' d' Hl. unfold desugarList in Hl.
  apply (StepFacts.mapM_post extends (λ s, desugared s = true)) in Hl
    as [He Hall].
  - split; [exact He|].
    induction Hall as [|s l0 Hs Hl0 IHl]; cbn; [reflexivity|]. by rewrite Hs, IHl.
  - apply extends_refl.
  - apply extends_trans.
  - apply Forall_forall. intros s _ d0 s' d0' Hs. eapply Hf. exact Hs.
Qed.

Lemma desugar_post (fuel : nat) :
  ∀ s b c u d s' d',
    desugarer_desugar typeExpr fuel s b c u d = Some (Ok (s', d')) →
    extends d d' ∧ desugared s' = true.
Proof.
  induction fuel as [|fuel IH]; intros s b c u d s' d' Hd; [discriminate Hd|].
  pose proof (desugarNil_post _ IH) as Hnil.
  pose proof (desugarList_post _ IH) as Hlist.
  rewrite desugar_S in Hd.
  destruct s; cbn [desugarer_desugar_body] in Hd;
    try (apply StepFacts.ret_inv in Hd as [-> ->];
         split; [apply extends_refl|reflexivity]);
    try discriminate Hd.
  - (* BlockStmt *)
    apply StepFacts.bind_inv in Hd as (l & d1 & Hl & Hd).
    apply StepFacts.ret_inv in Hd as [-> ->].
    apply Hlist in Hl as [E1 Q1]. split; [chain|exact Q1].
  - (* IfStmt *)
    apply StepFacts.bind_inv in Hd as (i & d1 & Hi & Hd).
    apply StepFacts.bind_inv in Hd as (l & d2 & Hl & Hd).
    apply StepFacts.bind_inv in Hd as (e & d3 & He & Hd).
    apply StepFacts.ret_inv in Hd as [-> ->].
    apply Hnil in Hi as [E1 Q1]. apply Hlist in Hl as [E2 Q2].
    apply Hnil in He as [E3 Q3]. split; [chain|].
    destruct i as [i|]; cbn; rewrite ?Q1, Q2, Q3; reflexivity.
  - (* ForStmt *)
    apply StepFacts.bind_inv in Hd as (i & d1 & Hi & Hd).
    apply StepFacts.bind_inv in Hd as (fl & d2 & Hfl & Hd).
    apply StepFacts.bind_inv in Hd as (x & d3 & Hu & Hd).
    apply StepFacts.bind_inv in Hd as (l & d4 & Hl & Hd).
    apply StepFacts.bind_inv in Hd as (p & d5 & Hp & Hd).
    apply StepFacts.ret_inv in Hd as [-> ->].
    apply Hnil in Hi as [E1 Q1]. apply newLabel_extends in Hfl.
    apply mapUserLabel_extends in Hu. apply Hlist in Hl as [E4 Q4].
    apply Hnil in Hp as [E5 Q5]. split; [chain|].
    destruct i as [i|]; cbn; rewrite ?Q1, Q4, Q5; reflexivity.
  - (* RangeStmt *)
    apply StepFacts.bind_inv in Hd as (t & d0 & Ht & Hd).
    apply StepFacts.gets_inv in Ht as [-> ->].
    apply StepFacts.bind_inv in Hd as (x & d1 & Hx & Hd).
    apply newVar_extends in Hx.
    apply StepFacts.bind_inv in Hd as (rt & d2 & Hrt & Hd).
    apply StepFacts.gets_inv in Hrt as [-> ->].
    assert (Hindex : ∀ (m : M Ident) (Body' : Ident -> list Stmt) (dA : desugarer),
      extends d dA →
      (∀ i dB, m dA = Some (Ok (i, dB)) → extends dA dB) →
      (i <- m ;;
       loop <- desugarer_desugar typeExpr fuel (indexLoop i x (Body' i)) b c u ;;
       ret (BlockStmt [AssignStmt [Id x] DEFINE [X]; loop])) dA
        = Some (Ok (s', d')) →
      extends d d' ∧ desugared s' = true).
    { intros m Body' dA EA Hm Hrun.
      apply StepFacts.bind_inv in Hrun as (i & dB & Hi & Hrun).
      apply StepFacts.bind_inv in Hrun as (loop & dC & Hloop & Hrun).
      apply StepFacts.ret_inv in Hrun as [-> ->].
      apply Hm in Hi. apply IH in Hloop as [EC QC].
      split; [chain|]. cbn. rewrite QC. reflexivity. }
    assert (Hi : ∀ (ty : GoTypes.Type_) (dA : desugarer) (i : Ident) (dB : desugarer),
      match Key with
      | Some key =>
          if isUnderscore key then newVar (Some ty) else assertIdent key
      | None => newVar (Some ty)
      end dA = Some (Ok (i, dB)) → extends dA dB).
    { intros ty dA i dB Hrun. destruct Key as [key|].
      - destruct (isUnderscore key);
          [eapply newVar_extends|eapply assertIdent_extends]; exact Hrun.
      - eapply newVar_extends; exact Hrun. }
    destruct (TypeOf (info d1) X) as [[k|len elem|elem|key elem|n und| |n]|];
      try (apply StepFacts.ret_inv in Hd as [-> ->]; split; [chain|reflexivity]).
    + eapply (Hindex _ (λ i, _)); [exact Hx|apply Hi|exact Hd].
    + eapply (Hindex _ (λ i, _)); [exact Hx|apply Hi|exact Hd].
    + destruct (decide (Key = None ∧ Value = None)) as [[-> ->]|Hsome].
      * eapply (Hindex _ (λ _, Body)); [exact Hx| |exact Hd].
        intros i dB Hrun. eapply newVar_extends; exact Hrun.
      * assert (Hsplit :
          (keys <- newVar (Some (GoTypes.NewSlice key)) ;;
           k <- newVar (Some (GoTypes.Typ GoTypes.Int)) ;;
           mapKey <- match Key with
                     | None => newVar (Some key)
                     | Some key0 =>
                         if isUnderscore key0 then newVar (Some key)
                         else assertIdent key0
                     end ;;
           mapValue <- match Value with
                       | Some v => assertIdent v
                       | None => ret (NewIdent "_")
                       end ;;
           ok <- newVar (Some (GoTypes.Typ GoTypes.Bool)) ;;
           iterKeys <- desugarer_desugar typeExpr fuel
             (RangeStmt None (Some (Id mapKey)) DEFINE (Id keys)
                [IfStmt
                   (Some (AssignStmt [Id mapValue; Id ok] DEFINE
                            [IndexExpr (Id x) (Id mapKey)]))
                   (Id ok) Body None])
             b c u ;;
           ret (BlockStmt [AssignStmt [Id x] DEFINE [X];
                           collectKeys typeExpr (GoTypes.NewSlice key) keys k x;
                           iterKeys])) d1 = Some (Ok (s', d'))).
        { destruct Key as [key0|], Value as [v|]; try exact Hd.
          exfalso. apply Hsome. auto. }
        clear Hd.
        apply StepFacts.bind_inv in Hsplit as (keys & d2 & Hkeys & Hd).
        apply StepFacts.bind_inv in Hd as (k & d3 & Hk & Hd).
        apply StepFacts.bind_inv in Hd as (mapKey & d4 & HmapKey & Hd).
        apply StepFacts.bind_inv in Hd as (mapValue & d5 & HmapValue & Hd).
        apply StepFacts.bind_inv in Hd as (ok & d6 & Hok & Hd).
        apply StepFacts.bind_inv in Hd as (iterKeys & d7 & Hiter & Hd).
        apply StepFacts.ret_inv in Hd as [-> ->].
        apply newVar_extends in Hkeys. apply newVar_extends in Hk.
        apply Hi in HmapKey. apply newVar_extends in Hok.
        apply IH in Hiter as [E7 Q7].
        assert (E5 : extends d4 d5).
        { destruct Value as [v|].
          - eapply assertIdent_extends; exact HmapValue.
          - apply StepFacts.ret_inv in HmapValue as [-> ->]. apply extends_refl. }
        split; [chain|]. cbn. rewrite Q7. reflexivity.
  - (* SwitchStmt *)
    apply StepFacts.bind_inv in Hd as (i & d1 & Hi & Hd).
    apply StepFacts.bind_inv in Hd as (fl & d2 & Hfl & Hd).
    apply StepFacts.bind_inv in Hd as (x & d3 & Hu & Hd).
    apply StepFacts.bind_inv in Hd as (l & d4 & Hl & Hd).
    apply StepFacts.ret_inv in Hd as [-> ->].
    apply Hnil in Hi as [E1 Q1]. apply newLabel_extends in Hfl.
    apply mapUserLabel_extends in Hu. apply Hlist in Hl as [E4 Q4].
    split; [chain|].
    destruct i as [i|]; cbn; rewrite ?Q1, Q4; reflexivity.
  - (* TypeSwitchStmt *)
    apply StepFacts.bind_inv in Hd as (i & d1 & Hi & Hd).
    apply StepFacts.bind_inv in Hd as (fl & d2 & Hfl & Hd).
    apply StepFacts.bind_inv in Hd as (x & d3 & Hu & Hd).
    apply StepFacts.bind_inv in Hd as (a & d4 & Ha & Hd).
    apply StepFacts.bind_inv in Hd as (l & d5 & Hl & Hd).
    apply StepFacts.ret_inv in Hd as [-> ->].
    apply Hnil in Hi as [E1 Q1]. apply newLabel_extends in Hfl.
    apply mapUserLabel_extends in Hu. apply IH in Ha as [E4 Q4].
    apply Hlist in Hl as [E5 Q5]. split; [chain|].
    destruct i as [i|]; cbn; rewrite ?Q1, Q4, Q5; reflexivity.
  - (* CaseClause *)
    apply StepFacts.bind_inv in Hd as (l & d1 & Hl & Hd).
    apply StepFacts.ret_inv in Hd as [-> ->].
    apply Hlist in Hl as [E1 Q1]. split; [chain|exact Q1].
  - (* BranchStmt *)
    destruct Label as [Label|].
    + apply StepFacts.bind_inv in Hd as (l & d1 & Hl & Hd).
      apply StepFacts.gets_inv in Hl as [-> ->].
      destruct (lookupLabel _ _) as [l|]; [|discriminate Hd].
      apply StepFacts.bind_inv in Hd as (x & d2 & Hu & Hd).
      apply StepFacts.ret_inv in Hd as [-> ->].
      apply useLabel_extends in Hu. split; [chain|reflexivity].
    + destruct Tok; try discriminate Hd;
        apply StepFacts.bind_inv in Hd as (x & d2 & Hu & Hd);
        apply StepFacts.ret_inv in Hd as [-> ->];
        apply useLabel_extends in Hu; (split; [chain|reflexivity]).
  - (* LabeledStmt *)
    apply IH in Hd. exact Hd.
Qed.

(** *** The desugarer returns

    With fuel [need s] or more, the desugaring of [s] comes to an end: it
    returns a statement or panics, and does not run out of fuel. *)

Lemma bind_total {A B} (m : M A) (k : A -> M B) (d : desugarer) :
  is_Some (m d) →
  (∀ a d', m d = Some (Ok (a, d')) → is_Some (k a d')) →
  is_Some (bind m k d).
Proof.
  intros [r Hr] Hk. unfold bind. rewrite Hr.
  destruct r as [[a d']|p]; [apply Hk; exact Hr | eauto].
Qed.

Lemma mapM_total {A B} (f : A -> M B) (l : list A) :
  (∀ x, x ∈ l → ∀ d, is_Some (f x d)) → ∀ d, is_Some (mapM f l d).
Proof.
  induction l as [|x l IH]; intros Hf d; [eexists; reflexivity|].
  cbn [mapM]. apply bind_total; [apply Hf; by left|].
  intros b d' _. apply bind_total.
  - apply IH. intros y Hy. apply Hf. by right.
  - intros bs d'' _. eexists. reflexivity.
Qed.

Lemma need_elem (l : list Stmt) (s : Stmt) : s ∈ l → (need s ≤ needList l)%nat.
Proof.
  induction 1 as [s l|s s' l Hin IH]; cbn [needList foldr]; fold (needList l); lia.
Qed.

Lemma need_pos (s : Stmt) : (1 ≤ need s)%nat.
Proof. destruct s; cbn [need]; lia. Qed.

Lemma is_Some_mapOut {A B} (f : A -> B) r : is_Some r → is_Some (mapOut f r).
Proof. intros [[[a d]|p] ->]; eexists; reflexivity. Qed.

Lemma bind_Panic {A B} (m : M A) (k : A -> M B) (d : desugarer) (p : PanicValue) :
  m d = Some (Panic p) → bind m k d = Some (Panic p).
Proof. intros Hm. unfold bind. rewrite Hm. reflexivity. Qed.

Lemma assertIdent_panics (e : Expr) :
  identOrNil (Some e) = false → ∃ p, ∀ d, assertIdent e d = Some (Panic p).
Proof. destruct e; try discriminate; intros _; eexists; reflexivity. Qed.

Lemma isUnderscore_not_ident (e : Expr) :
  identOrNil (Some e) = false → isUnderscore e = false.
Proof. destruct e; try discriminate; reflexivity. Qed.

Lemma desugar_Range_map_total (fuel : nat) (Key Value : option Expr)
    (Tok : Token) (X : Expr) (Body : list Stmt)
    (b c u : option Ident) (d : desugarer) (keyType elemType : GoTypes.Type_) :
  TypeOf (info d) X = Some (GoTypes.Map keyType elemType) →
  is_Some Key ∨ is_Some Value →
  (∀ b c d', is_Some (desugarer_desugarList typeExpr (1 + fuel) Body b c d')) →
  is_Some (desugarer_desugar typeExpr (5 + fuel) (RangeStmt Key Value Tok X Body) b c u d).
Proof.
  intros Ht Hsome Hbody.
  destruct (identOrNil Key) eqn:HK; [destruct (identOrNil Value) eqn:HV|].
  - destruct (desugar_Range_map fuel Key Value Tok X Body b c u d
                keyType elemType Ht HK HV Hsome) as (d1 & _ & _ & Heq).
    rewrite Heq. apply is_Some_mapOut, Hbody.
  - destruct Value as [v|]; [|discriminate HV].
    destruct (assertIdent_panics v HV) as [p Hp].
    change (5 + fuel)%nat with (S (4 + fuel)).
    rewrite desugar_S. unfold desugarer_desugar_body.
    do 3 step_bind. rewrite TypeOf_afterVar_same, Ht.
    destruct Key as [[key| | | | | | | | | | | | |]|]; try discriminate HK.
    + do 2 step_bind. cbn [isUnderscore].
      destruct (bool_decide (Name key = "_")); step_bind;
        (erewrite bind_Panic by apply Hp); eexists; reflexivity.
    + do 3 step_bind. (erewrite bind_Panic by apply Hp); eexists; reflexivity.
  - destruct Key as [key|]; [|discriminate HK].
    destruct (assertIdent_panics key HK) as [p Hp].
    change (5 + fuel)%nat with (S (4 + fuel)).
    rewrite desugar_S. unfold desugarer_desugar_body.
    do 3 step_bind. rewrite TypeOf_afterVar_same, Ht.
    do 2 step_bind. rewrite (isUnderscore_not_ident key HK).
    (erewrite bind_Panic by apply Hp); eexists; reflexivity.
Qed.

Ltac total_leaf := eexists; reflexivity.

Lemma need_indexLoop (i x : Ident) (Body : list Stmt) :
  need (indexLoop i x Body) = S (Nat.max 1 (needList Body)).
Proof. unfold indexLoop, needList. cbn [need]. lia. Qed.

Lemma desugar_total (n : nat) :
  ∀ (fuel : nat) (s : Stmt), (fuel ≤ n)%nat → (need s ≤ fuel)%nat →
  ∀ b c u d, is_Some (desugarer_desugar typeExpr fuel s b c u d).
Proof.
  induction n as [|n IH]; intros fuel s Hn Hneed b c u d.
  { pose proof (need_pos s). lia. }
  destruct fuel as [|fuel]; [pose proof (need_pos s); lia|].
  assert (Hrec : ∀ f s', (f ≤ n)%nat → (need s' ≤ f)%nat → ∀ b c u d,
            is_Some (desugarer_desugar typeExpr f s' b c u d)) by exact IH.
  assert (Hlist : ∀ f l, (f ≤ n)%nat → (needList l ≤ f)%nat → ∀ b c d,
            is_Some (desugarList (desugarer_desugar typeExpr f) l b c d)).
  { intros f l Hf Hl b' c' d'. apply mapM_total. intros x Hx d''.
    apply Hrec; [exact Hf|]. pose proof (need_elem l x Hx). lia. }
  assert (Hnil : ∀ f o, (f ≤ n)%nat →
            (match o with Some s => need s | None => 0%nat end ≤ f)%nat →
            ∀ b c u d, is_Some (desugarNil (desugarer_desugar typeExpr f) o b c u d)).
  { intros f [s'|] Hf Ho b' c' u' d'; cbn [desugarNil]; [|total_leaf].
    apply bind_total; [apply Hrec; [exact Hf|exact Ho]|]. intros; total_leaf. }
  clear IH.
  destruct s; cbn [need] in Hneed; unfold needList in Hlist;
    try (rewrite desugar_S; cbn [desugarer_desugar_body]; total_leaf).
  - (* BlockStmt *)
    rewrite desugar_S; cbn [desugarer_desugar_body].
    apply bind_total; [apply Hlist; lia|]. intros; total_leaf.
  - (* IfStmt *)
    rewrite desugar_S; cbn [desugarer_desugar_body].
    apply bind_total; [apply Hnil; lia|]. intros.
    apply bind_total; [apply Hlist; lia|]. intros.
    apply bind_total; [apply Hnil; lia|]. intros; total_leaf.
  - (* ForStmt *)
    rewrite desugar_S; cbn [desugarer_desugar_body].
    apply bind_total; [apply Hnil; lia|]. intros.
    apply bind_total; [total_leaf|]. intros.
    apply bind_total; [destruct u; total_leaf|]. intros.
    apply bind_total; [apply Hlist; lia|]. intros.
    apply bind_total; [apply Hnil; lia|]. intros; total_leaf.
  - (* RangeStmt *)
    assert (Hloop : ∀ i x Body' b c u d,
              (needList Body' ≤ Nat.max 1 (needList Body))%nat →
              is_Some (desugarer_desugar typeExpr fuel (indexLoop i x Body') b c u d)).
    { intros i x Body' b' c' u' d' Hle. apply Hrec; [lia|].
      rewrite need_indexLoop. unfold needList in *. lia. }
    destruct (TypeOf (info d) X) as [t|] eqn:Ht; [destruct t|].
    4: {
      destruct (decide (is_Some Key ∨ is_Some Value)) as [Hsome|Hnone].
      - destruct fuel as [|[|[|[|f]]]]; try lia.
        apply (desugar_Range_map_total f Key Value Tok X Body b c u d _ _ Ht Hsome).
        intros b' c' d'. apply Hlist; lia.
      - destruct Key as [key|]; [exfalso; apply Hnone; left; eauto|].
        destruct Value as [v|]; [exfalso; apply Hnone; right; eauto|].
        rewrite desugar_S. unfold desugarer_desugar_body.
        do 3 step_bind. rewrite TypeOf_afterVar_same, Ht.
        step_bind. apply bind_total; [apply Hloop; lia|]. intros; total_leaf. }
    all: rewrite desugar_S; unfold desugarer_desugar_body;
      do 3 step_bind; rewrite TypeOf_afterVar_same, Ht; try total_leaf.
    all: apply bind_total;
      [ destruct Key as [key|];
        [destruct (isUnderscore key); [rewrite newVar_eq; eauto | destruct key; total_leaf]
        | rewrite newVar_eq; eauto]
      | intros i d' _;
        apply bind_total;
        [ apply Hloop; destruct Value as [v|]; [destruct (isUnderscore v)|];
          unfold needList; cbn [foldr need]; lia
        | intros; total_leaf ] ].
  - (* SwitchStmt *)
    rewrite desugar_S; cbn [desugarer_desugar_body].
    apply bind_total; [apply Hnil; lia|]. intros.
    apply bind_total; [total_leaf|]. intros.
    apply bind_total; [destruct u; total_leaf|]. intros.
    apply bind_total; [apply Hlist; lia|]. intros; total_leaf.
  - (* TypeSwitchStmt *)
    rewrite desugar_S; cbn [desugarer_desugar_body].
    apply bind_total; [apply Hnil; lia|]. intros.
    apply bind_total; [total_leaf|]. intros.
    apply bind_total; [destruct u; total_leaf|]. intros.
    apply bind_total; [apply Hrec; lia|]. intros.
    apply bind_total; [apply Hlist; lia|]. intros; total_leaf.
  - (* CaseClause *)
    rewrite desugar_S; cbn [desugarer_desugar_body].
    apply bind_total; [apply Hlist; lia|]. intros; total_leaf.
  - (* BranchStmt *)
    rewrite desugar_S; cbn [desugarer_desugar_body].
    destruct Label as [Label|].
    + apply bind_total; [total_leaf|]. intros [l|] d' _; [|total_leaf].
      apply bind_total; [total_leaf|]. intros; total_leaf.
    + destruct Tok; try total_leaf.
  - (* LabeledStmt *)
    rewrite desugar_S; cbn [desugarer_desugar_body].
    apply Hrec; lia.
Qed.

(** The method [desugar] ends on every statement, in every state, once
    the fuel is [need] of the statement. *)
Theorem desugarer_desugar_total (fuel : nat) (s : Stmt) (b c u : option Ident)
    (d : desugarer) :
  (need s ≤ fuel)%nat → is_Some (desugarer_desugar typeExpr fuel s b c u d).
Proof. intros Hneed. exact (desugar_total fuel fuel s (le_n fuel) Hneed b c u d). Qed.

(** X20: the function [desugar] comes to an end.  On every statement and
    every type information, a depth of [need] of the statement is enough
    for it to return a statement or to panic; the recursion of the method
    on the loops that it builds itself for a range statement is
    included. *)
Theorem desugar_returns (fuel : nat) (s : Stmt) (info : Info) :
  (need s ≤ fuel)%nat → is_Some (desugar typeExpr fuel s info).
Proof.
  intros Hneed. unfold desugar.
  destruct (desugarer_desugar_total fuel s None None None (mkdesugarer info 0 0 ∅ []) Hneed)
    as [[[s' d]|p] ->]; eauto.
Qed.

(** X14: the form of what the method [desugar] returns.  Whenever it
    returns a statement, no [if], [for] or [switch] of the statement has
    an initializer, every [for] and every [switch] stands under a label,
    and a label stands over nothing else; range statements that were left
    as they were are not entered. *)
Theorem desugar_result_desugared (fuel : nat) (s : Stmt) (b c u : option Ident)
    (d : desugarer) (s' : Stmt) (d' : desugarer) :
  desugarer_desugar typeExpr fuel s b c u d = Some (Ok (s', d')) →
  desugared s' = true.
Proof. intros Hd. exact (proj2 (desugar_post fuel s b c u d s' d' Hd)). Qed.

(** X15: what a run of the method [desugar] does to the state of the
    desugarer.  The counters of variables and labels do not go down.  In
    the type information, [Types] and [Uses] are kept, and [Defs] is kept
    at every identifier but the variables [_v<i>] that the run made.  A
    label that is unused after the run was unused before it, or is a
    label [_l<i>] that the run made. *)
Theorem desugar_state_extends (fuel : nat) (s : Stmt) (b c u : option Ident)
    (d : desugarer) (s' : Stmt) (d' : desugarer) :
  desugarer_desugar typeExpr fuel s b c u d = Some (Ok (s', d')) →
  extends d d'.
Proof. intros Hd. exact (proj1 (desugar_post fuel s b c u d s' d' Hd)). Qed.

(** *** Ranges over arrays and slices, and ranges that are left *)


(** X17: a range over anything that is not itself an array, a slice or a
    map is left as it is: a string, a channel, an operand without a
    recorded type, and also an operand of a named type, whatever that
    type is defined as.  The statement comes back unchanged, its body is
    not desugared, and the state differs only by the variable made for
    the copy of the operand, which is not used. *)
Theorem range_over_other_left (fuel : nat) (Key Value : option Expr)
    (Tok : Token) (X : Expr) (Body : list Stmt)
    (breakTo continueTo userLabel : option Ident) (d : desugarer) :
  rangeLeft (TypeOf (info d) X) = true →
  desugarer_desugar typeExpr (S fuel) (RangeStmt Key Value Tok X Body)
    breakTo continueTo userLabel d =
  Some (Ok (RangeStmt Key Value Tok X Body, afterVar (TypeOf (info d) X) d)).
Proof.
  intros Hleft. rewrite desugar_S. unfold desugarer_desugar_body.
  do 3 step_bind. rewrite TypeOf_afterVar_same.
  destruct (TypeOf (info d) X) as [[]|]; try discriminate Hleft; reflexivity.
Qed.

(** *** Branch statements *)

(** X18: branch statements.  A branch to a label of the user is rewritten
    to the label that the desugarer put in its place, which is then no
    longer unused; when the label of the user was never mapped, [desugar]
    panics with the name of the label.  A [break] or [continue] without a
    label gets the label of the enclosing statement, nil when there is
    none, and a [goto] or [fallthrough] without a label is not
    implemented.  A label that [addUserLabel] has just mapped is found. *)
Theorem branch_labels (fuel : nat) (Tok : Token) (L l : Ident)
    (breakTo continueTo userLabel : option Ident) (d : desugarer) :
  (lookupLabel (ObjectOf (info d) L) (userLabels d) = Some l →
   desugarer_desugar typeExpr (S fuel) (BranchStmt Tok (Some L))
     breakTo continueTo userLabel d =
   Some (Ok (BranchStmt Tok (Some l), afterUse (Some l) d))) ∧
  (lookupLabel (ObjectOf (info d) L) (userLabels d) = None →
   desugarer_desugar typeExpr (S fuel) (BranchStmt Tok (Some L))
     breakTo continueTo userLabel d =
   Some (Panic (PanicString ("label not found: " +:+ Name L)))) ∧
  desugarer_desugar typeExpr (S fuel) (BranchStmt BREAK None)
    breakTo continueTo userLabel d =
    Some (Ok (BranchStmt BREAK breakTo, afterUse breakTo d)) ∧
  desugarer_desugar typeExpr (S fuel) (BranchStmt CONTINUE None)
    breakTo continueTo userLabel d =
    Some (Ok (BranchStmt CONTINUE continueTo, afterUse continueTo d)) ∧
  (Tok ≠ BREAK → Tok ≠ CONTINUE →
   desugarer_desugar typeExpr (S fuel) (BranchStmt Tok None)
     breakTo continueTo userLabel d =
   Some (Panic (PanicString "not implemented"))) ∧
  (addUserLabel L l d = Some (Ok (tt, afterUserLabel L l d)) ∧
   lookupLabel (ObjectOf (info (afterUserLabel L l d)) L)
     (userLabels (afterUserLabel L l d)) = Some l).
Proof.
  rewrite !desugar_S. unfold desugarer_desugar_body.
  split; [|split; [|split; [|split; [|split]]]].
  - intros Hl. unfold getUserLabel, bind, gets. rewrite Hl. reflexivity.
  - intros Hl. unfold getUserLabel, bind, gets. rewrite Hl. reflexivity.
  - destruct breakTo; reflexivity.
  - destruct continueTo; reflexivity.
  - intros Hb Hc. destruct Tok; try reflexivity; contradiction.
  - split; [reflexivity|]. cbn.
    destruct (decide (_ = _)); [reflexivity|contradiction].
Qed.

(** *** The function [desugar] on the body of a function *)

(** X19: the function [desugar] on a block, as [compileFuncBody] calls it
    on the body of a function.  When it returns, it returns a block, so
    the type assertion of the caller holds, and the block has as many
    statements as the body.  Of the type information, [Types] and [Uses]
    are kept, and so is [Defs] at every identifier that is not a
    variable [_v<i>] of the desugarer. *)
Theorem desugar_block (fuel : nat) (body : list Stmt) (info0 : Info)
    (s' : Stmt) (info' : Info) :
  desugar typeExpr fuel (BlockStmt body) info0 = Some (Ok (s', info')) →
  (∃ body' : list Stmt, s' = BlockStmt body' ∧ length body' = length body) ∧
  Types info' = Types info0 ∧ Uses info' = Uses info0 ∧
  (∀ id : Ident, (∀ i : nat, id ≠ genVar i) → Defs info' !! id = Defs info0 !! id).
Proof.
  unfold desugar. intros Hd.
  destruct (desugarer_desugar typeExpr fuel (BlockStmt body) None None None
              (mkdesugarer info0 0 0 ∅ [])) as [[[s1 d1]|p]|] eqn:Hrun;
    try discriminate Hd.
  injection Hd as <- <-.
  pose proof (desugar_post fuel _ _ _ _ _ _ _ Hrun) as [[_ _ HT HU HD _] _].
  cbn in HT, HU, HD. split; [|split; [exact HT|split; [exact HU|]]].
  - destruct fuel as [|fuel]; [discriminate Hrun|].
    rewrite desugar_S in Hrun. cbn [desugarer_desugar_body] in Hrun.
    apply StepFacts.bind_inv in Hrun as (l & d2 & Hl & Hrun).
    apply StepFacts.ret_inv in Hrun as [-> ->].
    apply StepFacts.mapM_length in Hl. cbn [deleteUnusedLabels].
    eexists. split; [reflexivity|]. rewrite length_fmap. exact Hl.
  - intros id Hid. apply HD. intros i _. apply Hid.
Qed.

(** *** The second pass *)

Lemma forallb_visit (d : desugarer) (l : list Stmt) :
  Forall (λ s, desugared s = true → noUnusedLabel d (visit d s) = true) l →
  forallb desugared l = true →
  forallb (noUnusedLabel d) (visit d <$> l) = true.
Proof.
  induction 1 as [|s l Hs _ IH]; cbn [forallb fmap list_fmap]; [reflexivity|].
  intros Hall. apply andb_true_iff in Hall as [H1 H2].
  rewrite (Hs H1), (IH H2). reflexivity.
Qed.

Lemma visit_desugared (d : desugarer) (s : Stmt) :
  desugared s = true → noUnusedLabel d (visit d s) = true.
Proof.
  enough (Hboth : (desugared s = true → noUnusedLabel d (visit d s) = true) ∧
                  (∀ l, desugared (LabeledStmt l s) = true →
                        noUnusedLabel d (deleteUnusedLabels d s) = true))
    by exact (proj1 Hboth).
  induction s as [ | l Hl | i c b e Hi Hb He | i c p b Hi Hp Hb | k v t x b Hb
                 | i t b Hi Hb | i a b Hi Ha Hb | l b Hb | t l | l s IHs | b Hb
                 | c b Hc Hb | l t r | x | f a | | x | f a | x t | r | c v ]
    using StepFacts.Stmt_tree_ind; split;
    try (intros l' Hd; discriminate Hd);
    try (intros Hd; discriminate Hd);
    try (intros _; reflexivity).
  - (* block *)
    intros Hd. cbn in Hd.
    change (forallb (noUnusedLabel d) (visit d <$> l) = true).
    apply forallb_visit; [|exact Hd].
    eapply Forall_impl; [exact Hl|]. intros x Hx. exact (proj1 Hx).
  - (* if *)
    intros Hd. destruct i as [i|]; [discriminate Hd|]. cbn in Hd.
    apply andb_true_iff in Hd as [Hdb Hde].
    assert (Hbody : forallb (noUnusedLabel d) (visit d <$> b) = true).
    { apply forallb_visit; [|exact Hdb].
      eapply Forall_impl; [exact Hb|]. intros x Hx. exact (proj1 Hx). }
    destruct e as [e|].
    + change ((forallb (noUnusedLabel d) (visit d <$> b) &&
               noUnusedLabel d (visit d e)) = true).
      rewrite Hbody. cbn [andb]. apply He, Hde.
    + change ((forallb (noUnusedLabel d) (visit d <$> b) && true) = true).
      rewrite Hbody. reflexivity.
  - (* for, under a label *)
    intros l Hd. destruct i as [i|]; [discriminate Hd|]. cbn in Hd.
    apply andb_true_iff in Hd as [Hdp Hdb].
    assert (Hbody : forallb (noUnusedLabel d) (visit d <$> b) = true).
    { apply forallb_visit; [|exact Hdb].
      eapply Forall_impl; [exact Hb|]. intros x Hx. exact (proj1 Hx). }
    destruct p as [p|].
    + change ((noUnusedLabel d (visit d p) &&
               forallb (noUnusedLabel d) (visit d <$> b)) = true).
      rewrite Hbody, andb_true_r. apply Hp, Hdp.
    + exact Hbody.
  - (* switch, under a label *)
    intros l Hd. destruct i as [i|]; [discriminate Hd|]. cbn in Hd.
    change (forallb (noUnusedLabel d) (visit d <$> b) = true).
    apply forallb_visit; [|exact Hd].
    eapply Forall_impl; [exact Hb|]. intros x Hx. exact (proj1 Hx).
  - (* type switch, under a label *)
    intros l Hd. destruct i as [i|]; [discriminate Hd|]. cbn in Hd.
    apply andb_true_iff in Hd as [Hda Hdb].
    change ((noUnusedLabel d (visit d a) &&
             forallb (noUnusedLabel d) (visit d <$> b)) = true).
    rewrite forallb_visit; [|eapply Forall_impl; [exact Hb|];
                             intros x Hx; exact (proj1 Hx)|exact Hdb].
    rewrite andb_true_r. apply Ha, Hda.
  - (* case clause *)
    intros Hd. cbn in Hd.
    change (forallb (noUnusedLabel d) (visit d <$> b) = true).
    apply forallb_visit; [|exact Hd].
    eapply Forall_impl; [exact Hb|]. intros x Hx. exact (proj1 Hx).
  - (* labeled statement *)
    intros Hd. pose proof (proj2 IHs l Hd) as Hbody.
    cbn [visit]. destruct (isUnusedLabel d l) eqn:Hunused; [exact Hbody|].
    assert (Hvisit : visit d s = deleteUnusedLabels d s)
      by (destruct s; try reflexivity; discriminate Hd).
    change (negb (isUnusedLabel d l) && noUnusedLabel d (visit d s) = true).
    rewrite Hunused, Hvisit. exact Hbody.
Qed.

(** X28: the second pass of [desugar] on a block, as [compileFuncBody]
    calls it on the body of a function.  In the block that the first pass
    returned, after the second pass no labeled statement is left whose
    label the desugarer holds as unused: the labels that the first pass
    put over a [for] or a [switch] and that no branch came to use are all
    taken out.  Range statements that were left as they were are not
    entered. *)
Theorem second_pass_deletes_unused (fuel : nat) (body : list Stmt)
    (b c u : option Ident) (d : desugarer) (s' : Stmt) (d' : desugarer) :
  desugarer_desugar typeExpr fuel (BlockStmt body) b c u d = Some (Ok (s', d')) →
  noUnusedLabel d' (deleteUnusedLabels d' s') = true.
Proof.
  intros Hrun.
  pose proof (proj2 (desugar_post fuel _ _ _ _ _ _ _ Hrun)) as Hform.
  destruct fuel as [|fuel]; [discriminate Hrun|].
  rewrite desugar_S in Hrun. cbn [desugarer_desugar_body] in Hrun.
  apply StepFacts.bind_inv in Hrun as (l & d2 & Hl & Hrun).
  apply StepFacts.ret_inv in Hrun as [Hs Hd]. subst s' d2.
  exact (visit_desugared d' (BlockStmt l) Hform).
Qed.

End facts.


Example example_range_desugared :
  ∃ d1,
    desugarer_desugar example_typeExpr 5 example_range None None None
      example_desugarer =
    Some (Ok (keyLoops example_typeExpr (Id example_m)
                (GoTypes.Basic GoTypes.String)
                (genVar 0) (genVar 1) (genVar 2) (mkIdent 20 "k") (mkIdent 21 "v")
                (genVar 3) (genVar 4) (genVar 5) (genLabel 0) example_body, d1)) ∧
    loops (keyLoops example_typeExpr (Id example_m)
             (GoTypes.Basic GoTypes.String)
             (genVar 0) (genVar 1) (genVar 2) (mkIdent 20 "k") (mkIdent 21 "v")
             (genVar 3) (genVar 4) (genVar 5) (genLabel 0) example_body) = 2%nat.
Proof. eexists. split; vm_compute; reflexivity. Qed.


Lemma desugar_returns_witness :
  is_Some (desugar example_typeExpr 5 example_range example_info).
Proof.
  apply (desugar_returns example_typeExpr 5 example_range example_info).
  vm_compute. lia.
Defined.

Lemma desugar_result_desugared_witness :
  desugared
    (keyLoops example_typeExpr (Id example_m) (GoTypes.Basic GoTypes.String)
       (genVar 0) (genVar 1) (genVar 2) (mkIdent 20 "k") (mkIdent 21 "v")
       (genVar 3) (genVar 4) (genVar 5) (genLabel 0) example_body) = true.
Proof.
  eapply (desugar_result_desugared example_typeExpr 5 example_range None None None
            example_desugarer).
  vm_compute. reflexivity.
Defined.

Lemma desugar_state_extends_witness :
  ∃ (s' : Stmt) (d' : desugarer),
    desugarer_desugar example_typeExpr 5 example_range None None None
      example_desugarer = Some (Ok (s', d')) ∧
    extends example_desugarer d'.
Proof.
  eexists _, _. split; [vm_compute; reflexivity|].
  eapply (desugar_state_extends example_typeExpr 5 example_range None None None
            example_desugarer).
  vm_compute. reflexivity.
Defined.


Lemma range_over_other_left_witness :
  desugarer_desugar example_typeExpr 1 (example_range_over example_ys)
    None None None example_slices_desugarer =
  Some (Ok (example_range_over example_ys,
            afterVar (Some (GoTypes.Named "Ints" (GoTypes.Slice (GoTypes.Basic GoTypes.Int))))
              example_slices_desugarer)).
Proof.
  apply (range_over_other_left example_typeExpr 0
           (Some (Id (mkIdent 20 "i"))) (Some (Id (mkIdent 21 "v"))) DEFINE
           (Id example_ys) example_body None None None example_slices_desugarer).
  reflexivity.
Defined.

Lemma desugar_block_witness :
  ∃ (s' : Stmt) (info' : Info),
    desugar example_typeExpr 4 (BlockStmt [example_range_over example_xs])
      example_slices_info = Some (Ok (s', info')) ∧
    (∃ body' : list Stmt, s' = BlockStmt body' ∧
       length body' = length [example_range_over example_xs]) ∧
    Types info' = Types example_slices_info ∧
    Uses info' = Uses example_slices_info ∧
    (∀ id : Ident, (∀ i : nat, id ≠ genVar i) →
       Defs info' !! id = Defs example_slices_info !! id).
Proof.
  eexists _, _. split; [vm_compute; reflexivity|].
  eapply (desugar_block example_typeExpr 4 [example_range_over example_xs]
            example_slices_info).
  vm_compute. reflexivity.
Defined.

Lemma second_pass_deletes_unused_witness :
  ∃ (s' : Stmt) (d' : desugarer),
    desugarer_desugar example_typeExpr 4 (BlockStmt [example_range_over example_xs])
      None None None example_slices_desugarer = Some (Ok (s', d')) ∧
    genLabel 0 ∈ unusedLabels d' ∧
    noUnusedLabel d' s' = false ∧
    noUnusedLabel d' (deleteUnusedLabels d' s') = true.
Proof.
  eexists _, _. split; [vm_compute; reflexivity|].
  split; [vm_compute; set_solver|].
  split; [vm_compute; reflexivity|].
  eapply (second_pass_deletes_unused example_typeExpr 4
            [example_range_over example_xs] None None None example_slices_desugarer).
  vm_compute. reflexivity.
Defined.

End DesugarFacts.

(** ** Properties of the function compiler *)

Module CompileFacts.
Import Ast Compile.

Section Expr_walk_ind.
Context (P : Expr -> Prop) (Q : Field -> Prop).
Context (HId : ∀ i, P (Id i)) (HLit : ∀ k v, P (BasicLit k v)).
Context (HCall : ∀ f args, P f → Forall P args → P (CallExpr f args)).
Context (HIndex : ∀ x i, P x → P i → P (IndexExpr x i)).
Context (HIndexList : ∀ x is_, P x → Forall P is_ → P (IndexListExpr x is_)).
Context (HBinary : ∀ x op y, P x → P y → P (BinaryExpr x op y)).
Context (HUnary : ∀ op x, P x → P (UnaryExpr op x)).
Context (HSelector : ∀ x sel, P x → P (SelectorExpr x sel)).
Context (HStar : ∀ x, P x → P (StarExpr x)).
Context (HFuncLit : ∀ node typ body, P (FuncLit node typ body)).
Context (HStruct : ∀ fields, Forall Q fields → P (StructType fields)).
Context (HComposite : ∀ t elts,
  match t with Some t' => P t' | None => True end → Forall P elts →
  P (CompositeLit t elts)).
Context (HKeyValue : ∀ k v, P k → P v → P (KeyValueExpr k v)).
Context (HOther : ∀ n ops, Forall P ops → P (OtherExpr n ops)).
Context (HField : ∀ names t, P t → Q (mkField names t)).

Fixpoint Expr_walk_ind (e : Expr) : P e :=
  let all := fix all (l : list Expr) : Forall P l :=
    match l with
    | [] => List.Forall_nil P
    | x :: l => @List.Forall_cons _ P x l (Expr_walk_ind x) (all l)
    end in
  match e with
  | Id i => HId i
  | BasicLit k v => HLit k v
  | CallExpr f args => HCall f args (Expr_walk_ind f) (all args)
  | IndexExpr x i => HIndex x i (Expr_walk_ind x) (Expr_walk_ind i)
  | IndexListExpr x is_ => HIndexList x is_ (Expr_walk_ind x) (all is_)
  | BinaryExpr x op y => HBinary x op y (Expr_walk_ind x) (Expr_walk_ind y)
  | UnaryExpr op x => HUnary op x (Expr_walk_ind x)
  | SelectorExpr x sel => HSelector x sel (Expr_walk_ind x)
  | StarExpr x => HStar x (Expr_walk_ind x)
  | FuncLit node typ body => HFuncLit node typ body
  | StructType fields =>
      HStruct fields
        ((fix allf (l : list Field) : Forall Q l :=
            match l with
            | [] => List.Forall_nil Q
            | x :: l => @List.Forall_cons _ Q x l (Field_walk_ind x) (allf l)
            end) fields)
  | CompositeLit t elts =>
      HComposite t elts
        (match t return match t with Some t' => P t' | None => True end with
         | Some t0 => Expr_walk_ind t0
         | None => I
         end)
        (all elts)
  | KeyValueExpr k v => HKeyValue k v (Expr_walk_ind k) (Expr_walk_ind v)
  | OtherExpr n ops => HOther n ops (all ops)
  end
with Field_walk_ind (f : Field) : Q f :=
  match f with
  | mkField names t => HField names t (Expr_walk_ind t)
  end.
End Expr_walk_ind.

Section facts.
Context (typeExpr : Package -> GoTypes.Type_ -> Expr).
Context {MayYield Spans : Type}.
Context (findCalls : list Stmt -> Info -> MayYield).
Context (markBranchStmt : list Stmt -> MayYield -> MayYield).
Context (renameFuncRecvParamsResults :
  FuncType -> option (list Field) -> list Stmt -> Info -> FuncType * list Stmt).
Context (extractDecls :
  Package -> FuncType -> list Stmt -> option (list Field) -> option Ident -> Info ->
  list Decl * list Field * Expr).
Context (renameObjects :
  list Stmt -> Info -> list Decl -> Ident -> list Field -> Expr -> list Stmt).
Context (trackDispatchSpans : list Stmt -> Spans).
Context (compileDispatch : list Stmt -> Ident -> Spans -> MayYield -> Stmt).
Context (coroutinePkg : string).

Abbreviation compileFuncBody :=
  (compileFuncBody typeExpr findCalls markBranchStmt renameFuncRecvParamsResults
     extractDecls renameObjects trackDispatchSpans compileDispatch coroutinePkg).
Abbreviation compileFuncLit :=
  (compileFuncLit typeExpr findCalls markBranchStmt renameFuncRecvParamsResults
     extractDecls renameObjects trackDispatchSpans compileDispatch coroutinePkg).

Lemma scope_eta (s : scope) :
  mkscope (colors s) (objectIndex s) (frameIndex s) (TypesInfo s) (defers s) = s.
Proof. destruct s; reflexivity. Qed.

Lemma info_eta (i : Info) : mkInfo (Types i) (Defs i) (Uses i) = i.
Proof. destruct i; reflexivity. Qed.


Lemma expression_body_walk (fuel : nat) (p : Package) (typ : FuncType) (e : Expr)
    (recv : option (list Field)) (color : GoTypes.Signature) (s : scope) :
  compileFuncBody (S (S fuel)) p typ [ExprStmt e] recv color s =
  match walkExpr (compileFuncLit (S fuel) p) e (set_defers None s) with
  | Some (Ok (e', s')) => Some (Ok ([ExprStmt e'], set_defers (defers s) s'))
  | Some (Panic q) => Some (Panic q)
  | None => None
  end.
Proof.
  cbn. unfold bind at 1. unfold bind at 1. unfold bind at 1.
  change (set_TypesInfo (TypesInfo s) (set_defers None s)) with (set_defers None s).
  unfold compileFuncLit.
  destruct (walkExpr _ e (set_defers None s)) as [[[e' s']|q]|]; reflexivity.
Qed.

Lemma mapM_unchanged {A} (f : A -> C A) (c : scope -> A -> bool) (l : list A) :
  Forall (λ x, ∀ s, c s x = false → f x s = Some (Ok (x, s))) l →
  ∀ s, existsb (c s) l = false → mapM f l s = Some (Ok (l, s)).
Proof.
  induction 1 as [|x l Hx Hl IH]; intros s Hex; [reflexivity|].
  cbn [existsb] in Hex. apply orb_false_elim in Hex as [Hcx Hcl].
  cbn [mapM]. unfold bind. rewrite (Hx s Hcx), (IH s Hcl). reflexivity.
Qed.

Lemma walkExpr_uncolored
    (lit : NodeId -> FuncType -> list Stmt -> GoTypes.Signature -> C Expr)
    (e : Expr) :
  ∀ s, coloredLit (colors s) e = false → walkExpr lit e s = Some (Ok (e, s)).
Proof.
  induction e using Expr_walk_ind with
    (Q := λ f, ∀ s, coloredLitField (colors s) f = false →
                    walkField lit f s = Some (Ok (f, s)));
    intros s Hc;
    try match goal with |- context [CompositeLit ?t _] => destruct t end;
    cbn [coloredLit coloredLitField] in Hc;
    repeat match type of Hc with
           | _ || _ = false =>
               let H := fresh "Hc" in apply orb_false_elim in Hc as [H Hc]
           end;
    cbn [walkExpr walkField]; unfold bind, ret;
    repeat match goal with
      | IH : ∀ s, coloredLit (colors s) ?x = false → _,
        H : coloredLit (colors ?s) ?x = false |- _ =>
          rewrite (IH s H); clear IH
      | IH : Forall _ ?l, H : existsb (coloredLit _) ?l = false |- _ =>
          rewrite (mapM_unchanged _ (λ s, coloredLit (colors s)) l IH _ H); clear IH
      | IH : Forall _ ?l, H : existsb (coloredLitField _) ?l = false |- _ =>
          rewrite (mapM_unchanged _ (λ s, coloredLitField (colors s)) l IH _ H);
          clear IH
      end;
    try reflexivity.
  (* FuncLit *)
  unfold visitFuncLit, bind, gets. apply bool_decide_eq_false_1 in Hc.
  destruct (colors s !! node) as [c|] eqn:Hn; [|reflexivity].
  exfalso. apply Hc. eauto.
Qed.


End facts.




Lemma collectImports_conflict (info : Info) (xs : list Expr) :
  ∀ m, collectImports info m xs = Panic (PanicString "conflicting imports") ↔
       conflicting m (omap (importBinding info) xs).
Proof.
  induction xs as [|x xs IH]; intros m.
  - cbn. split; [discriminate|].
    intros (name & pkg1 & pkg2 & _ & Hin & _). inversion Hin.
  - cbn [collectImports omap list_omap].
    fold (@omap list _ _ _ (importBinding info) xs).
    destruct (importBinding info x) as [[n p]|]; [|apply IH].
    assert (Hstep : m !! n = None ∨ m !! n = Some p →
      (conflicting (<[n:=p]> m) (omap (importBinding info) xs) ↔
       conflicting m ((n, p) :: omap (importBinding info) xs))).
    { intros Hm. split.
      - intros (name & pkg1 & pkg2 & Hne & Hin & Hfst).
        exists name, pkg1, pkg2. split; [exact Hne|]. split; [by right|].
        destruct Hfst as [Hl|Hr]; [|right; by right].
        destruct (decide (n = name)) as [->|Hnn].
        + rewrite lookup_insert_eq in Hl. injection Hl as <-. right. by left.
        + rewrite lookup_insert_ne in Hl by done. by left.
      - intros (name & pkg1 & pkg2 & Hne & Hin & Hfst).
        apply elem_of_cons in Hin as [Heq|Hin].
        + injection Heq as -> ->.
          destruct Hfst as [Hl|Hr].
          * destruct Hm as [Hm|Hm]; congruence.
          * apply elem_of_cons in Hr as [Heq|Hr]; [congruence|].
            exists n, p, pkg1. split; [congruence|]. split; [exact Hr|].
            left. apply lookup_insert_eq.
        + exists name, pkg1, pkg2. split; [exact Hne|]. split; [exact Hin|].
          destruct Hfst as [Hl|Hr].
          * left. destruct (decide (n = name)) as [->|Hnn].
            -- rewrite lookup_insert_eq. destruct Hm as [Hm|Hm]; congruence.
            -- by rewrite lookup_insert_ne.
          * apply elem_of_cons in Hr as [Heq|Hr]; [|by right].
            injection Heq as -> ->. left. apply lookup_insert_eq. }
    destruct (m !! n) as [existing|] eqn:Hmn.
    + destruct (decide (existing = p)) as [->|Hne].
      * rewrite bool_decide_eq_false_2 by (intros H; by apply H).
        rewrite IH. apply Hstep. by right.
      * rewrite bool_decide_eq_true_2 by done.
        split; [intros _|reflexivity].
        exists n, existing, p. split; [exact Hne|]. split; [by left|]. by left.
    + rewrite IH. apply Hstep. by left.
Qed.

(** C8: the import synthesizer panics with the conflicting imports
    message exactly when the file binds one local name to two module paths
    (paths as the synthesizer writes them, without a leading vendor
    directory); and a caller that goes on with the file that [addImports]
    returns then does nothing: the panic is the outcome of the caller. *)
Theorem conflicting_imports_panic (info : Info) (gen : File) :
  ((∃ name pkg1 pkg2,
      (name, pkg1) ∈ importBindings info gen ∧
      (name, pkg2) ∈ importBindings info gen ∧ pkg1 ≠ pkg2) ↔
   addImports info gen = Panic (PanicString "conflicting imports")) ∧
  (∀ (A : Type) (k : File -> result A),
     addImports info gen = Panic (PanicString "conflicting imports") →
     rbind (addImports info gen) k = Panic (PanicString "conflicting imports")).
Proof.
  split.
  - unfold addImports, importBindings.
    destruct (collectImports info ∅ (selectorsFile gen)) as [imports|q] eqn:Hc.
    + split.
      * intros (name & pkg1 & pkg2 & H1 & H2 & Hne).
        assert (Hp : collectImports info ∅ (selectorsFile gen)
                     = Panic (PanicString "conflicting imports")).
        { apply collectImports_conflict. exists name, pkg1, pkg2. auto. }
        congruence.
      * cbn. destruct (bool_decide _); discriminate.
    + cbn. split.
      * intros (name & pkg1 & pkg2 & H1 & H2 & Hne).
        assert (Hp : collectImports info ∅ (selectorsFile gen)
                     = Panic (PanicString "conflicting imports")).
        { apply collectImports_conflict. exists name, pkg1, pkg2. auto. }
        congruence.
      * intros Hq. injection Hq as ->.
        apply collectImports_conflict in Hc
          as (name & pkg1 & pkg2 & Hne & H2 & [Hl|H1]).
        -- rewrite lookup_empty in Hl. discriminate.
        -- exists name, pkg1, pkg2. auto.
  - intros A k ->. reflexivity.
Qed.

Lemma conflicting_imports_panic_witness :
  addImports example_imports_info example_conflict_file =
    Panic (PanicString "conflicting imports") ∧
  rbind (addImports example_imports_info example_conflict_file)
    (λ gen, Ok (length (Decls gen))) =
    Panic (PanicString "conflicting imports").
Proof.
  assert (Hp : addImports example_imports_info example_conflict_file =
               Panic (PanicString "conflicting imports")).
  { apply (proj1 (proj1 (conflicting_imports_panic example_imports_info
                           example_conflict_file))).
    exists "coroutine", "github.com/stealthrocket/coroutine",
      "example.com/other/coroutine".
    split; [|split].
    - apply list_elem_of_In. vm_compute. auto.
    - apply list_elem_of_In. vm_compute. auto.
    - discriminate. }
  split; [exact Hp|].
  apply (proj2 (conflicting_imports_panic example_imports_info
                  example_conflict_file) nat (λ gen, Ok (length (Decls gen))) Hp).
Defined.

(** A package and its copy under a vendor directory are one module to the
    synthesizer. *)
Example vendor_prefix_is_no_conflict :
  addImports example_imports_info example_vendor_file =
  Ok (mkFile (NewIdent "main")
        (GenDecl IMPORT
           [ImportSpec (Some (NewIdent "fmt")) (BasicLit STRING (Quote "fmt"))]
         :: Decls example_vendor_file)).
Proof. vm_compute. reflexivity. Qed.

(** *** Results that have names *)

(** X11: [funcTypeWithNamedResults] keeps the parameters, returns a type
    without results as it is, and otherwise gives every result a name:
    the results keep their number, their order and their types, a result
    with names keeps them, and a result without a name is named [_].  A
    second application changes nothing. *)
Theorem funcTypeWithNamedResults_names (t : FuncType) :
  let t' := funcTypeWithNamedResults t in
  funcParams t' = funcParams t ∧
  (funcResults t = None → t' = t) ∧
  (∀ rs : list Field, funcResults t = Some rs →
     ∃ rs' : list Field, funcResults t' = Some rs' ∧
       Forall2 (λ f f' : Field,
                  fieldType f' = fieldType f ∧
                  fieldNames f' = match fieldNames f with
                                  | [] => [NewIdent "_"]
                                  | names => names
                                  end) rs rs' ∧
       Forall (λ f' : Field, fieldNames f' ≠ []) rs') ∧
  funcTypeWithNamedResults t' = t'.
Proof.
  destruct t as [params [rs|]]; cbn; [|repeat split; intros; discriminate].
  split; [reflexivity|]. split; [discriminate|]. split.
  - intros rs0 Hrs. injection Hrs as <-. eexists. split; [reflexivity|]. split.
    + induction rs as [|[[|n ns] ty] rs IH]; constructor; auto.
    + induction rs as [|[[|n ns] ty] rs IH]; constructor; auto; cbn; discriminate.
  - do 2 f_equal. rewrite <- list_fmap_compose.
    apply list_fmap_ext. intros i [[|n ns] ty] _; reflexivity.
Qed.

(** *** The import declaration *)

Lemma collectImports_Ok (info : Info) (xs : list Expr) :
  ∀ m m' : gmap string string, collectImports info m xs = Ok m' →
    ∀ name path, m' !! name = Some path ↔
      m !! name = Some path ∨ (name, path) ∈ omap (importBinding info) xs.
Proof.
  induction xs as [|x xs IH]; intros m m' Hc name path.
  - cbn in Hc. injection Hc as <-. cbn. split; [auto|].
    intros [?|Hin]; [done|inversion Hin].
  - cbn [collectImports omap list_omap] in *.
    fold (@omap list _ _ _ (importBinding info) xs).
    destruct (importBinding info x) as [[n p]|]; [|exact (IH m m' Hc name path)].
    assert (Hstep : m !! n = None ∨ m !! n = Some p →
      collectImports info (<[n:=p]> m) xs = Ok m' →
      m' !! name = Some path ↔
        m !! name = Some path ∨ (name, path) ∈ (n, p) :: omap (importBinding info) xs).
    { intros Hn Hrec. rewrite (IH _ _ Hrec name path), elem_of_cons.
      destruct (decide (name = n)) as [->|Hne].
      - rewrite lookup_insert_eq. split.
        + intros [Heq|Hin]; [|auto]. injection Heq as <-. auto.
        + intros [Hm|[Heq|Hin]]; [|injection Heq as ->; auto|auto].
          destruct Hn as [Hn|Hn]; rewrite Hn in Hm; [discriminate|].
          injection Hm as <-. auto.
      - rewrite lookup_insert_ne by done. split.
        + intros [?|?]; auto.
        + intros [?|[Heq|?]]; auto. injection Heq as -> _. done. }
    destruct (m !! n) as [existing|] eqn:Hn.
    + destruct (bool_decide (existing ≠ p)) eqn:Hne; [discriminate Hc|].
      apply bool_decide_eq_false_1 in Hne.
      assert (existing = p) as -> by (destruct (decide (existing = p)); [done|contradiction]).
      apply Hstep; auto.
    + apply Hstep; auto.
Qed.

Lemma append_dquote_inj (s1 s2 : string) :
  s1 +:+ String.String dquote String.EmptyString =
  s2 +:+ String.String dquote String.EmptyString → s1 = s2.
Proof.
  revert s2. induction s1 as [|a s1 IH]; intros [|b s2] Heq; cbn in Heq.
  - reflexivity.
  - injection Heq as _ Heq. destruct s2; discriminate Heq.
  - injection Heq as _ Heq. destruct s1; discriminate Heq.
  - injection Heq as -> Heq. f_equal. apply IH, Heq.
Qed.

#[local] Instance importSpec_inj : Inj (=) (=) importSpec.
Proof.
  intros [n1 p1] [n2 p2] Heq. unfold importSpec, NewIdent in Heq.
  cbn [fst snd] in Heq. injection Heq as Hn Hp. apply append_dquote_inj in Hp. congruence.
Qed.

(** X12: what [addImports] returns when it returns.  The file keeps its
    name.  When no selector of the file binds a package, the file comes
    back as it is.  Otherwise one import declaration is put in front of
    the declarations, which follow in their order; its specs are, each
    once, the specs of the bindings that the selectors of the file make:
    the local name, and the quoted path. *)
Theorem addImports_import_decl (info : Info) (gen gen' : File) :
  addImports info gen = Ok gen' →
  FileName gen' = FileName gen ∧
  (importBindings info gen = [] → gen' = gen) ∧
  (importBindings info gen ≠ [] →
     ∃ specs : list Spec,
       Decls gen' = GenDecl IMPORT specs :: Decls gen ∧
       NoDup specs ∧
       ∀ spec : Spec, spec ∈ specs ↔
         ∃ binding, binding ∈ importBindings info gen ∧ spec = importSpec binding).
Proof.
  unfold addImports, importBindings.
  destruct (collectImports info ∅ (selectorsFile gen)) as [imports|q] eqn:Hc;
    [|discriminate].
  pose proof (collectImports_Ok info _ _ _ Hc) as Himports.
  cbn [rbind]. intros Hgen.
  assert (Hempty : size imports = 0%nat ↔ omap (importBinding info) (selectorsFile gen) = []).
  { rewrite map_size_empty_iff. split.
    - intros ->. destruct (omap _ _) as [|[n p] l] eqn:Hl; [reflexivity|].
      specialize (Himports n p). rewrite lookup_empty in Himports.
      destruct Himports as [_ Hi]. discriminate Hi. right. by left.
    - intros Hnil. apply map_empty. intros n.
      destruct (imports !! n) as [p|] eqn:Hn; [|reflexivity].
      apply Himports in Hn. rewrite Hnil, lookup_empty in Hn.
      destruct Hn as [Hn|Hn]; [discriminate|inversion Hn]. }
  destruct (bool_decide (size imports = 0%nat)) eqn:Hsize.
  - apply bool_decide_eq_true_1 in Hsize. injection Hgen as <-.
    split; [reflexivity|]. split; [reflexivity|].
    intros Hne. exfalso. apply Hne, Hempty, Hsize.
  - apply bool_decide_eq_false_1 in Hsize. injection Hgen as <-. cbn.
    split; [reflexivity|]. split.
    + intros Hnil. exfalso. apply Hsize, Hempty, Hnil.
    + intros _. eexists. split; [reflexivity|].
      assert (Hspecs :
        ((λ '(name, path),
            ImportSpec (Some (NewIdent name)) (BasicLit STRING (Quote path)))
           <$> map_to_list imports) = importSpec <$> map_to_list imports).
      { apply list_fmap_ext. intros i [n p] _. reflexivity. }
      rewrite Hspecs. split.
      * apply (NoDup_fmap_2 _), NoDup_map_to_list.
      * intros spec. rewrite list_elem_of_fmap. split.
        -- intros ([n p] & -> & Hin). exists (n, p). split; [|reflexivity].
           apply elem_of_map_to_list in Hin. apply Himports in Hin.
           rewrite lookup_empty in Hin. destruct Hin as [Hin|Hin]; [discriminate|done].
        -- intros ([n p] & Hin & ->). exists (n, p). split; [reflexivity|].
           apply elem_of_map_to_list, Himports. auto.
Qed.

Lemma addImports_import_decl_witness :
  FileName example_vendor_file = FileName example_vendor_file ∧
  (importBindings example_imports_info example_vendor_file = [] →
   mkFile (NewIdent "main")
     (GenDecl IMPORT [importSpec ("fmt", "fmt")] :: Decls example_vendor_file)
   = example_vendor_file) ∧
  (importBindings example_imports_info example_vendor_file ≠ [] →
     ∃ specs : list Spec,
       GenDecl IMPORT [importSpec ("fmt", "fmt")] :: Decls example_vendor_file
       = GenDecl IMPORT specs :: Decls example_vendor_file ∧
       NoDup specs ∧
       ∀ spec : Spec, spec ∈ specs ↔
         ∃ binding, binding ∈ importBindings example_imports_info example_vendor_file
                    ∧ spec = importSpec binding).
Proof.
  apply (addImports_import_decl example_imports_info example_vendor_file
           (mkFile (NewIdent "main")
              (GenDecl IMPORT [importSpec ("fmt", "fmt")] :: Decls example_vendor_file))).
  vm_compute. reflexivity.
Defined.

(** *** Defer statements *)

Lemma existsb_hasDefer (l : list Stmt) :
  Forall (λ s, hasDefer s = false) l → existsb hasDefer l = false.
Proof. induction 1 as [|s l Hs Hl IH]; cbn; [reflexivity|]. by rewrite Hs, IH. Qed.

Lemma walkNil_no_defer (f : Stmt -> C Stmt) (o : option Stmt) :
  match o with
  | Some s => ∀ st s' st', f s st = Some (Ok (s', st')) → hasDefer s' = false
  | None => True
  end →
  ∀ st o' st',
    match o with
    | Some s => s <- f s ;; ret (Some s)
    | None => ret None
    end st = Some (Ok (o', st')) →
    match o' with Some s => hasDefer s | None => false end = false.
Proof.
  intros IH st o' st' Hw. destruct o as [s|].
  - apply StepFacts.bind_inv in Hw as (s1 & st1 & Hs & Hw).
    apply StepFacts.ret_inv in Hw as [-> ->]. eauto.
  - apply StepFacts.ret_inv in Hw as [-> ->]. reflexivity.
Qed.

Ltac walk_children :=
  repeat match goal with
  | H : mapM (walkStmt _ _) ?l _ = Some (Ok _), IH : Forall _ ?l |- _ =>
      apply (StepFacts.mapM_Forall (λ s, hasDefer s = false) _ _ IH) in H;
      apply existsb_hasDefer in H; clear IH
  | H : match ?o with Some _ => _ | None => _ end _ = Some (Ok _),
    IH : match ?o with Some _ => _ | None => True end |- _ =>
      apply (walkNil_no_defer _ _ IH) in H; clear IH
  | H : walkStmt _ _ ?s _ = Some (Ok _),
    IH : ∀ st s' st', walkStmt _ _ ?s st = Some (Ok (s', st')) → _ |- _ =>
      apply IH in H; clear IH
  end.

Lemma walkStmt_no_defer
    (compileFuncLit : NodeId -> FuncType -> list Stmt -> GoTypes.Signature -> C Expr)
    (p : Package) (s : Stmt) :
  ∀ st s' st', walkStmt compileFuncLit p s st = Some (Ok (s', st')) →
    hasDefer s' = false.
Proof.
  induction s using StepFacts.Stmt_tree_ind; intros st s' st' Hw;
    cbn [walkStmt] in Hw;
    try (destruct d);
    repeat (apply StepFacts.bind_inv in Hw as (? & ? & ? & Hw));
    try (apply StepFacts.ret_inv in Hw as [-> ->]);
    cbn [hasDefer]; walk_children;
    repeat match goal with H : _ = false |- _ => rewrite H; clear H end;
    reflexivity.
Qed.



End CompileFacts.
